(** * Verification of [map_embeddings.py]

    A shallow embedding of the iterative mapping-and-induction engine of
    [src/map_embeddings.py]: the mapping solvers (orthogonal Procrustes,
    unconstrained least squares, whitening), the nearest-neighbour and
    LAPMOD dictionary induction, the convergence loop, the coverage
    arithmetic of the evaluator and the argument check of [main].

    The elements of the arrays are elements of an ordered field (the class
    [Scalar]): values are exact, without rounding, infinities or NaN.  The
    instance [Qc_scalar] makes every definition executable on rationals and
    [R_scalar] instantiates the development at the real numbers.  The
    threshold of the command line is a float ([pyfloat]) that may be an
    infinity or NaN.  The array backend ([xp.linalg.svd], [xp.linalg.inv],
    element-wise power, allocation) is a record of functions ([Backend]);
    what the solvers need from it is stated as a contract at the matrix
    that is decomposed, and nothing is assumed about when it raises. *)

From Stdlib Require Import List ZArith QArith Qcanon Field Ring Lia Bool Ascii String.
From Stdlib Require Import Reals RealField Lra.
From stdpp Require Import gmap strings list fin_maps.

Open Scope nat_scope.

(* ===================================================================== *)
(** ** Scalars: the element type of the arrays *)
(* ===================================================================== *)

(** The element type of [x], [z] and of every array computed from them.
    [Fltb] is [<] and [Fleb] is [<=] on these exact values; the laws are
    those of a field whose order is total.  A float that is not a number
    is no element of it: the comparison of line 200 goes through
    [ge_float]. *)
Class Scalar := {
  F : Type;
  F0 : F;
  F1 : F;
  Fadd : F -> F -> F;
  Fmul : F -> F -> F;
  Fsub : F -> F -> F;
  Fopp : F -> F;
  Fdiv : F -> F -> F;
  Finv : F -> F;
  Fltb : F -> F -> bool;
  Fleb : F -> F -> bool;
  F_field : field_theory F0 F1 Fadd Fmul Fsub Fopp Fdiv Finv (@eq F);
  Fleb_ltb : forall a b, Fleb a b = negb (Fltb b a);
  Fltb_irrefl : forall a, Fltb a a = false;
  Fltb_trans : forall a b c, Fltb a b = true -> Fltb b c = true -> Fltb a c = true;
  Fltb_negtrans : forall a b c, Fltb a b = false -> Fltb b c = false -> Fltb a c = false
}.

Definition Qc_ltb (a b : Qc) : bool :=
  match (a ?= b)%Qc with Lt => true | _ => false end.

Definition Qc_leb (a b : Qc) : bool :=
  match (a ?= b)%Qc with Gt => false | _ => true end.

Lemma Qc_ltb_lt (a b : Qc) : Qc_ltb a b = true <-> (a < b)%Qc.
Proof.
  unfold Qc_ltb, Qclt, Qccompare. rewrite Qlt_alt.
  destruct (this a ?= this b)%Q; split; intros H; try discriminate; reflexivity.
Qed.

Lemma Qc_ltb_ge (a b : Qc) : Qc_ltb a b = false <-> (b <= a)%Qc.
Proof.
  split; intros H.
  - apply Qcnot_lt_le. intros L. apply Qc_ltb_lt in L. congruence.
  - destruct (Qc_ltb a b) eqn:E; [|reflexivity].
    apply Qc_ltb_lt in E. exfalso. apply (Qcle_not_lt _ _ H E).
Qed.

Lemma Qc_leb_ltb (a b : Qc) : Qc_leb a b = negb (Qc_ltb b a).
Proof.
  unfold Qc_leb, Qc_ltb, Qccompare.
  rewrite <- (Qcompare_antisym (this a) (this b)).
  destruct (this a ?= this b)%Q; reflexivity.
Qed.

Lemma Qc_ltb_irrefl (a : Qc) : Qc_ltb a a = false.
Proof. apply Qc_ltb_ge. apply Qcle_refl. Qed.

Lemma Qc_ltb_trans (a b c : Qc) :
  Qc_ltb a b = true -> Qc_ltb b c = true -> Qc_ltb a c = true.
Proof. rewrite !Qc_ltb_lt. apply Qclt_trans. Qed.

Lemma Qc_ltb_negtrans (a b c : Qc) :
  Qc_ltb a b = false -> Qc_ltb b c = false -> Qc_ltb a c = false.
Proof. rewrite !Qc_ltb_ge. intros H1 H2. exact (Qcle_trans _ _ _ H2 H1). Qed.

(** Exact rationals: the executable instance. *)
#[export] Instance Qc_scalar : Scalar | 0 := {|
  F := Qc; F0 := 0%Qc; F1 := 1%Qc;
  Fadd := Qcplus; Fmul := Qcmult; Fsub := Qcminus;
  Fopp := Qcopp; Fdiv := Qcdiv; Finv := Qcinv;
  Fltb := Qc_ltb; Fleb := Qc_leb;
  F_field := Qcft;
  Fleb_ltb := Qc_leb_ltb;
  Fltb_irrefl := Qc_ltb_irrefl;
  Fltb_trans := Qc_ltb_trans;
  Fltb_negtrans := Qc_ltb_negtrans
|}.

Definition R_ltb (a b : R) : bool := if Rlt_dec a b then true else false.
Definition R_leb (a b : R) : bool := if Rle_dec a b then true else false.

Lemma R_leb_ltb (a b : R) : R_leb a b = negb (R_ltb b a).
Proof.
  unfold R_leb, R_ltb.
  destruct (Rle_dec a b), (Rlt_dec b a); simpl; try reflexivity; exfalso; lra.
Qed.

Lemma R_ltb_irrefl (a : R) : R_ltb a a = false.
Proof. unfold R_ltb. destruct (Rlt_dec a a); [exfalso; lra | reflexivity]. Qed.

Lemma R_ltb_trans (a b c : R) :
  R_ltb a b = true -> R_ltb b c = true -> R_ltb a c = true.
Proof.
  unfold R_ltb.
  destruct (Rlt_dec a b), (Rlt_dec b c), (Rlt_dec a c); intros; try discriminate;
    try reflexivity; exfalso; lra.
Qed.

Lemma R_ltb_negtrans (a b c : R) :
  R_ltb a b = false -> R_ltb b c = false -> R_ltb a c = false.
Proof.
  unfold R_ltb.
  destruct (Rlt_dec a b), (Rlt_dec b c), (Rlt_dec a c); intros; try discriminate;
    try reflexivity; exfalso; lra.
Qed.

(** The real numbers: the exact arithmetic the spec speaks of. *)
#[export] Instance R_scalar : Scalar | 10 := {|
  F := R; F0 := 0%R; F1 := 1%R;
  Fadd := Rplus; Fmul := Rmult; Fsub := Rminus;
  Fopp := Ropp; Fdiv := Rdiv; Finv := Rinv;
  Fltb := R_ltb; Fleb := R_leb;
  F_field := Rfield;
  Fleb_ltb := R_leb_ltb;
  Fltb_irrefl := R_ltb_irrefl;
  Fltb_trans := R_ltb_trans;
  Fltb_negtrans := R_ltb_negtrans
|}.

(* ===================================================================== *)
(** ** Exceptions and results *)
(* ===================================================================== *)

(** The Python exceptions the modelled code can raise; [SystemExit] carries
    the argument of [sys.exit]. *)
Inductive exn : Type :=
| IndexError
| ValueError
| LinAlgError
| ZeroDivisionError
| AttributeError (attr : string)
| UnboundLocalError (name : string)
| AssertionError
| MemoryError
| SystemExit (code : Z).

Inductive result (A : Type) : Type :=
| Ok (a : A)
| Raise (e : exn).

Arguments Ok {A} a.
Arguments Raise {A} e.

Definition bind {A B : Type} (m : result A) (k : A -> result B) : result B :=
  match m with
  | Ok a => k a
  | Raise e => Raise e
  end.

Notation "'let*' x ':=' m 'in' k" := (bind m (fun x => k))
  (at level 10, x pattern, m at level 100, k at level 200).

Fixpoint mapM {A B : Type} (f : A -> result B) (l : list A) : result (list B) :=
  match l with
  | [] => Ok []
  | a :: l' => let* b := f a in let* bs := mapM f l' in Ok (b :: bs)
  end.

Definition is_ok {A : Type} (m : result A) : bool :=
  match m with Ok _ => true | Raise _ => false end.

(* ===================================================================== *)
(** ** Arrays *)
(* ===================================================================== *)

Section Arrays.
Context {K : Scalar}.

(** A two-dimensional array of shape [(nrows, ncols)], stored by rows.  The
    column count is kept apart from the rows, so that an array with no row
    still has a shape, as in NumPy. *)
Record matrix : Type := Mat { ncols : nat; mrows : list (list F) }.

Definition nrows (m : matrix) : nat := length (mrows m).

(** Every row has [ncols] elements. *)
Definition wf (m : matrix) : Prop :=
  Forall (fun r => length r = ncols m) (mrows m).

Definition wfb (m : matrix) : bool :=
  forallb (fun r => Nat.eqb (length r) (ncols m)) (mrows m).

(** [m[i, j]] *)
Definition entry (m : matrix) (i j : nat) : F :=
  nth j (nth i (mrows m) []) F0.

(** The array of shape [(n, d)] whose element [(i, j)] is [f i j]. *)
Definition tabulate (n d : nat) (f : nat -> nat -> F) : matrix :=
  Mat d (map (fun i => map (f i) (seq 0 d)) (seq 0 n)).

(** [m.T] *)
Definition transpose (m : matrix) : matrix :=
  tabulate (ncols m) (nrows m) (fun i j => entry m j i).

Definition sum_n (n : nat) (f : nat -> F) : F :=
  fold_right Fadd F0 (map f (seq 0 n)).

(** The matrix product of two arrays whose inner dimensions agree. *)
Definition mmul (a b : matrix) : matrix :=
  tabulate (nrows a) (ncols b)
    (fun i j => sum_n (ncols a) (fun k => Fmul (entry a i k) (entry b k j))).

(** [a.dot(b)]: NumPy raises [ValueError] when the shapes are not aligned. *)
Definition dot (a b : matrix) : result matrix :=
  if Nat.eqb (ncols a) (nrows b) then Ok (mmul a b) else Raise ValueError.

Definition identity (d : nat) : matrix :=
  tabulate d d (fun i j => if Nat.eqb i j then F1 else F0).

(** [xp.diag(v)] of a one-dimensional array. *)
Definition diag (v : list F) : matrix :=
  tabulate (length v) (length v)
    (fun i j => if Nat.eqb i j then nth i v F0 else F0).

(** [m[indices]] with a list of row indices: [IndexError] when an index is
    not a row of [m].  The indices of the program are produced by
    [enumerate], [arange] and [argmax], hence never negative. *)
Definition take_rows (m : matrix) (indices : list nat) : result matrix :=
  let* rs := mapM (fun i => match nth_error (mrows m) i with
                            | Some r => Ok r
                            | None => Raise IndexError
                            end) indices in
  Ok (Mat (ncols m) rs).

(** [m[i:j]] *)
Definition slice_rows (m : matrix) (i j : nat) : matrix :=
  Mat (ncols m) (firstn (j - i) (skipn i (mrows m))).

(** [m[:, :k]] *)
Definition slice_cols (m : matrix) (k : nat) : matrix :=
  Mat (Nat.min k (ncols m)) (map (firstn k) (mrows m)).

(** [m *= v] with [v] one-dimensional, broadcast over the rows: [v] has
    one element per column, or a single element that is broadcast over the
    columns too; any other length is a [ValueError]. *)
Definition scale_cols (m : matrix) (v : list F) : result matrix :=
  if Nat.eqb (length v) (ncols m)
  then Ok (tabulate (nrows m) (ncols m)
             (fun i j => Fmul (entry m i j) (nth j v F0)))
  else if Nat.eqb (length v) 1
  then Ok (tabulate (nrows m) (ncols m)
             (fun i j => Fmul (entry m i j) (nth 0 v F0)))
  else Raise ValueError.

(** Integer constants of the program as scalars. *)
Fixpoint F_of_nat (n : nat) : F :=
  match n with
  | O => F0
  | S n' => Fadd F1 (F_of_nat n')
  end.

(** [xp.mean(v)] of a one-dimensional array. *)
Definition mean (v : list F) : F :=
  Fdiv (fold_right Fadd F0 v) (F_of_nat (length v)).

End Arrays.

Arguments matrix : clear implicits.
Arguments matrix {K}.

(* ===================================================================== *)
(** ** The array backend and the command-line arguments *)
(* ===================================================================== *)

(** The part of [xp] (NumPy or CuPy) and of [lap] that is not modelled by a
    definition of this file.  [svd m] is [xp.linalg.svd(m)], [svd_thin m] is
    [xp.linalg.svd(m, full_matrices=False)]: both return [(u, s, vt)].
    [inv m] is [xp.linalg.inv(m)]: it returns a matrix or raises, and
    nothing is fixed here about when it raises (LAPACK raises
    [LinAlgError] when its factorisation meets a pivot that is exactly
    zero, which rounding makes rare even for a singular argument).
    [pow a b] is [a ** b].  [alloc_error n] is the exception, if any, with
    which the allocation of an array of [n >= 0] elements fails
    ([MemoryError] for a length beyond the memory of the machine).
    [lapmod_matching] stands for lines 269-330, the construction of the
    sparse cost structure followed by the call of [lapmod]; it receives
    [n_rows], the value read from [args.n_similar] and the mapped
    embeddings, and returns the matched indices and [best_sim_forward]. *)
Record Backend {K : Scalar} : Type := {
  svd : matrix -> matrix * list F * matrix;
  svd_thin : matrix -> matrix * list F * matrix;
  inv : matrix -> result matrix;
  pow : F -> F -> F;
  alloc_error : Z -> option exn;
  lapmod_matching :
    Z -> Z -> matrix -> matrix -> result (list nat * list nat * list F)
}.

(** A float of the command line, as [argparse] returns it for
    [type=float]: a number, an infinity or NaN ([float] accepts [inf],
    [-inf] and [nan]). *)
Inductive pyfloat {K : Scalar} : Type :=
| Number (v : F)
| Infinity
| MinusInfinity
| NaN.

(** [a >= t] and [a < t] for a number [a] and a float [t] of the command
    line: both are false when [t] is NaN. *)
Definition ge_float {K : Scalar} (a : F) (t : pyfloat) : bool :=
  match t with
  | Number v => Fleb v a
  | Infinity => false
  | MinusInfinity => true
  | NaN => false
  end.

Definition lt_float {K : Scalar} (a : F) (t : pyfloat) : bool :=
  match t with
  | Number v => Fltb a v
  | Infinity => true
  | MinusInfinity => false
  | NaN => false
  end.

Inductive direction_choice : Type := forward | backward | union.

Inductive dewhiten_choice : Type := dewhiten_src | dewhiten_trg.

(** The namespace returned by [parser.parse_args()]: one field for each
    destination that the parser defines (lines 36-71), with the type that
    argparse gives it.  [None] is Python's [None]. *)
Record Args {K : Scalar} : Type := {
  src_input : string;
  trg_input : string;
  src_output : string;
  trg_output : string;
  encoding : string;
  precision : string;
  cuda : bool;
  num_words : option Z;
  dictionary : option string;
  test_dict : option string;
  normalize : list string;
  orthogonal : bool;
  unconstrained : bool;
  self_learning : bool;
  direction : direction_choice;
  numerals : bool;
  identical : bool;
  threshold : pyfloat;
  validation : option string;
  log : option string;
  verbose : bool;
  lapmod : bool;
  lapmod_chunk_size : Z;
  lap_repeats : Z;
  lap_prop : string;
  lap_rank : option Z;
  whiten : bool;
  src_reweight : F;
  trg_reweight : F;
  src_dewhiten : option dewhiten_choice;
  trg_dewhiten : option dewhiten_choice;
  dim_reduction : Z
}.

(** The attribute names of the namespace, [vars(args).keys()]: the
    destinations of the [add_argument] calls of lines 36-71, in order. *)
Definition parser_dests : list string :=
  [ "src_input"; "trg_input"; "src_output"; "trg_output"; "encoding";
    "precision"; "cuda"; "num_words"; "dictionary"; "test_dict";
    "normalize"; "orthogonal"; "unconstrained"; "self_learning";
    "direction"; "numerals"; "identical"; "threshold"; "validation"; "log";
    "verbose"; "lapmod"; "lapmod_chunk_size"; "lap_repeats"; "lap_prop";
    "lap_rank"; "whiten"; "src_reweight"; "trg_reweight"; "src_dewhiten";
    "trg_dewhiten"; "dim_reduction" ]%string.

(** The value of the integer-valued attributes, by name ([0] stands for
    [None] and for the attributes of another type). *)
Definition int_attribute {K : Scalar} (args : Args) (name : string) : Z :=
  if String.eqb name "num_words" then default 0%Z (num_words args)
  else if String.eqb name "lapmod_chunk_size" then lapmod_chunk_size args
  else if String.eqb name "lap_repeats" then lap_repeats args
  else if String.eqb name "lap_rank" then default 0%Z (lap_rank args)
  else if String.eqb name "dim_reduction" then dim_reduction args
  else 0%Z.

(** [args.<name>] for an integer attribute.  An attribute that the parser
    does not define raises [AttributeError]. *)
Definition getattr_int {K : Scalar} (args : Args) (name : string) : result Z :=
  if bool_decide (name ∈ parser_dests)
  then Ok (int_attribute args name)
  else Raise (AttributeError name).

Section Solver.
Context {K : Scalar}.
Variable xp : Backend.

(* ------------------------------------------------------------------- *)
(** *** The mapping solver (lines 201-249) *)
(* ------------------------------------------------------------------- *)

(** Lines 202-206: the orthogonal policy.
<<
    u, s, vt = xp.linalg.svd(z[trg_indices].T.dot(x[src_indices]))
    w = vt.T.dot(u.T)
    xw = x.dot(w)
    zw = z
>> *)
Definition procrustes_matrix (x z : matrix) (src_indices trg_indices : list nat)
  : result matrix :=
  let* zdict := take_rows z trg_indices in
  let* xdict := take_rows x src_indices in
  dot (transpose zdict) xdict.

Definition orthogonal_w (x z : matrix) (src_indices trg_indices : list nat)
  : result matrix :=
  let* m := procrustes_matrix x z src_indices trg_indices in
  let '(u, s, vt) := svd xp m in
  dot (transpose vt) (transpose u).

Definition orthogonal_mapping (x z : matrix) (src_indices trg_indices : list nat)
  : result (matrix * matrix) :=
  let* w := orthogonal_w x z src_indices trg_indices in
  let* xw := dot x w in
  Ok (xw, z).

(** Lines 207-211: the unconstrained policy.
<<
    x_pseudoinv = xp.linalg.inv(x[src_indices].T.dot(x[src_indices])).dot(x[src_indices].T)
    w = x_pseudoinv.dot(z[trg_indices])
    xw = x.dot(w)
    zw = z
>> *)
Definition unconstrained_mapping (x z : matrix) (src_indices trg_indices : list nat)
  : result (matrix * matrix) :=
  let* xdict := take_rows x src_indices in
  let* gram := dot (transpose xdict) xdict in
  let* gram_inv := inv xp gram in
  let* x_pseudoinv := dot gram_inv (transpose xdict) in
  let* zdict := take_rows z trg_indices in
  let* w := dot x_pseudoinv zdict in
  let* xw := dot x w in
  Ok (xw, z).

(** Lines 217-219.
<<
    def whitening_transformation(m):
        u, s, vt = xp.linalg.svd(m, full_matrices=False)
        return vt.T.dot(xp.diag(1/s)).dot(vt)
>> *)
Definition whitening_transformation (m : matrix) : result matrix :=
  let '(u, s, vt) := svd_thin xp m in
  let* a := dot (transpose vt) (diag (map (fun si => Fdiv F1 si) s)) in
  dot a vt.

(** [wx2.T.dot(xp.linalg.inv(wx1)).dot(wx2)] of lines 238-244.  The local
    [wx1] (or [wz1]) is bound only when whitening was performed; reading it
    unbound raises [UnboundLocalError], which the argument check of [main]
    excludes. *)
Definition dewhitening (name : string) (w1 : option matrix) (w2 : matrix)
  : result matrix :=
  match w1 with
  | None => Raise (UnboundLocalError name)
  | Some w1 =>
      let* w1_inv := inv xp w1 in
      let* a := dot (transpose w2) w1_inv in
      dot a w2
  end.

Definition dewhiten (choice : option dewhiten_choice)
    (wx1 wz1 : option matrix) (wx2 wz2 : matrix) (m : matrix) : result matrix :=
  match choice with
  | Some dewhiten_src => let* d := dewhitening "wx1" wx1 wx2 in dot m d
  | Some dewhiten_trg => let* d := dewhitening "wz1" wz1 wz2 in dot m d
  | None => Ok m
  end.

(** Lines 212-249: the advanced policy. *)
Definition advanced_mapping (args : Args) (x z : matrix)
    (src_indices trg_indices : list nat) : result (matrix * matrix) :=
  let xw := x in
  let zw := z in
  (* STEP 1: Whitening *)
  let* (wx1, wz1, xw, zw) :=
    if whiten args then
      let* xdict := take_rows xw src_indices in
      let* wx1 := whitening_transformation xdict in
      let* zdict := take_rows zw trg_indices in
      let* wz1 := whitening_transformation zdict in
      let* xw := dot xw wx1 in
      let* zw := dot zw wz1 in
      Ok (Some wx1, Some wz1, xw, zw)
    else Ok (None, None, xw, zw) in
  (* STEP 2: Orthogonal mapping *)
  let* xdict := take_rows xw src_indices in
  let* zdict := take_rows zw trg_indices in
  let* c := dot (transpose xdict) zdict in
  let '(wx2, s, wz2_t) := svd xp c in
  let wz2 := transpose wz2_t in
  let* xw := dot xw wx2 in
  let* zw := dot zw wz2 in
  (* STEP 3: Re-weighting *)
  let* xw := scale_cols xw (map (fun si => pow xp si (src_reweight args)) s) in
  let* zw := scale_cols zw (map (fun si => pow xp si (trg_reweight args)) s) in
  (* STEP 4: De-whitening *)
  let* xw := dewhiten (src_dewhiten args) wx1 wz1 wx2 wz2 xw in
  let* zw := dewhiten (trg_dewhiten args) wx1 wz1 wx2 wz2 zw in
  (* STEP 5: Dimensionality reduction *)
  if (0 <? dim_reduction args)%Z
  then Ok (slice_cols xw (Z.to_nat (dim_reduction args)),
           slice_cols zw (Z.to_nat (dim_reduction args)))
  else Ok (xw, zw).

(** Lines 201-249: the policy is chosen by [args.orthogonal] and
    [args.unconstrained]. *)
Definition update_mapping (args : Args) (x z : matrix)
    (src_indices trg_indices : list nat) : result (matrix * matrix) :=
  if orthogonal args then orthogonal_mapping x z src_indices trg_indices
  else if unconstrained args then unconstrained_mapping x z src_indices trg_indices
  else advanced_mapping args x z src_indices trg_indices.

End Solver.

(* ===================================================================== *)
(** ** Dictionary induction (lines 252-373) *)
(* ===================================================================== *)

(** [l[i:j]] for [0 <= i]. *)
Definition slice {A : Type} (l : list A) (i j : nat) : list A :=
  firstn (j - i) (skipn i l).

(** Element-wise choice: where the mask holds the new value is taken. *)
Fixpoint where_mask {A : Type} (mask : list bool) (vals old : list A) : list A :=
  match mask, vals, old with
  | b :: mask', v :: vals', o :: old' =>
      (if b then v else o) :: where_mask mask' vals' old'
  | _, _, _ => old
  end.

(** [l[i:j][mask] = vals[mask]]: the slice is a view, the assignment
    writes through to [l]. *)
Definition assign_masked {A : Type} (l : list A) (i j : nat)
    (mask : list bool) (vals : list A) : list A :=
  firstn i l ++ where_mask mask vals (slice l i j) ++ skipn j l.

(** [range(0, n, step)] for a positive [step]. *)
Definition block_starts (n step : nat) : list nat :=
  map (fun q => q * step) (seq 0 ((n + step - 1) / step)).

Fixpoint foldM {A S : Type} (f : S -> A -> result S) (l : list A) (s : S)
  : result S :=
  match l with
  | [] => Ok s
  | a :: l' => let* s' := f s a in foldM f l' s'
  end.

Section Induction.
Context {K : Scalar}.
Variable xp : Backend.

(** The value [-100] with which [prev_objective], [objective] and the
    best-similarity arrays are initialised. *)
Definition sentinel : F := Fopp (F_of_nat 100).

(** [xp.full(n, v)] for a length given on the command line: a negative
    length is a [ValueError], a length that cannot be allocated raises the
    exception of the allocation. *)
Definition full (n : Z) (v : F) : result (list F) :=
  if (n <? 0)%Z then Raise ValueError
  else match alloc_error xp n with
       | Some e => Raise e
       | None => Ok (repeat v (Z.to_nat n))
       end.

(** The running arg-max of a scan: the position and value of the first
    greatest element seen so far. *)
Fixpoint argmax_from (best_i : nat) (best : F) (i : nat) (l : list F)
  : nat * F :=
  match l with
  | [] => (best_i, best)
  | v :: l' =>
      if Fltb best v then argmax_from i v (S i) l'
      else argmax_from best_i best (S i) l'
  end.

(** [argmax] of a one-dimensional array: the index of the first occurrence
    of the maximum; [ValueError] on an empty array. *)
Definition argmax (l : list F) : result nat :=
  match l with
  | [] => Raise ValueError
  | v :: l' => Ok (fst (argmax_from 0 v 1 l'))
  end.

(** [sim.argmax(axis=1)] and [sim.argmax(axis=0)]. *)
Definition argmax_axis1 (sim : matrix) : result (list nat) :=
  mapM argmax (mrows sim).

Definition argmax_axis0 (sim : matrix) : result (list nat) :=
  mapM argmax (mrows (transpose sim)).

(** The arrays updated by the nearest-neighbour search. *)
Record nn_state : Type := {
  best_sim_forward : list F;
  trg_indices_forward : list nat;
  best_sim_backward : list F;
  src_indices_backward : list nat
}.

Definition in_forward (d : direction_choice) : bool :=
  match d with forward | union => true | backward => false end.

Definition in_backward (d : direction_choice) : bool :=
  match d with backward | union => true | forward => false end.

(** Lines 343-348, for the block of rows [i:j] and columns [k:l].
<<
    ind = sim.argmax(axis=1)
    val = sim[xp.arange(sim.shape[0]), ind]
    ind += k
    mask = (val > best_sim_forward[i:j])
    best_sim_forward[i:j][mask] = val[mask]
    trg_indices_forward[i:j][mask] = ind[mask]
>> *)
Definition forward_block (sim : matrix) (i j k : nat) (st : nn_state)
  : result nn_state :=
  let* ind := argmax_axis1 sim in
  let val := map (fun t => entry sim t (nth t ind 0)) (seq 0 (nrows sim)) in
  let ind := map (fun c => c + k) ind in
  let mask := map (fun p => Fltb (snd p) (fst p))
                  (combine val (slice (best_sim_forward st) i j)) in
  Ok {| best_sim_forward := assign_masked (best_sim_forward st) i j mask val;
        trg_indices_forward := assign_masked (trg_indices_forward st) i j mask ind;
        best_sim_backward := best_sim_backward st;
        src_indices_backward := src_indices_backward st |}.

(** Lines 350-355.
<<
    ind = sim.argmax(axis=0)
    val = sim[ind, xp.arange(sim.shape[1])]
    ind += i
    mask = (val > best_sim_backward[k:l])
    best_sim_backward[k:l][mask] = val[mask]
    src_indices_backward[k:l][mask] = ind[mask]
>> *)
Definition backward_block (sim : matrix) (i k l : nat) (st : nn_state)
  : result nn_state :=
  let* ind := argmax_axis0 sim in
  let val := map (fun t => entry sim (nth t ind 0) t) (seq 0 (ncols sim)) in
  let ind := map (fun r => r + i) ind in
  let mask := map (fun p => Fltb (snd p) (fst p))
                  (combine val (slice (best_sim_backward st) k l)) in
  Ok {| best_sim_forward := best_sim_forward st;
        trg_indices_forward := trg_indices_forward st;
        best_sim_backward := assign_masked (best_sim_backward st) k l mask val;
        src_indices_backward := assign_masked (src_indices_backward st) k l mask ind |}.

(** Lines 341-355: one block of the similarity matrix. *)
Definition nn_block (d : direction_choice) (n m : nat) (xw zw : matrix)
    (max_dim_x max_dim_z : nat) (i k : nat) (st : nn_state) : result nn_state :=
  let j := Nat.min n (i + max_dim_x) in
  let l := Nat.min m (k + max_dim_z) in
  let* sim := dot (slice_rows xw i j) (transpose (slice_rows zw k l)) in
  let* st := if in_forward d then forward_block sim i j k st else Ok st in
  if in_backward d then backward_block sim i k l st else Ok st.

(** Lines 255-260: the arrays before the search. *)
Definition nn_init (n m : nat) : nn_state :=
  {| best_sim_forward := repeat sentinel n;
     trg_indices_forward := repeat 0 n;
     best_sim_backward := repeat sentinel m;
     src_indices_backward := repeat 0 m |}.

(** Lines 334-355: the search over blocks of at most [max_dim_x] rows and
    [max_dim_z] columns ([MAX_DIM_X] and [MAX_DIM_Z] in the program);
    [n = x.shape[0]] and [m = z.shape[0]]. *)
Definition nearest_neighbours (d : direction_choice) (max_dim_x max_dim_z : nat)
    (n m : nat) (xw zw : matrix) : result nn_state :=
  foldM (fun st i =>
           foldM (fun st k => nn_block d n m xw zw max_dim_x max_dim_z i k st)
                 (block_starts m max_dim_z) st)
        (block_starts n max_dim_x) (nn_init n m).

(** Lines 356-364: the training dictionary of the chosen direction. *)
Definition select_dictionary (d : direction_choice) (n m : nat) (st : nn_state)
  : list nat * list nat :=
  let src_indices_forward := seq 0 n in
  let trg_indices_backward := seq 0 m in
  match d with
  | forward => (src_indices_forward, trg_indices_forward st)
  | backward => (src_indices_backward st, trg_indices_backward)
  | union => (src_indices_forward ++ src_indices_backward st,
              trg_indices_forward st ++ trg_indices_backward)
  end.

(** Lines 367-373: the objective. *)
Definition objective_of (d : direction_choice) (bf bb : list F) : F :=
  match d with
  | forward => mean bf
  | backward => mean bb
  | union => Fdiv (Fadd (mean bf) (mean bb)) (F_of_nat 2)
  end.

Definition MAX_DIM_X : nat := 10000.
Definition MAX_DIM_Z : nat := 10000.

(** What the self-learning step hands to the loop: the new training
    dictionary and the objective. *)
Record induced : Type := {
  new_src_indices : list nat;
  new_trg_indices : list nat;
  new_objective : F
}.

(** Lines 262-330: the LAPMOD branch.  The first statements are modelled;
    line 269 reads [args.n_similar]; what follows it is
    [lapmod_matching]. *)
Definition lapmod_induction (args : Args) (n m : nat) (xw zw : matrix) : result (list nat * list nat * list F) :=
  let* (n_rows, best_sim_forward) :=
    match lap_rank args with
    | Some r => let* b := full r sentinel in Ok (r, b)
    | None => Ok (Z.of_nat (nrows xw), repeat sentinel n)
    end in
  let* n_similar := getattr_int args "n_similar" in
  lapmod_matching xp n_rows n_similar xw zw.

(** Lines 252-373: the self-learning step of one iteration. *)
Definition induce_dictionary (args : Args) (x z xw zw : matrix) : result induced :=
  let n := nrows x in
  let m := nrows z in
  if lapmod args then
    let* (src_indices, trg_indices, bf) := lapmod_induction args n m xw zw in
    Ok {| new_src_indices := src_indices;
          new_trg_indices := trg_indices;
          new_objective := objective_of (direction args) bf (repeat sentinel m) |}
  else
    let* st := nearest_neighbours (direction args) MAX_DIM_X MAX_DIM_Z n m xw zw in
    let (src_indices, trg_indices) := select_dictionary (direction args) n m st in
    Ok {| new_src_indices := src_indices;
          new_trg_indices := trg_indices;
          new_objective := objective_of (direction args)
                             (best_sim_forward st) (best_sim_backward st) |}.

End Induction.

(* ===================================================================== *)
(** ** Vocabularies and reference dictionaries *)
(* ===================================================================== *)

(** [{word: i for i, word in enumerate(words)}] of lines 124-125: a later
    occurrence of a word replaces the index of an earlier one. *)
Fixpoint word2ind_from (i : nat) (words : list string) (m : gmap string nat)
  : gmap string nat :=
  match words with
  | [] => m
  | w :: ws => word2ind_from (S i) ws (<[w := i]> m)
  end.

Definition word2ind (words : list string) : gmap string nat :=
  word2ind_from 0 words ∅.

(** The variables of lines 162-164 and 418-420: [validation] (or [src2trg]),
    a [defaultdict(set)] from source index to target indices, and the sets
    [oov] and [vocab] of source words. *)
Record reference : Type := {
  src2trg : gmap nat (gset nat);
  oov : gset string;
  vocab : gset string
}.

Definition empty_reference : reference :=
  {| src2trg := ∅; oov := ∅; vocab := ∅ |}.

(** Lines 166-173 and 422-429, for one line [src trg] of the file: both
    lookups succeed, or the [KeyError] handler adds [src] to [oov]. *)
Definition read_entry (src_word2ind trg_word2ind : gmap string nat)
    (r : reference) (line : string * string) : reference :=
  let (src, trg) := line in
  match src_word2ind !! src with
  | Some src_ind =>
      match trg_word2ind !! trg with
      | Some trg_ind =>
          {| src2trg := <[src_ind := default ∅ (src2trg r !! src_ind) ∪ {[trg_ind]}]>
                          (src2trg r);
             oov := oov r;
             vocab := vocab r ∪ {[src]} |}
      | None =>
          {| src2trg := src2trg r; oov := oov r ∪ {[src]}; vocab := vocab r |}
      end
  | None =>
      {| src2trg := src2trg r; oov := oov r ∪ {[src]}; vocab := vocab r |}
  end.

Definition read_reference (src_word2ind trg_word2ind : gmap string nat)
    (lines : list (string * string)) : reference :=
  fold_left (read_entry src_word2ind trg_word2ind) lines empty_reference.

(** [src, trg = line.split()] of lines 150, 166 and 422, on the list of
    words that [line.split()] returns: the unpacking raises [ValueError]
    unless there are exactly two. *)
Definition unpack_pair (words : list string) : result (string * string) :=
  match words with
  | [src; trg] => Ok (src, trg)
  | _ => Raise ValueError
  end.

(** Lines 165-173 and 421-429: the loop over the lines of the file, each
    given by its words.  The unpacking is outside the [try]. *)
Definition read_reference_lines (src_word2ind trg_word2ind : gmap string nat)
    (lines : list (list string)) : result reference :=
  foldM (fun r line =>
           let* entry := unpack_pair line in
           Ok (read_entry src_word2ind trg_word2ind r entry))
        lines empty_reference.

Section Evaluation.
Context {K : Scalar}.

(** Lines 174-175 and 431-432.
<<
    oov -= vocab
    coverage = len(src2trg) / (len(src2trg) + len(oov))
>>
    The division of two integers raises [ZeroDivisionError] when the
    divisor is zero. *)
Definition coverage_of (r : reference) : result F :=
  let oov := oov r ∖ vocab r in
  let known := size (src2trg r) in
  if Nat.eqb (known + size oov) 0 then Raise ZeroDivisionError
  else Ok (Fdiv (F_of_nat known) (F_of_nat (known + size oov))).

Definition coverage (src_word2ind trg_word2ind : gmap string nat)
    (lines : list (string * string)) : result F :=
  coverage_of (read_reference src_word2ind trg_word2ind lines).

(** Lines 165-175 and 421-432 on the lines of a file. *)
Definition coverage_lines (src_word2ind trg_word2ind : gmap string nat)
    (lines : list (list string)) : result F :=
  let* r := read_reference_lines src_word2ind trg_word2ind lines in
  coverage_of r.

End Evaluation.

(* ===================================================================== *)
(** ** The training loop (lines 196-401) *)
(* ===================================================================== *)

Section Loop.
Context {K : Scalar}.
Variable xp : Backend.

(** The variables that live across iterations. *)
Record loop_state : Type := {
  it : nat;
  prev_objective : F;
  objective : F;
  src_indices : list nat;
  trg_indices : list nat;
  mapped : option (matrix * matrix)
}.

(** Lines 197-198: [prev_objective = objective = -100.] and [it = 1]. *)
Definition initial_state (src trg : list nat) : loop_state :=
  {| it := 1; prev_objective := sentinel; objective := sentinel;
     src_indices := src; trg_indices := trg; mapped := None |}.

(** Line 200: [it == 1 or objective - prev_objective >= args.threshold]. *)
Definition loop_condition (args : Args) (st : loop_state) : bool :=
  Nat.eqb (it st) 1
  || ge_float (Fsub (objective st) (prev_objective st)) (threshold args).

(** Lines 394-398: the line of the log file.
<<
    if args.log is not None:
        ...
        print(..., file=log)
>>
    The local [log] is bound at lines 178-179 under [if args.log:], which
    the empty string does not pass. *)
Definition write_log (args : Args) : result unit :=
  match log args with
  | Some name => if String.eqb name EmptyString then Raise (UnboundLocalError "log") else Ok tt
  | None => Ok tt
  end.

(** Lines 201-432: one iteration, as a function of the state.
    [test_lines] holds the lines of the file [args.test_dict], each as the
    list of its words, when the option is given.  Of the evaluation against
    the validation and test dictionaries what can stop the run is kept:
    the unpacking of a line and the coverage division.  What the body
    prints, logs and, with a test dictionary, writes at lines 404-408 in
    every iteration is not part of the result. *)
Definition iteration (args : Args)
    (src_word2ind trg_word2ind : gmap string nat)
    (test_lines : option (list (list string)))
    (x z : matrix) (st : loop_state) : result loop_state :=
  let* (xw, zw) := update_mapping xp args x z (src_indices st) (trg_indices st) in
  let* st :=
    if self_learning args then
      let* ind := induce_dictionary xp args x z xw zw in
      let* _ := write_log args in
      Ok {| it := it st;
            prev_objective := objective st;
            objective := new_objective ind;
            src_indices := new_src_indices ind;
            trg_indices := new_trg_indices ind;
            mapped := mapped st |}
    else Ok st in
  let st := {| it := it st + 1;
               prev_objective := prev_objective st;
               objective := objective st;
               src_indices := src_indices st;
               trg_indices := trg_indices st;
               mapped := Some (xw, zw) |} in
  match test_lines with
  | Some lines => let* c := coverage_lines src_word2ind trg_word2ind lines in Ok st
  | None => Ok st
  end.

(** How a run of the loop with a bound on the number of iterations ends. *)
Inductive outcome : Type :=
| Converged (st : loop_state)
| OutOfFuel (st : loop_state).

(** Line 200: the [while] loop, unrolled at most [fuel] times. *)
Fixpoint training_loop (fuel : nat) (args : Args)
    (src_word2ind trg_word2ind : gmap string nat)
    (test_lines : option (list (list string)))
    (x z : matrix) (st : loop_state) : result outcome :=
  if loop_condition args st then
    match fuel with
    | O => Ok (OutOfFuel st)
    | S fuel' =>
        let* st' := iteration args src_word2ind trg_word2ind test_lines x z st in
        training_loop fuel' args src_word2ind trg_word2ind test_lines x z st'
    end
  else Ok (Converged st).

(** The state after [n] completed iterations, whatever the loop condition
    says. *)
Fixpoint iterations (n : nat) (args : Args)
    (src_word2ind trg_word2ind : gmap string nat)
    (test_lines : option (list (list string)))
    (x z : matrix) (st : loop_state) : result loop_state :=
  match n with
  | O => Ok st
  | S n' =>
      let* st' := iterations n' args src_word2ind trg_word2ind test_lines x z st in
      iteration args src_word2ind trg_word2ind test_lines x z st'
  end.

End Loop.

(* ===================================================================== *)
(** ** The program (lines 33-456) *)
(* ===================================================================== *)

(** What the program does to its surroundings, in order. *)
Inductive event : Type :=
| Stderr (msg : string)
| Stdout (msg : string)
| ReadEmbeddings (path : string)
| ReadDictionary (path : option string)
| WriteEmbeddings (path : string).

(** A computation that leaves a trace of events and returns or raises. *)
Definition prog (A : Type) : Type := list event * result A.

Definition ret {A : Type} (a : A) : prog A := ([], Ok a).
Definition emit (e : event) : prog unit := ([e], Ok tt).
Definition lift {A : Type} (r : result A) : prog A := ([], r).

Definition pbind {A B : Type} (m : prog A) (k : A -> prog B) : prog B :=
  match m with
  | (t, Ok a) => let (t', r) := k a in (t ++ t', r)
  | (t, Raise e) => (t, Raise e)
  end.

Notation "'do*' x ':=' m 'in' k" := (pbind m (fun x => k))
  (at level 10, x pattern, m at level 100, k at level 200).

(** [numeral_regex.match(word) is not None] for [^[0-9]+$]: one or more
    digits up to the end, where [$] also matches before a final newline. *)
Definition is_digit (c : Ascii.ascii) : bool :=
  (48 <=? nat_of_ascii c) && (nat_of_ascii c <=? 57).

Fixpoint digits_to_end (s : string) : bool :=
  match s with
  | EmptyString => true
  | String c EmptyString => is_digit c || Ascii.eqb c "010"%char
  | String c s' => is_digit c && digits_to_end s'
  end.

Definition numeral_match (word : string) : bool :=
  match word with
  | EmptyString => false
  | String c _ => is_digit c && digits_to_end word
  end.

Section Program.
Context {K : Scalar}.
Variable xp : Backend.

(** The collaborators of [main]: [embeddings.read] on the file of a path,
    [supports_cupy()], the lines of a dictionary file, each as the list of
    words that [line.split()] returns ([None] is the standard input), and
    the normalisation functions of [embeddings] by the name of the
    action.  Files are taken to exist and to be readable. *)
Record Env : Type := {
  embeddings_read : string -> list string * matrix;
  supports_cupy : bool;
  dictionary_lines : option string -> list (list string);
  normalize_action : string -> matrix -> matrix
}.

Variable env : Env.

(** Lines 137-139 and 144-146: the pairs of a set of shared words, in the
    order in which the set is enumerated. *)
Definition seed_of_words (src_word2ind trg_word2ind : gmap string nat)
    (words : gset string) : list nat * list nat :=
  let ws := elements words in
  (omap (fun w => src_word2ind !! w) ws, omap (fun w => trg_word2ind !! w) ws).

(** Lines 149-157: the training dictionary read from a file.  A line that
    does not unpack into two words ends the run with [ValueError]; an entry
    with a word out of the vocabulary is dropped with a warning. *)
Fixpoint seed_of_lines (src_word2ind trg_word2ind : gmap string nat)
    (lines : list (list string)) : prog (list nat * list nat) :=
  match lines with
  | [] => ret ([], [])
  | line :: rest =>
      match unpack_pair line with
      | Raise e => lift (Raise e)
      | Ok (src, trg) =>
          match src_word2ind !! src, trg_word2ind !! trg with
          | Some src_ind, Some trg_ind =>
              do* (ss, ts) := seed_of_lines src_word2ind trg_word2ind rest in
              ret (src_ind :: ss, trg_ind :: ts)
          | _, _ =>
              do* _ := emit (Stderr "WARNING: OOV dictionary entry") in
              seed_of_lines src_word2ind trg_word2ind rest
          end
      end
  end.

(** Lines 128-157. *)
Definition build_training_dictionary (args : Args)
    (src_words trg_words : list string)
    (src_word2ind trg_word2ind : gmap string nat) : prog (list nat * list nat) :=
  if numerals args then
    do* _ := match dictionary args with
             | Some _ => emit (Stderr "WARNING: Using numerals instead of the training dictionary")
             | None => ret tt
             end in
    let src_numerals : gset string := list_to_set (filter (fun w => numeral_match w = true) src_words) in
    let trg_numerals : gset string := list_to_set (filter (fun w => numeral_match w = true) trg_words) in
    ret (seed_of_words src_word2ind trg_word2ind (src_numerals ∩ trg_numerals))
  else if identical args then
    do* _ := emit (Stdout "Using identical strings as dictionary...") in
    let intersect : gset string := list_to_set src_words ∩ list_to_set trg_words in
    do* _ := emit (Stdout "Found identical strings.") in
    ret (seed_of_words src_word2ind trg_word2ind intersect)
  else
    do* _ := emit (ReadDictionary (dictionary args)) in
    seed_of_lines src_word2ind trg_word2ind (dictionary_lines env (dictionary args)).

(** Lines 74-77: the check of the command-line arguments.
<<
    if (args.src_dewhiten is not None or args.trg_dewhiten is not None) and not args.whiten:
        print('ERROR: De-whitening requires whitening first', file=sys.stderr)
        sys.exit(-1)
>> *)
Definition check_arguments (args : Args) : prog unit :=
  if (bool_decide (src_dewhiten args <> None) || bool_decide (trg_dewhiten args <> None))
     && negb (whiten args)
  then do* _ := emit (Stderr "ERROR: De-whitening requires whitening first") in
       lift (Raise (SystemExit (-1)))
  else ret tt.

(** Lines 92-116 and 118-121: the embeddings are read, moved to the chosen
    backend and cut to the configured number of words. *)
Definition read_inputs (args : Args)
  : prog (list string * matrix * (list string * matrix)) :=
  do* _ := emit (ReadEmbeddings (src_input args)) in
  do* _ := emit (ReadEmbeddings (trg_input args)) in
  let (src_words, x) := embeddings_read env (src_input args) in
  let (trg_words, z) := embeddings_read env (trg_input args) in
  do* _ := (if cuda args && negb (supports_cupy env)
            then do* _ := emit (Stderr "ERROR: Install CuPy for CUDA support") in
                 lift (Raise (SystemExit (-1)))
            else ret tt) in
  do* (src_words, x, trg_words, z) :=
    match num_words args with
    | Some nw =>
        if (nw =? 0)%Z then ret (src_words, x, trg_words, z)
        else if (nw <=? 0)%Z then lift (Raise AssertionError)
        else
          do* _ := emit (Stderr "Restricting source and target words to top words...") in
          let k := Z.to_nat nw in
          ret (firstn k src_words, slice_rows x 0 k, firstn k trg_words, slice_rows z 0 k)
    | None => ret (src_words, x, trg_words, z)
    end in
  if nrows z <? nrows x then
    do* _ := emit (Stdout "Restricting X to same same shape as Z.") in
    ret (firstn (nrows z) src_words, slice_rows x 0 (nrows z), (trg_words, z))
  else ret (src_words, x, (trg_words, z)).

(** Lines 160-175: the validation dictionary and its coverage. *)
Definition read_validation (args : Args)
    (src_word2ind trg_word2ind : gmap string nat) : prog unit :=
  match validation args with
  | Some path =>
      do* _ := emit (ReadDictionary (Some path)) in
      do* c := lift (coverage_lines src_word2ind trg_word2ind
                       (dictionary_lines env (Some path))) in
      ret tt
  | None => ret tt
  end.

(** Lines 182-194: the normalisation actions, in order, on both sides. *)
Definition normalization (actions : list string) (x z : matrix) : matrix * matrix :=
  fold_left (fun xz action =>
               (normalize_action env action (fst xz),
                normalize_action env action (snd xz)))
            actions (x, z).

(** What lines 33-194 hand to the training loop. *)
Record prepared : Type := {
  p_src_words : list string;
  p_trg_words : list string;
  p_x : matrix;
  p_z : matrix;
  p_src_indices : list nat;
  p_trg_indices : list nat
}.

(** Lines 33-194: everything before the training loop. *)
Definition prepare (args : Args) : prog prepared :=
  do* _ := check_arguments args in
  do* _ := (if verbose args then emit (Stderr "Info: arguments") else ret tt) in
  do* (src_words, x, (trg_words, z)) := read_inputs args in
  let src_word2ind := word2ind src_words in
  let trg_word2ind := word2ind trg_words in
  do* (src_indices, trg_indices) :=
    build_training_dictionary args src_words trg_words src_word2ind trg_word2ind in
  do* _ := read_validation args src_word2ind trg_word2ind in
  let (x, z) := normalization (normalize args) x z in
  ret {| p_src_words := src_words; p_trg_words := trg_words;
         p_x := x; p_z := z;
         p_src_indices := src_indices; p_trg_indices := trg_indices |}.

(** [if args.test_dict:] of line 403: the lines of the test dictionary,
    when the option is given and is not the empty string. *)
Definition test_dictionary (args : Args) : option (list (list string)) :=
  match test_dict args with
  | Some path =>
      if String.eqb path EmptyString then None else Some (dictionary_lines env (Some path))
  | None => None
  end.

(** Lines 196-401 on what [prepare] returned. *)
Definition train (fuel : nat) (args : Args) (p : prepared) : result outcome :=
  training_loop xp fuel args
    (word2ind (p_src_words p)) (word2ind (p_trg_words p))
    (test_dictionary args)
    (p_x p) (p_z p) (initial_state (p_src_indices p) (p_trg_indices p)).

(** Lines 33-456.  The loop is run for at most [fuel] iterations; the
    mapped embeddings are written when it has converged.  No statement of
    [main] handles an exception.  The trace holds the events before and
    after the loop, not those of the loop body. *)
Definition main (fuel : nat) (args : Args) : prog outcome :=
  do* p := prepare args in
  do* out := lift (train fuel args p) in
  match out with
  | Converged _ =>
      do* _ := emit (WriteEmbeddings (src_output args)) in
      do* _ := emit (WriteEmbeddings (trg_output args)) in
      ret out
  | OutOfFuel _ => ret out
  end.

End Program.

(* ===================================================================== *)
(** ** What the solvers assume of the backend, and the words of the spec *)
(* ===================================================================== *)

Section Contracts.
Context {K : Scalar}.
Variable xp : Backend.

(** The rows of [m] chosen by a list of valid indices. *)
Definition gather (m : matrix) (indices : list nat) : matrix :=
  Mat (ncols m) (map (fun i => nth i (mrows m) []) indices).

(** The indices of a training dictionary are rows of [x] and of [z], one
    target index for each source index. *)
Definition valid_dictionary (x z : matrix) (src_indices trg_indices : list nat)
  : Prop :=
  length src_indices = length trg_indices
  /\ Forall (fun i => (i < nrows x)%nat) src_indices
  /\ Forall (fun i => (i < nrows z)%nat) trg_indices.

(** A square array of size [d] whose transpose is its inverse. *)
Definition orthogonal_matrix (d : nat) (q : matrix) : Prop :=
  wf q /\ nrows q = d /\ ncols q = d
  /\ mmul (transpose q) q = identity d
  /\ mmul q (transpose q) = identity d.

(** The array of shape [(n, d)] with [s] on its diagonal. *)
Definition diag_rect (n d : nat) (s : list F) : matrix :=
  tabulate n d (fun i j => if Nat.eqb i j then nth i s F0 else F0).

(** What [xp.linalg.svd(m)] returns: [m = u . diag(s) . vt] with [u] and
    [vt] orthogonal. *)
Definition svd_contract (m : matrix) : Prop :=
  let '(u, s, vt) := svd xp m in
  orthogonal_matrix (nrows m) u
  /\ orthogonal_matrix (ncols m) vt
  /\ length s = Nat.min (nrows m) (ncols m)
  /\ m = mmul (mmul u (diag_rect (nrows m) (ncols m) s)) vt.

(** What [xp.linalg.svd(m, full_matrices=False)] returns, with
    [r = min(n, d)]: [u] of shape [(n, r)] with orthonormal columns, [vt] of
    shape [(r, d)] with orthonormal rows, and [m = u . diag(s) . vt].  A
    factor that is square is orthogonal. *)
Definition svd_thin_contract (m : matrix) : Prop :=
  let '(u, s, vt) := svd_thin xp m in
  let r := Nat.min (nrows m) (ncols m) in
  wf u /\ nrows u = nrows m /\ ncols u = r
  /\ length s = r
  /\ wf vt /\ nrows vt = r /\ ncols vt = ncols m
  /\ mmul (transpose u) u = identity r
  /\ mmul vt (transpose vt) = identity r
  /\ (r = ncols m -> mmul (transpose vt) vt = identity (ncols m))
  /\ (r = nrows m -> mmul u (transpose u) = identity (nrows m))
  /\ m = mmul (mmul u (diag s)) vt.

(** [m] has full rank: none of its [min(n, d)] singular values is zero. *)
Definition full_rank (m : matrix) : Prop :=
  let '(u, s, vt) := svd_thin xp m in Forall (fun si => si <> F0) s.

(** [p] is the inverse of [m]. *)
Definition inverse_of (m p : matrix) : Prop :=
  wf p /\ nrows p = nrows m /\ ncols p = ncols m
  /\ mmul m p = identity (nrows m) /\ mmul p m = identity (nrows m).

(** [w] whitens the rows [r]: [w.T . r.T . r . w] is the identity. *)
Definition whitens (w r : matrix) : Prop :=
  mmul (mmul (mmul (transpose w) (transpose r)) r) w = identity (ncols r).

(** The orthogonal policy in the words of the spec: "singular-value
    decompose [Zdict . Xdict^t], reassemble [W = V^t U^t]; [Zw = Z]
    unchanged, [Xw = X . W]", where the decomposition is [U S V^t]. *)
Definition spec_orthogonal_mapping (x z : matrix) (src_indices trg_indices : list nat)
  : result (matrix * matrix) :=
  let* zdict := take_rows z trg_indices in
  let* xdict := take_rows x src_indices in
  let* m := dot zdict (transpose xdict) in
  let '(u, s, vt) := svd xp m in
  let v := transpose vt in
  let* w := dot (transpose v) (transpose u) in
  let* xw := dot x w in
  Ok (xw, z).

End Contracts.

Section NearestNeighbourSpec.
Context {K : Scalar}.

(** The nearest neighbours in the words of the spec: "a single unblocked
    computation" on the full similarity matrix [xw . zw^t], the row-wise
    arg-max indices and values and the column-wise ones. *)
Definition full_nearest_neighbours (xw zw : matrix)
  : result (list nat * list F * (list nat * list F)) :=
  let* sim := dot xw (transpose zw) in
  let* ind1 := argmax_axis1 sim in
  let val1 := map (fun t => entry sim t (nth t ind1 0)) (seq 0 (nrows sim)) in
  let* ind0 := argmax_axis0 sim in
  let val0 := map (fun t => entry sim (nth t ind0 0) t) (seq 0 (ncols sim)) in
  Ok (ind1, val1, (ind0, val0)).

(** The scan of a list from the initial content of the arrays: index [0]
    and value [-100]. *)
Definition scan (l : list F) : nat * F := argmax_from 0 sentinel 0 l.

(** The arg-max of a list with its value. *)
Definition argmax_pair (l : list F) : nat * F :=
  match l with
  | [] => (0, sentinel)
  | v :: l' => argmax_from 0 v 1 l'
  end.

(** Row [t] and column [c] of an array, as lists. *)
Definition row_of (s : matrix) (t : nat) : list F := nth t (mrows s) [].
Definition col_of (s : matrix) (c : nat) : list F := nth c (mrows (transpose s)) [].

(** The arrays of the search when the rows before [i] are finished and the
    rows of the block [i:j] have seen the columns before [l]: row [t] holds
    the scan of its first [l] (or all, or no) similarities, column [c] the
    scan of its first [j] (or [i]) similarities. *)
Definition forward_cell (d : direction_choice) (s : matrix) (i j l t : nat)
  : nat * F :=
  if in_forward d then
    if t <? i then scan (row_of s t)
    else if t <? j then scan (firstn l (row_of s t))
    else scan []
  else scan [].

Definition backward_cell (d : direction_choice) (s : matrix) (i j l c : nat)
  : nat * F :=
  if in_backward d then
    if c <? l then scan (firstn j (col_of s c))
    else scan (firstn i (col_of s c))
  else scan [].

Definition nn_stage (d : direction_choice) (s : matrix) (i j l : nat) : nn_state :=
  {| best_sim_forward := map (fun t => snd (forward_cell d s i j l t)) (seq 0 (nrows s));
     trg_indices_forward := map (fun t => fst (forward_cell d s i j l t)) (seq 0 (nrows s));
     best_sim_backward := map (fun c => snd (backward_cell d s i j l c)) (seq 0 (ncols s));
     src_indices_backward := map (fun c => fst (backward_cell d s i j l c)) (seq 0 (ncols s)) |}.

End NearestNeighbourSpec.

(** The words the spec counts for the coverage of a reference dictionary.
    A source word is known when it is in the source vocabulary and has a
    line whose translation is in the target vocabulary; the other source
    words of the dictionary are out of vocabulary. *)
Definition known_words (src_words trg_words : list string)
    (lines : list (string * string)) : gset string :=
  list_to_set (map fst (filter (fun l => fst l ∈ src_words /\ snd l ∈ trg_words) lines)).

Definition source_words (lines : list (string * string)) : gset string :=
  list_to_set (map fst lines).

Definition oov_words (src_words trg_words : list string)
    (lines : list (string * string)) : gset string :=
  source_words lines ∖ known_words src_words trg_words lines.

(* ===================================================================== *)
(** ** Namespaces *)
(* ===================================================================== *)

(** The namespace [args] with another [--direction]. *)
Definition set_direction {K : Scalar} (args : Args) (v : direction_choice) : Args :=
  {| src_input := src_input args;
     trg_input := trg_input args;
     src_output := src_output args;
     trg_output := trg_output args;
     encoding := encoding args;
     precision := precision args;
     cuda := cuda args;
     num_words := num_words args;
     dictionary := dictionary args;
     test_dict := test_dict args;
     normalize := normalize args;
     orthogonal := orthogonal args;
     unconstrained := unconstrained args;
     self_learning := self_learning args;
     direction := v;
     numerals := numerals args;
     identical := identical args;
     threshold := threshold args;
     validation := validation args;
     log := log args;
     verbose := verbose args;
     lapmod := lapmod args;
     lapmod_chunk_size := lapmod_chunk_size args;
     lap_repeats := lap_repeats args;
     lap_prop := lap_prop args;
     lap_rank := lap_rank args;
     whiten := whiten args;
     src_reweight := src_reweight args;
     trg_reweight := trg_reweight args;
     src_dewhiten := src_dewhiten args;
     trg_dewhiten := trg_dewhiten args;
     dim_reduction := dim_reduction args |}.

(** The namespace [args] with or without [--self_learning]. *)
Definition set_self_learning {K : Scalar} (args : Args) (v : bool) : Args :=
  {| src_input := src_input args;
     trg_input := trg_input args;
     src_output := src_output args;
     trg_output := trg_output args;
     encoding := encoding args;
     precision := precision args;
     cuda := cuda args;
     num_words := num_words args;
     dictionary := dictionary args;
     test_dict := test_dict args;
     normalize := normalize args;
     orthogonal := orthogonal args;
     unconstrained := unconstrained args;
     self_learning := v;
     direction := direction args;
     numerals := numerals args;
     identical := identical args;
     threshold := threshold args;
     validation := validation args;
     log := log args;
     verbose := verbose args;
     lapmod := lapmod args;
     lapmod_chunk_size := lapmod_chunk_size args;
     lap_repeats := lap_repeats args;
     lap_prop := lap_prop args;
     lap_rank := lap_rank args;
     whiten := whiten args;
     src_reweight := src_reweight args;
     trg_reweight := trg_reweight args;
     src_dewhiten := src_dewhiten args;
     trg_dewhiten := trg_dewhiten args;
     dim_reduction := dim_reduction args |}.

(** The namespace [args] with or without [--lapmod]. *)
Definition set_lapmod {K : Scalar} (args : Args) (v : bool) : Args :=
  {| src_input := src_input args;
     trg_input := trg_input args;
     src_output := src_output args;
     trg_output := trg_output args;
     encoding := encoding args;
     precision := precision args;
     cuda := cuda args;
     num_words := num_words args;
     dictionary := dictionary args;
     test_dict := test_dict args;
     normalize := normalize args;
     orthogonal := orthogonal args;
     unconstrained := unconstrained args;
     self_learning := self_learning args;
     direction := direction args;
     numerals := numerals args;
     identical := identical args;
     threshold := threshold args;
     validation := validation args;
     log := log args;
     verbose := verbose args;
     lapmod := v;
     lapmod_chunk_size := lapmod_chunk_size args;
     lap_repeats := lap_repeats args;
     lap_prop := lap_prop args;
     lap_rank := lap_rank args;
     whiten := whiten args;
     src_reweight := src_reweight args;
     trg_reweight := trg_reweight args;
     src_dewhiten := src_dewhiten args;
     trg_dewhiten := trg_dewhiten args;
     dim_reduction := dim_reduction args |}.

(** The namespace [args] with another [--lap-rank]. *)
Definition set_lap_rank {K : Scalar} (args : Args) (v : option Z) : Args :=
  {| src_input := src_input args;
     trg_input := trg_input args;
     src_output := src_output args;
     trg_output := trg_output args;
     encoding := encoding args;
     precision := precision args;
     cuda := cuda args;
     num_words := num_words args;
     dictionary := dictionary args;
     test_dict := test_dict args;
     normalize := normalize args;
     orthogonal := orthogonal args;
     unconstrained := unconstrained args;
     self_learning := self_learning args;
     direction := direction args;
     numerals := numerals args;
     identical := identical args;
     threshold := threshold args;
     validation := validation args;
     log := log args;
     verbose := verbose args;
     lapmod := lapmod args;
     lapmod_chunk_size := lapmod_chunk_size args;
     lap_repeats := lap_repeats args;
     lap_prop := lap_prop args;
     lap_rank := v;
     whiten := whiten args;
     src_reweight := src_reweight args;
     trg_reweight := trg_reweight args;
     src_dewhiten := src_dewhiten args;
     trg_dewhiten := trg_dewhiten args;
     dim_reduction := dim_reduction args |}.

(** The namespace [args] with or without [--whiten]. *)
Definition set_whiten {K : Scalar} (args : Args) (v : bool) : Args :=
  {| src_input := src_input args;
     trg_input := trg_input args;
     src_output := src_output args;
     trg_output := trg_output args;
     encoding := encoding args;
     precision := precision args;
     cuda := cuda args;
     num_words := num_words args;
     dictionary := dictionary args;
     test_dict := test_dict args;
     normalize := normalize args;
     orthogonal := orthogonal args;
     unconstrained := unconstrained args;
     self_learning := self_learning args;
     direction := direction args;
     numerals := numerals args;
     identical := identical args;
     threshold := threshold args;
     validation := validation args;
     log := log args;
     verbose := verbose args;
     lapmod := lapmod args;
     lapmod_chunk_size := lapmod_chunk_size args;
     lap_repeats := lap_repeats args;
     lap_prop := lap_prop args;
     lap_rank := lap_rank args;
     whiten := v;
     src_reweight := src_reweight args;
     trg_reweight := trg_reweight args;
     src_dewhiten := src_dewhiten args;
     trg_dewhiten := trg_dewhiten args;
     dim_reduction := dim_reduction args |}.

(** The namespace [args] with another [--src_dewhiten]. *)
Definition set_src_dewhiten {K : Scalar} (args : Args) (v : option dewhiten_choice) : Args :=
  {| src_input := src_input args;
     trg_input := trg_input args;
     src_output := src_output args;
     trg_output := trg_output args;
     encoding := encoding args;
     precision := precision args;
     cuda := cuda args;
     num_words := num_words args;
     dictionary := dictionary args;
     test_dict := test_dict args;
     normalize := normalize args;
     orthogonal := orthogonal args;
     unconstrained := unconstrained args;
     self_learning := self_learning args;
     direction := direction args;
     numerals := numerals args;
     identical := identical args;
     threshold := threshold args;
     validation := validation args;
     log := log args;
     verbose := verbose args;
     lapmod := lapmod args;
     lapmod_chunk_size := lapmod_chunk_size args;
     lap_repeats := lap_repeats args;
     lap_prop := lap_prop args;
     lap_rank := lap_rank args;
     whiten := whiten args;
     src_reweight := src_reweight args;
     trg_reweight := trg_reweight args;
     src_dewhiten := v;
     trg_dewhiten := trg_dewhiten args;
     dim_reduction := dim_reduction args |}.

(** The namespace [args] with or without [--orthogonal]. *)
Definition set_policy {K : Scalar} (args : Args) (v : bool) : Args :=
  {| src_input := src_input args;
     trg_input := trg_input args;
     src_output := src_output args;
     trg_output := trg_output args;
     encoding := encoding args;
     precision := precision args;
     cuda := cuda args;
     num_words := num_words args;
     dictionary := dictionary args;
     test_dict := test_dict args;
     normalize := normalize args;
     orthogonal := v;
     unconstrained := unconstrained args;
     self_learning := self_learning args;
     direction := direction args;
     numerals := numerals args;
     identical := identical args;
     threshold := threshold args;
     validation := validation args;
     log := log args;
     verbose := verbose args;
     lapmod := lapmod args;
     lapmod_chunk_size := lapmod_chunk_size args;
     lap_repeats := lap_repeats args;
     lap_prop := lap_prop args;
     lap_rank := lap_rank args;
     whiten := whiten args;
     src_reweight := src_reweight args;
     trg_reweight := trg_reweight args;
     src_dewhiten := src_dewhiten args;
     trg_dewhiten := trg_dewhiten args;
     dim_reduction := dim_reduction args |}.

(** The namespace [args] with or without [--identical]. *)
Definition set_identical {K : Scalar} (args : Args) (v : bool) : Args :=
  {| src_input := src_input args;
     trg_input := trg_input args;
     src_output := src_output args;
     trg_output := trg_output args;
     encoding := encoding args;
     precision := precision args;
     cuda := cuda args;
     num_words := num_words args;
     dictionary := dictionary args;
     test_dict := test_dict args;
     normalize := normalize args;
     orthogonal := orthogonal args;
     unconstrained := unconstrained args;
     self_learning := self_learning args;
     direction := direction args;
     numerals := numerals args;
     identical := v;
     threshold := threshold args;
     validation := validation args;
     log := log args;
     verbose := verbose args;
     lapmod := lapmod args;
     lapmod_chunk_size := lapmod_chunk_size args;
     lap_repeats := lap_repeats args;
     lap_prop := lap_prop args;
     lap_rank := lap_rank args;
     whiten := whiten args;
     src_reweight := src_reweight args;
     trg_reweight := trg_reweight args;
     src_dewhiten := src_dewhiten args;
     trg_dewhiten := trg_dewhiten args;
     dim_reduction := dim_reduction args |}.



(** The namespace [args] with another [--threshold]. *)
Definition set_threshold {K : Scalar} (args : Args) (v : pyfloat) : Args :=
  {| src_input := src_input args;
     trg_input := trg_input args;
     src_output := src_output args;
     trg_output := trg_output args;
     encoding := encoding args;
     precision := precision args;
     cuda := cuda args;
     num_words := num_words args;
     dictionary := dictionary args;
     test_dict := test_dict args;
     normalize := normalize args;
     orthogonal := orthogonal args;
     unconstrained := unconstrained args;
     self_learning := self_learning args;
     direction := direction args;
     numerals := numerals args;
     identical := identical args;
     threshold := v;
     validation := validation args;
     log := log args;
     verbose := verbose args;
     lapmod := lapmod args;
     lapmod_chunk_size := lapmod_chunk_size args;
     lap_repeats := lap_repeats args;
     lap_prop := lap_prop args;
     lap_rank := lap_rank args;
     whiten := whiten args;
     src_reweight := src_reweight args;
     trg_reweight := trg_reweight args;
     src_dewhiten := src_dewhiten args;
     trg_dewhiten := trg_dewhiten args;
     dim_reduction := dim_reduction args |}.

(** The namespace [args] with another [--log]. *)
Definition set_log {K : Scalar} (args : Args) (v : option string) : Args :=
  {| src_input := src_input args;
     trg_input := trg_input args;
     src_output := src_output args;
     trg_output := trg_output args;
     encoding := encoding args;
     precision := precision args;
     cuda := cuda args;
     num_words := num_words args;
     dictionary := dictionary args;
     test_dict := test_dict args;
     normalize := normalize args;
     orthogonal := orthogonal args;
     unconstrained := unconstrained args;
     self_learning := self_learning args;
     direction := direction args;
     numerals := numerals args;
     identical := identical args;
     threshold := threshold args;
     validation := validation args;
     log := v;
     verbose := verbose args;
     lapmod := lapmod args;
     lapmod_chunk_size := lapmod_chunk_size args;
     lap_repeats := lap_repeats args;
     lap_prop := lap_prop args;
     lap_rank := lap_rank args;
     whiten := whiten args;
     src_reweight := src_reweight args;
     trg_reweight := trg_reweight args;
     src_dewhiten := src_dewhiten args;
     trg_dewhiten := trg_dewhiten args;
     dim_reduction := dim_reduction args |}.

(** The namespace [args] with or without [--unconstrained]. *)
Definition set_unconstrained {K : Scalar} (args : Args) (v : bool) : Args :=
  {| src_input := src_input args;
     trg_input := trg_input args;
     src_output := src_output args;
     trg_output := trg_output args;
     encoding := encoding args;
     precision := precision args;
     cuda := cuda args;
     num_words := num_words args;
     dictionary := dictionary args;
     test_dict := test_dict args;
     normalize := normalize args;
     orthogonal := orthogonal args;
     unconstrained := v;
     self_learning := self_learning args;
     direction := direction args;
     numerals := numerals args;
     identical := identical args;
     threshold := threshold args;
     validation := validation args;
     log := log args;
     verbose := verbose args;
     lapmod := lapmod args;
     lapmod_chunk_size := lapmod_chunk_size args;
     lap_repeats := lap_repeats args;
     lap_prop := lap_prop args;
     lap_rank := lap_rank args;
     whiten := whiten args;
     src_reweight := src_reweight args;
     trg_reweight := trg_reweight args;
     src_dewhiten := src_dewhiten args;
     trg_dewhiten := trg_dewhiten args;
     dim_reduction := dim_reduction args |}.

(** The namespace of a command line that gives the four paths and
    [--orthogonal], every other option at its default (lines 40-71). *)
Definition orthogonal_args {K : Scalar} (thr : F) : Args :=
  {| src_input := "src.emb"; trg_input := "trg.emb";
     src_output := "src.out"; trg_output := "trg.out";
     encoding := "utf-8"; precision := "fp64"; cuda := false;
     num_words := None; dictionary := None; test_dict := None;
     normalize := []; orthogonal := true; unconstrained := false;
     self_learning := false; direction := forward;
     numerals := false; identical := false; threshold := Number thr;
     validation := None; log := None; verbose := false;
     lapmod := false; lapmod_chunk_size := 1000; lap_repeats := 1;
     lap_prop := "1:1"; lap_rank := None; whiten := false;
     src_reweight := F0; trg_reweight := F0;
     src_dewhiten := None; trg_dewhiten := None; dim_reduction := 0 |}.

(* ===================================================================== *)
(** ** Concrete inputs *)
(* ===================================================================== *)

(** Rational arrays and a backend on which the definitions above are run.
    [demo_svd m] is a decomposition of every orthogonal [m]:
    [m = m . diag(1, ..., 1) . I]. *)
Definition q (n : Z) (d : positive) : Qc := Q2Qc (n # d).

Definition demo_svd (m : @matrix Qc_scalar)
  : @matrix Qc_scalar * list Qc * @matrix Qc_scalar :=
  (m, repeat (q 1 1) (nrows m), identity (ncols m)).

(** The inverse of an array of shape [(1, 1)] or [(2, 2)], by the adjugate. *)
Definition demo_inv (m : @matrix Qc_scalar) : result (@matrix Qc_scalar) :=
  match mrows m with
  | [[a]] =>
      if Qc_eq_dec a (q 0 1) then Raise LinAlgError
      else Ok (Mat 1 [[(1 / a)%Qc]])
  | [[a; b]; [c; d]] =>
      let det := (a * d - b * c)%Qc in
      if Qc_eq_dec det (q 0 1) then Raise LinAlgError
      else Ok (Mat 2 [[(d / det)%Qc; (- b / det)%Qc];
                      [(- c / det)%Qc; (a / det)%Qc]])
  | _ => Raise LinAlgError
  end.

Definition demo_pow (a b : Qc) : Qc :=
  if Qc_eq_dec b (q 0 1) then q 1 1 else a.

(** A machine on which arrays of up to [2^32] elements can be allocated. *)
Definition demo_alloc_error (n : Z) : option exn :=
  if (n <=? 4294967296)%Z then None else Some MemoryError.

Definition demo_backend : @Backend Qc_scalar :=
  {| svd := demo_svd;
     svd_thin := demo_svd;
     inv := demo_inv;
     pow := demo_pow;
     alloc_error := demo_alloc_error;
     lapmod_matching := fun _ _ _ _ => Ok ([], [], []) |}.

(** Three source words in the plane and their images by the rotation that
    maps [(1, 0)] to [(3/5, -4/5)]. *)
Definition x_demo : @matrix Qc_scalar :=
  Mat 2 [[q 1 1; q 0 1]; [q 0 1; q 1 1]; [q 1 1; q 1 1]].

Definition z_demo : @matrix Qc_scalar :=
  Mat 2 [[q 3 5; q (-4) 5]; [q 4 5; q 3 5]; [q 7 5; q (-1) 5]].

Definition rotation_demo : @matrix Qc_scalar :=
  Mat 2 [[q 3 5; q (-4) 5]; [q 4 5; q 3 5]].

(** A backend whose thin decomposition returns fixed factors, whatever the
    argument: the contract is asked of it at one matrix only. *)
Definition fixed_svd_backend (u : @matrix Qc_scalar) (s : list Qc)
    (vt : @matrix Qc_scalar) : @Backend Qc_scalar :=
  {| svd := fun _ => (u, s, vt);
     svd_thin := fun _ => (u, s, vt);
     inv := demo_inv;
     pow := demo_pow;
     alloc_error := demo_alloc_error;
     lapmod_matching := fun _ _ _ _ => Ok ([], [], []) |}.

(** Three dictionary rows in the plane, [r_demo = u_demo . diag(2, 1/2) .
    rotation_demo]. *)
Definition u_demo : @matrix Qc_scalar :=
  Mat 2 [[q 3 5; q 0 1]; [q 4 5; q 0 1]; [q 0 1; q 1 1]].

Definition s_demo : list Qc := [q 2 1; q 1 2].

Definition r_demo : @matrix Qc_scalar :=
  Mat 2 [[q 18 25; q (-24) 25]; [q 24 25; q (-32) 25]; [q 2 5; q 3 10]].

(** One dictionary row in the plane: a matrix of shape [(1, 2)] and of
    rank one, [r_wide = (1) . diag(1) . (1 0)]. *)
Definition r_wide : @matrix Qc_scalar := Mat 2 [[q 1 1; q 0 1]].

Definition wide_backend : @Backend Qc_scalar :=
  fixed_svd_backend (Mat 1 [[q 1 1]]) [q 1 1] (Mat 2 [[q 1 1; q 0 1]]).

(** The default convergence threshold, [0.000001], with [--orthogonal]. *)
Definition demo_args : @Args Qc_scalar := orthogonal_args (q 1 1000000).

(** The collaborators of a run on the demonstration words: both files hold
    three words; the dictionary files pair each source word with its
    image. *)
Definition demo_env : @Env Qc_scalar :=
  {| embeddings_read := fun path =>
       if String.eqb path "src.emb" then (["un"; "deux"; "trois"], x_demo)
       else (["one"; "two"; "three"], z_demo);
     supports_cupy := false;
     dictionary_lines := fun _ => [["un"; "one"]; ["deux"; "two"]];
     normalize_action := fun _ m => m |}.

(** Two source rows in three dimensions: their Gram matrix [x^t . x] has
    rank two.  [rounded_inverse] is the matrix that an inversion by LU
    factorisation with partial pivoting returns for that Gram matrix in
    double precision, where rounding leaves the pivots 0.31, -4.8e-3 and
    -1.8e-17, none of them zero. *)
Definition x_deficient : @matrix Qc_scalar :=
  Mat 3 [[q 1 10; q 2 10; q 3 10]; [q 4 10; q 5 10; q 7 10]].

Definition z_deficient : @matrix Qc_scalar :=
  Mat 3 [[q 1 1; q 0 1; q 0 1]; [q 0 1; q 1 1; q 0 1]].

Definition rounded_inverse : @matrix Qc_scalar :=
  Mat 3 [[q 3617008641904591 1; q (-18085043209520544) 1; q 10851025925712056 1];
         [q (-18085043209520620) 1; q 90425216047596880 1; q (-54255129628557456) 1];
         [q 10851025925712124 1; q (-54255129628557504) 1; q 32553077777134172 1]].

(** A backend whose inversion meets no zero pivot and returns. *)
Definition rounding_backend : @Backend Qc_scalar :=
  {| svd := demo_svd;
     svd_thin := demo_svd;
     inv := fun _ => Ok rounded_inverse;
     pow := demo_pow;
     alloc_error := demo_alloc_error;
     lapmod_matching := fun _ _ _ _ => Ok ([], [], []) |}.

(** A vector of the null space of [x_deficient]. *)
Definition null_deficient : @matrix Qc_scalar :=
  Mat 1 [[q 1 1]; [q (-5) 1]; [q 3 1]].

(** The collaborators of a run on these rows, and its arguments:
    [--unconstrained] with the default threshold. *)
Definition deficient_env : @Env Qc_scalar :=
  {| embeddings_read := fun path =>
       if String.eqb path "src.emb" then (["a"; "b"], x_deficient)
       else (["c"; "d"], z_deficient);
     supports_cupy := false;
     dictionary_lines := fun _ => [["a"; "c"]; ["b"; "d"]];
     normalize_action := fun _ m => m |}.

Definition unconstrained_args : @Args Qc_scalar :=
  set_unconstrained (set_policy demo_args false) true.

(** The state after the first iteration of the demonstration run with
    self-learning. *)
Definition demo_state : @loop_state Qc_scalar :=
  match iterations demo_backend 1 (set_self_learning demo_args true)
          (word2ind ["un"; "deux"; "trois"]) (word2ind ["one"; "two"; "three"])
          None x_demo z_demo (initial_state [0; 1] [0; 1]) with
  | Ok st => st
  | Raise _ => initial_state [0; 1] [0; 1]
  end.

(** One source word and two target words whose similarities, -300 and
    -200, lie below the initial best similarity -100. *)
Definition x_far : @matrix Qc_scalar := Mat 1 [[q 10 1]].
Definition z_far : @matrix Qc_scalar := Mat 1 [[q (-30) 1]; [q (-20) 1]].

(** The unblocked nearest neighbours of the demonstration words. *)
Definition full_demo : list nat * list Qc * (list nat * list Qc) :=
  match full_nearest_neighbours x_demo z_demo with
  | Ok r => r
  | Raise _ => ([], [], ([], []))
  end.

(** Decidable equality of rational arrays and of the results of a solver. *)
Definition Qc_eqb (a b : Qc) : bool := Qeq_bool (this a) (this b).

Fixpoint list_eqb {A : Type} (eqb : A -> A -> bool) (l l' : list A) : bool :=
  match l, l' with
  | [], [] => true
  | a :: t, a' :: t' => eqb a a' && list_eqb eqb t t'
  | _, _ => false
  end.

Definition matrix_eqb (a b : @matrix Qc_scalar) : bool :=
  Nat.eqb (ncols a) (ncols b) && list_eqb (list_eqb Qc_eqb) (mrows a) (mrows b).

Definition mapping_eqb (r r' : result (@matrix Qc_scalar * @matrix Qc_scalar)) : bool :=
  match r, r' with
  | Ok (a, b), Ok (a', b') => matrix_eqb a a' && matrix_eqb b b'
  | _, _ => false
  end.

(* ===================================================================== *)
(** * Properties *)
(* ===================================================================== *)

(** Equality of concrete rational arrays: rationals in canonical form are
    equal when they are equal as fractions. *)
Lemma Qc_eqb_eq (a b : Qc) : Qc_eqb a b = true <-> a = b.
Proof.
  unfold Qc_eqb. rewrite Qeq_bool_iff. split.
  - apply Qc_is_canon.
  - intros ->. reflexivity.
Qed.

Lemma list_eqb_eq {A : Type} (eqb : A -> A -> bool) (l l' : list A) :
  (forall a b, eqb a b = true <-> a = b) ->
  list_eqb eqb l l' = true <-> l = l'.
Proof.
  intros H. revert l'. induction l as [|a t IH]; intros [|a' t']; simpl;
    try (split; [discriminate | discriminate]); try tauto.
  rewrite andb_true_iff, H, IH. split.
  - intros [-> ->]. reflexivity.
  - intros E. injection E as -> ->. split; reflexivity.
Qed.

Lemma matrix_eqb_eq (a b : @matrix Qc_scalar) : matrix_eqb a b = true <-> a = b.
Proof.
  unfold matrix_eqb. destruct a as [d rows], b as [d' rows']. simpl.
  rewrite andb_true_iff, Nat.eqb_eq.
  rewrite (list_eqb_eq (list_eqb Qc_eqb) rows rows')
    by (intros; apply list_eqb_eq; apply Qc_eqb_eq).
  split.
  - intros [-> ->]. reflexivity.
  - intros E. injection E as -> ->. split; reflexivity.
Qed.

Lemma mapping_eqb_eq (r r' : result (@matrix Qc_scalar * @matrix Qc_scalar)) :
  mapping_eqb r r' = true -> r = r'.
Proof.
  destruct r as [[a b]|e], r' as [[a' b']|e']; simpl; try discriminate.
  rewrite andb_true_iff, !matrix_eqb_eq. intros [-> ->]. reflexivity.
Qed.

Lemma mapping_eqb_neq (r r' : result (@matrix Qc_scalar * @matrix Qc_scalar)) :
  is_ok r = true -> mapping_eqb r r' = false -> r <> r'.
Proof.
  intros Hok Hneq E. subst r'.
  destruct r as [[a b]|e]; simpl in *; [|discriminate].
  assert (Ha : matrix_eqb a a = true) by (apply matrix_eqb_eq; reflexivity).
  assert (Hb : matrix_eqb b b = true) by (apply matrix_eqb_eq; reflexivity).
  rewrite Ha, Hb in Hneq. discriminate.
Qed.

Ltac qc_eq :=
  first
    [ apply matrix_eqb_eq; vm_compute; reflexivity
    | apply mapping_eqb_eq; vm_compute; reflexivity
    | vm_compute; reflexivity ].

Ltac wf_concrete := unfold wf; simpl; repeat constructor.

(** ** The result monad *)

Lemma bind_ok {A B : Type} (m : result A) (k : A -> result B) (b : B) :
  bind m k = Ok b -> exists a, m = Ok a /\ k a = Ok b.
Proof. destruct m as [a|e]; simpl; intros H; [eauto | discriminate]. Qed.

Lemma mapM_length {A B : Type} (f : A -> result B) (l : list A) (bs : list B) :
  mapM f l = Ok bs -> length bs = length l.
Proof.
  revert bs. induction l as [|a l IH]; simpl; intros bs H.
  - injection H as <-. reflexivity.
  - destruct (f a) as [b|e]; simpl in H; [|discriminate].
    destruct (mapM f l) as [bs'|e]; simpl in H; [|discriminate].
    injection H as <-. simpl. f_equal. apply IH. reflexivity.
Qed.

Lemma nth_map_lt {A B : Type} (g : A -> B) (l : list A) (k : nat) (db : B) (da : A) :
  (k < length l)%nat -> nth k (map g l) db = g (nth k l da).
Proof.
  revert k. induction l as [|a l IH]; intros k Hk; simpl in *; [lia|].
  destruct k as [|k]; [reflexivity|]. apply IH. lia.
Qed.

Lemma mapM_total {A B : Type} (f : A -> result B) (g : A -> B) (l : list A) :
  (forall a, In a l -> f a = Ok (g a)) -> mapM f l = Ok (map g l).
Proof.
  induction l as [|a l IH]; simpl; intros H; [reflexivity|].
  rewrite (H a) by (left; reflexivity). simpl.
  rewrite IH by (intros; apply H; right; assumption). reflexivity.
Qed.

(** ** Sums and arrays *)

Section ArrayFacts.
Context {K : Scalar}.
Add Field scalar_field : F_field.

Local Infix "+" := Fadd.
Local Infix "*" := Fmul.

Lemma sum_n_S (n : nat) (f : nat -> F) :
  sum_n (S n) f = f 0%nat + sum_n n (fun k => f (S k)).
Proof.
  unfold sum_n. rewrite <- cons_seq, <- seq_shift. simpl.
  rewrite map_map. reflexivity.
Qed.

Lemma sum_n_ext (n : nat) (f g : nat -> F) :
  (forall k, (k < n)%nat -> f k = g k) -> sum_n n f = sum_n n g.
Proof.
  revert f g. induction n as [|n IH]; intros f g H; [reflexivity|].
  rewrite !sum_n_S. rewrite (H 0%nat) by lia. f_equal.
  apply IH. intros k Hk. apply H. lia.
Qed.

Lemma sum_n_zero (n : nat) : sum_n n (fun _ => F0) = F0.
Proof.
  induction n as [|n IH]; [reflexivity|]. rewrite sum_n_S, IH. ring.
Qed.

Lemma sum_n_add (n : nat) (f g : nat -> F) :
  sum_n n (fun k => f k + g k) = sum_n n f + sum_n n g.
Proof.
  revert f g. induction n as [|n IH]; intros f g.
  - unfold sum_n. simpl. ring.
  - rewrite !sum_n_S, IH. ring.
Qed.

Lemma sum_n_scale_l (n : nat) (c : F) (f : nat -> F) :
  sum_n n (fun k => c * f k) = c * sum_n n f.
Proof.
  revert f. induction n as [|n IH]; intros f.
  - unfold sum_n. simpl. ring.
  - rewrite !sum_n_S, IH. ring.
Qed.

Lemma sum_n_scale_r (n : nat) (c : F) (f : nat -> F) :
  sum_n n (fun k => f k * c) = sum_n n f * c.
Proof.
  revert f. induction n as [|n IH]; intros f.
  - unfold sum_n. simpl. ring.
  - rewrite !sum_n_S, IH. ring.
Qed.

Lemma sum_n_swap (n m : nat) (f : nat -> nat -> F) :
  sum_n n (fun i => sum_n m (fun j => f i j))
  = sum_n m (fun j => sum_n n (fun i => f i j)).
Proof.
  revert f. induction n as [|n IH]; intros f.
  - unfold sum_n at 1. simpl. symmetry.
    rewrite (sum_n_ext m _ (fun _ => F0)); [apply sum_n_zero | reflexivity].
  - rewrite sum_n_S, IH, <- sum_n_add.
    apply sum_n_ext. intros j _. rewrite sum_n_S. reflexivity.
Qed.

Lemma sum_n_delta_r (n j : nat) (f : nat -> F) :
  (j < n)%nat ->
  sum_n n (fun k => f k * (if Nat.eqb k j then F1 else F0)) = f j.
Proof.
  revert j f. induction n as [|n IH]; intros j f Hj; [lia|].
  rewrite sum_n_S. destruct j as [|j].
  - simpl. rewrite (sum_n_ext n _ (fun _ => F0)).
    + rewrite sum_n_zero. ring.
    + intros k _. simpl. ring.
  - simpl Nat.eqb at 1. cbv beta.
    rewrite (sum_n_ext n _ (fun k => f (S k) * (if Nat.eqb k j then F1 else F0)))
      by (intros; reflexivity).
    rewrite (IH j (fun k => f (S k))) by lia. ring.
Qed.

Lemma sum_n_delta_l (n j : nat) (f : nat -> F) :
  (j < n)%nat ->
  sum_n n (fun k => (if Nat.eqb j k then F1 else F0) * f k) = f j.
Proof.
  intros Hj. rewrite <- (sum_n_delta_r n j f Hj).
  apply sum_n_ext. intros k _. rewrite Nat.eqb_sym. ring.
Qed.

Lemma nth_map_seq {A : Type} (g : nat -> A) (s n i : nat) (dflt : A) :
  (i < n)%nat -> nth i (map g (seq s n)) dflt = g (s + i)%nat.
Proof.
  revert s i. induction n as [|n IH]; intros s i Hi; [lia|].
  destruct i as [|i]; simpl.
  - f_equal. lia.
  - rewrite IH by lia. f_equal. lia.
Qed.

Lemma nrows_tabulate (n d : nat) (f : nat -> nat -> F) : nrows (tabulate n d f) = n.
Proof. unfold nrows, tabulate. simpl. rewrite length_map, length_seq. reflexivity. Qed.

Lemma ncols_tabulate (n d : nat) (f : nat -> nat -> F) : ncols (tabulate n d f) = d.
Proof. reflexivity. Qed.

Lemma wf_tabulate (n d : nat) (f : nat -> nat -> F) : wf (tabulate n d f).
Proof.
  unfold wf, tabulate. simpl. apply List.Forall_forall. intros r Hr.
  apply in_map_iff in Hr. destruct Hr as [i [<- _]].
  rewrite length_map, length_seq. reflexivity.
Qed.

Lemma entry_tabulate (n d : nat) (f : nat -> nat -> F) (i j : nat) :
  (i < n)%nat -> (j < d)%nat -> entry (tabulate n d f) i j = f i j.
Proof.
  intros Hi Hj. unfold entry, tabulate. simpl.
  rewrite (nth_map_seq (fun i => map (f i) (seq 0 d)) 0 n i []) by assumption.
  rewrite (nth_map_seq (f (0 + i)%nat) 0 d j F0) by assumption. reflexivity.
Qed.

Lemma tabulate_ext (n d : nat) (f g : nat -> nat -> F) :
  (forall i j, (i < n)%nat -> (j < d)%nat -> f i j = g i j) ->
  tabulate n d f = tabulate n d g.
Proof.
  intros H. unfold tabulate. f_equal.
  apply map_ext_in. intros i Hi. apply in_seq in Hi.
  apply map_ext_in. intros j Hj. apply in_seq in Hj.
  apply H; lia.
Qed.

Lemma tabulate_entry (m : matrix) :
  wf m -> tabulate (nrows m) (ncols m) (entry m) = m.
Proof.
  destruct m as [d rows]. unfold wf, tabulate, nrows, entry. simpl. intros Hwf.
  f_equal. apply (nth_ext _ _ [] []).
  - rewrite length_map, length_seq. reflexivity.
  - intros i Hi. rewrite length_map, length_seq in Hi.
    rewrite (nth_map_seq _ 0 (length rows) i []) by assumption. simpl.
    assert (Hlen : length (nth i rows []) = d).
    { rewrite List.Forall_forall in Hwf. apply Hwf. apply nth_In. assumption. }
    apply (nth_ext _ _ F0 F0).
    + rewrite length_map, length_seq. symmetry. assumption.
    + intros j Hj. rewrite length_map, length_seq in Hj.
      rewrite (nth_map_seq _ 0 d j F0) by assumption. reflexivity.
Qed.

(** Two arrays of the same shape with the same elements are equal. *)
Lemma matrix_ext (a b : matrix) :
  wf a -> wf b -> nrows a = nrows b -> ncols a = ncols b ->
  (forall i j, (i < nrows a)%nat -> (j < ncols a)%nat -> entry a i j = entry b i j) ->
  a = b.
Proof.
  intros Ha Hb Hn Hd H.
  rewrite <- (tabulate_entry a Ha), <- (tabulate_entry b Hb), <- Hn, <- Hd.
  apply tabulate_ext. assumption.
Qed.

Lemma nrows_transpose (m : matrix) : nrows (transpose m) = ncols m.
Proof. apply nrows_tabulate. Qed.

Lemma ncols_transpose (m : matrix) : ncols (transpose m) = nrows m.
Proof. reflexivity. Qed.

Lemma wf_transpose (m : matrix) : wf (transpose m).
Proof. apply wf_tabulate. Qed.

Lemma entry_transpose (m : matrix) (i j : nat) :
  (i < ncols m)%nat -> (j < nrows m)%nat -> entry (transpose m) i j = entry m j i.
Proof. intros. unfold transpose. rewrite entry_tabulate by assumption. reflexivity. Qed.

Lemma nrows_mmul (a b : matrix) : nrows (mmul a b) = nrows a.
Proof. apply nrows_tabulate. Qed.

Lemma ncols_mmul (a b : matrix) : ncols (mmul a b) = ncols b.
Proof. reflexivity. Qed.

Lemma wf_mmul (a b : matrix) : wf (mmul a b).
Proof. apply wf_tabulate. Qed.

Lemma entry_mmul (a b : matrix) (i j : nat) :
  (i < nrows a)%nat -> (j < ncols b)%nat ->
  entry (mmul a b) i j = sum_n (ncols a) (fun k => entry a i k * entry b k j).
Proof. intros. unfold mmul. rewrite entry_tabulate by assumption. reflexivity. Qed.

Lemma nrows_identity (d : nat) : nrows (identity d) = d.
Proof. apply nrows_tabulate. Qed.

Lemma ncols_identity (d : nat) : ncols (identity d) = d.
Proof. reflexivity. Qed.

Lemma wf_identity (d : nat) : wf (identity d).
Proof. apply wf_tabulate. Qed.

Lemma nrows_diag (v : list F) : nrows (diag v) = length v.
Proof. apply nrows_tabulate. Qed.

Lemma ncols_diag (v : list F) : ncols (diag v) = length v.
Proof. reflexivity. Qed.

Lemma wf_diag (v : list F) : wf (diag v).
Proof. apply wf_tabulate. Qed.

End ArrayFacts.

Create HintDb shape.
Create Rewrite HintDb shape.
#[export] Hint Rewrite @nrows_tabulate @ncols_tabulate @nrows_transpose
  @ncols_transpose @nrows_mmul @ncols_mmul @nrows_identity @ncols_identity
  @nrows_diag @ncols_diag : shape.
#[export] Hint Resolve wf_tabulate wf_transpose wf_mmul wf_identity wf_diag : shape.

Section ArrayAlgebra.
Context {K : Scalar}.
Add Field scalar_field' : F_field.

Local Infix "+" := Fadd.
Local Infix "*" := Fmul.

Lemma transpose_involutive (m : matrix) : wf m -> transpose (transpose m) = m.
Proof.
  intros Hwf. apply matrix_ext; autorewrite with shape; auto using wf_transpose.
  intros i j Hi Hj. rewrite !entry_transpose; autorewrite with shape; auto.
Qed.

Lemma transpose_mmul (a b : matrix) :
  ncols a = nrows b ->
  transpose (mmul a b) = mmul (transpose b) (transpose a).
Proof.
  intros Hab. apply matrix_ext; autorewrite with shape; auto using wf_transpose, wf_mmul.
  intros i j Hi Hj.
  rewrite entry_transpose by (autorewrite with shape; assumption).
  rewrite !entry_mmul by (autorewrite with shape; assumption).
  autorewrite with shape. rewrite Hab.
  apply sum_n_ext. intros k Hk.
  rewrite !entry_transpose by (autorewrite with shape; lia). ring.
Qed.

Lemma mmul_assoc (a b c : matrix) :
  ncols a = nrows b -> ncols b = nrows c ->
  mmul (mmul a b) c = mmul a (mmul b c).
Proof.
  intros Hab Hbc. apply matrix_ext; autorewrite with shape; auto using wf_mmul.
  intros i j Hi Hj.
  rewrite !entry_mmul by (autorewrite with shape; assumption).
  autorewrite with shape.
  rewrite (sum_n_ext (ncols b) _
             (fun k => sum_n (ncols a) (fun l => entry a i l * (entry b l k * entry c k j)))).
  2:{ intros k Hk. rewrite entry_mmul by assumption.
      rewrite <- sum_n_scale_r. apply sum_n_ext. intros l _. ring. }
  rewrite sum_n_swap. apply sum_n_ext. intros l Hl.
  rewrite entry_mmul by lia. rewrite sum_n_scale_l. reflexivity.
Qed.

Lemma mmul_identity_r (a : matrix) (d : nat) :
  wf a -> ncols a = d -> mmul a (identity d) = a.
Proof.
  intros Hwf Hd. apply matrix_ext; autorewrite with shape; auto using wf_mmul.
  intros i j Hi Hj. rewrite entry_mmul by (autorewrite with shape; lia).
  rewrite (sum_n_ext _ _ (fun k => entry a i k * (if Nat.eqb k j then F1 else F0))).
  - apply sum_n_delta_r. lia.
  - intros k Hk. unfold identity. rewrite entry_tabulate by lia. reflexivity.
Qed.

Lemma mmul_identity_l (a : matrix) (n : nat) :
  wf a -> nrows a = n -> mmul (identity n) a = a.
Proof.
  intros Hwf Hn. apply matrix_ext; autorewrite with shape; auto using wf_mmul.
  intros i j Hi Hj. rewrite entry_mmul by (autorewrite with shape; lia).
  autorewrite with shape.
  rewrite (sum_n_ext _ _ (fun k => (if Nat.eqb i k then F1 else F0) * entry a k j)).
  - apply (sum_n_delta_l n i (fun k => entry a k j)). assumption.
  - intros k Hk. unfold identity. rewrite entry_tabulate by lia. reflexivity.
Qed.

Lemma transpose_identity (d : nat) : transpose (identity d) = identity d.
Proof.
  apply matrix_ext; autorewrite with shape; auto using wf_transpose, wf_identity.
  intros i j Hi Hj. rewrite entry_transpose by (autorewrite with shape; assumption).
  unfold identity. rewrite !entry_tabulate by assumption.
  rewrite Nat.eqb_sym. reflexivity.
Qed.

(** The product of two diagonal arrays whose diagonals are element-wise
    inverse to each other. *)
Lemma mmul_diag_inverse (v w : list F) :
  length v = length w ->
  (forall i, (i < length v)%nat -> nth i v F0 * nth i w F0 = F1) ->
  mmul (diag v) (diag w) = identity (length v).
Proof.
  intros Hlen H. apply matrix_ext; autorewrite with shape; auto using wf_mmul, wf_identity.
  intros i j Hi Hj. rewrite entry_mmul by (autorewrite with shape; lia).
  autorewrite with shape.
  rewrite (sum_n_ext _ _
             (fun k => ((if Nat.eqb i k then nth i v F0 else F0) * nth k w F0)
                       * (if Nat.eqb k j then F1 else F0))).
  2:{ intros k Hk. unfold diag. rewrite !entry_tabulate by lia.
      destruct (Nat.eqb k j); ring. }
  rewrite (sum_n_delta_r (length v) j
             (fun k => (if Nat.eqb i k then nth i v F0 else F0) * nth k w F0)) by lia.
  unfold identity. rewrite entry_tabulate by lia.
  destruct (Nat.eqb i j) eqn:E.
  - apply Nat.eqb_eq in E. subst j. apply H. assumption.
  - ring.
Qed.

End ArrayAlgebra.

(** ** The mapping solvers *)

Section SolverFacts.
Context {K : Scalar}.
Variable xp : Backend.

Lemma dot_ok (a b : matrix) : ncols a = nrows b -> dot a b = Ok (mmul a b).
Proof. intros H. unfold dot. rewrite H, Nat.eqb_refl. reflexivity. Qed.

Lemma take_rows_ok (m : matrix) (indices : list nat) :
  Forall (fun i => (i < nrows m)%nat) indices ->
  take_rows m indices = Ok (gather m indices).
Proof.
  intros H. unfold take_rows, gather.
  rewrite (mapM_total _ (fun i => nth i (mrows m) [])); [reflexivity|].
  intros i Hi. rewrite List.Forall_forall in H. specialize (H i Hi).
  destruct (nth_error (mrows m) i) as [r|] eqn:E.
  - rewrite (nth_error_nth _ _ _ E). reflexivity.
  - apply nth_error_None in E. unfold nrows in H. lia.
Qed.

Lemma nrows_gather (m : matrix) (indices : list nat) :
  nrows (gather m indices) = length indices.
Proof. unfold nrows, gather. simpl. apply length_map. Qed.

Lemma ncols_gather (m : matrix) (indices : list nat) :
  ncols (gather m indices) = ncols m.
Proof. reflexivity. Qed.

Lemma wf_gather (m : matrix) (indices : list nat) :
  wf m -> Forall (fun i => (i < nrows m)%nat) indices -> wf (gather m indices).
Proof.
  unfold wf, gather. simpl. rewrite !List.Forall_forall. intros Hwf Hidx r Hr.
  apply in_map_iff in Hr. destruct Hr as [i [<- Hi]].
  apply Hwf. apply nth_In. apply (Hidx i Hi).
Qed.

Lemma entry_gather (m : matrix) (indices : list nat) (k j : nat) :
  (k < length indices)%nat ->
  entry (gather m indices) k j = entry m (nth k indices 0%nat) j.
Proof.
  intros Hk. unfold entry, gather. simpl.
  rewrite (nth_map_lt (fun i => nth i (mrows m) []) indices k [] 0%nat Hk).
  reflexivity.
Qed.

(** The matrix that the orthogonal policy decomposes. *)
Lemma procrustes_matrix_ok (x z : matrix) (src_indices trg_indices : list nat) :
  valid_dictionary x z src_indices trg_indices ->
  procrustes_matrix x z src_indices trg_indices
  = Ok (mmul (transpose (gather z trg_indices)) (gather x src_indices)).
Proof.
  intros (Hlen & Hsrc & Htrg). unfold procrustes_matrix.
  rewrite (take_rows_ok z _ Htrg), (take_rows_ok x _ Hsrc). simpl.
  apply dot_ok. autorewrite with shape. rewrite !nrows_gather. auto.
Qed.

(** The product of two orthogonal factors, as line 204 forms it, is
    orthogonal. *)
Lemma orthogonal_product (d : nat) (u vt : matrix) :
  orthogonal_matrix d u -> orthogonal_matrix d vt ->
  orthogonal_matrix d (mmul (transpose vt) (transpose u)).
Proof.
  intros (Hwu & Hnu & Hcu & Hu1 & Hu2) (Hwv & Hnv & Hcv & Hv1 & Hv2).
  unfold orthogonal_matrix. autorewrite with shape.
  split; [auto with shape|]. split; [assumption|]. split; [assumption|].
  rewrite transpose_mmul by (autorewrite with shape; congruence).
  rewrite !transpose_involutive by assumption.
  split.
  - rewrite mmul_assoc by (autorewrite with shape; congruence).
    rewrite <- (mmul_assoc vt) by (autorewrite with shape; congruence).
    rewrite Hv2, mmul_identity_l by (autorewrite with shape; auto with shape).
    assumption.
  - rewrite mmul_assoc by (autorewrite with shape; congruence).
    rewrite <- (mmul_assoc (transpose u)) by (autorewrite with shape; congruence).
    rewrite Hu1, mmul_identity_l by (autorewrite with shape; auto with shape).
    assumption.
Qed.

End SolverFacts.

Section OrthogonalPolicy.
Context {K : Scalar}.
Variable xp : Backend.

(** C3.  Under the orthogonal policy the mapping matrix [w] of line 204 is
    returned for every valid training dictionary, and it is orthogonal:
    [w.T . w] is the identity (and so is [w . w.T]).  The factors [u] and
    [vt] of the decomposition are orthogonal whatever the rank of the
    decomposed matrix, so that no rank has to be assumed. *)
Theorem orthogonal_policy_w_is_orthogonal
    (x z : matrix) (src_indices trg_indices : list nat) :
  wf x -> wf z -> ncols x = ncols z ->
  valid_dictionary x z src_indices trg_indices ->
  svd_contract xp (mmul (transpose (gather z trg_indices)) (gather x src_indices)) ->
  exists w,
    orthogonal_w xp x z src_indices trg_indices = Ok w
    /\ mmul (transpose w) w = identity (ncols x)
    /\ mmul w (transpose w) = identity (ncols x).
Proof.
  intros Hx Hz Hd Hdict Hsvd.
  unfold orthogonal_w. rewrite (procrustes_matrix_ok x z _ _ Hdict). simpl.
  unfold svd_contract in Hsvd.
  destruct (svd xp _) as [[u s] vt].
  destruct Hsvd as (Hu & Hvt & _ & _).
  autorewrite with shape in Hu, Hvt. rewrite !ncols_gather in *.
  rewrite <- Hd in Hu.
  pose proof (orthogonal_product (ncols x) u vt Hu Hvt) as (_ & _ & _ & H1 & H2).
  exists (mmul (transpose vt) (transpose u)).
  split; [|split; assumption].
  apply dot_ok. autorewrite with shape.
  destruct Hu as (_ & _ & Hcu & _). destruct Hvt as (_ & Hnv & _). congruence.
Qed.

End OrthogonalPolicy.

Lemma svd_contract_demo :
  svd_contract demo_backend
    (mmul (transpose (gather z_demo [0; 1])) (gather x_demo [0; 1])).
Proof.
  unfold svd_contract, orthogonal_matrix. simpl svd. unfold demo_svd.
  repeat split; try wf_concrete; try qc_eq.
Qed.

Lemma orthogonal_policy_w_is_orthogonal_witness :
  exists w,
    orthogonal_w demo_backend x_demo z_demo [0; 1] [0; 1] = Ok w
    /\ mmul (transpose w) w = identity 2
    /\ mmul w (transpose w) = identity 2.
Proof.
  apply (orthogonal_policy_w_is_orthogonal demo_backend x_demo z_demo [0; 1] [0; 1]).
  - wf_concrete.
  - wf_concrete.
  - reflexivity.
  - unfold valid_dictionary. simpl. repeat constructor.
  - exact svd_contract_demo.
Defined.

Section OrthogonalSolution.
Context {K : Scalar}.
Variable xp : Backend.

(** C2 (amended).  Under the orthogonal policy, for every valid training
    dictionary, the solver decomposes [Zdict^t . Xdict] (the transpose is
    on the target rows), [u . diag(s) . vt], forms [W = vt^t . u^t] from
    the returned factors, and returns [Xw = X . W] and [Zw = Z]
    unchanged. *)
Theorem orthogonal_policy_solution
    (x z : matrix) (src_indices trg_indices : list nat) :
  wf x -> wf z -> ncols x = ncols z ->
  valid_dictionary x z src_indices trg_indices ->
  svd_contract xp (mmul (transpose (gather z trg_indices)) (gather x src_indices)) ->
  exists u s vt,
    svd xp (mmul (transpose (gather z trg_indices)) (gather x src_indices)) = (u, s, vt)
    /\ mmul (transpose (gather z trg_indices)) (gather x src_indices)
       = mmul (mmul u (diag_rect (ncols z) (ncols x) s)) vt
    /\ orthogonal_mapping xp x z src_indices trg_indices
       = Ok (mmul x (mmul (transpose vt) (transpose u)), z).
Proof.
  intros Hx Hz Hd Hdict Hsvd.
  unfold orthogonal_mapping, orthogonal_w.
  rewrite (procrustes_matrix_ok x z _ _ Hdict). cbn [bind].
  unfold svd_contract in Hsvd.
  destruct (svd xp _) as [[u s] vt].
  destruct Hsvd as (Hu & Hvt & _ & Hm).
  autorewrite with shape in Hu, Hvt, Hm. rewrite !ncols_gather in *.
  exists u, s, vt. split; [reflexivity|]. split; [exact Hm|].
  destruct Hu as (_ & _ & Hcu & _). destruct Hvt as (_ & Hnv & Hcv & _).
  rewrite (dot_ok (transpose vt) (transpose u))
    by (autorewrite with shape; congruence).
  cbn [bind]. rewrite dot_ok by (autorewrite with shape; congruence).
  reflexivity.
Qed.

End OrthogonalSolution.

Lemma orthogonal_policy_solution_witness :
  exists u s vt,
    svd demo_backend (mmul (transpose (gather z_demo [0; 1])) (gather x_demo [0; 1]))
    = (u, s, vt)
    /\ mmul (transpose (gather z_demo [0; 1])) (gather x_demo [0; 1])
       = mmul (mmul u (diag_rect 2 2 s)) vt
    /\ orthogonal_mapping demo_backend x_demo z_demo [0; 1] [0; 1]
       = Ok (mmul x_demo (mmul (transpose vt) (transpose u)), z_demo).
Proof.
  apply (orthogonal_policy_solution demo_backend x_demo z_demo [0; 1] [0; 1]).
  - wf_concrete.
  - wf_concrete.
  - reflexivity.
  - unfold valid_dictionary. simpl. repeat constructor.
  - exact svd_contract_demo.
Defined.

(** The orthogonal policy maps the source words of [x_demo] onto their
    images. *)
Example orthogonal_mapping_demo :
  orthogonal_mapping demo_backend x_demo z_demo [0; 1] [0; 1]
  = Ok (z_demo, z_demo).
Proof. qc_eq. Qed.

(** C2, as stated, fails: decomposing [Zdict . Xdict^t] and taking
    [W = V^t . U^t] gives another result than the code.  On [x_demo] and
    [z_demo] the backend decomposes both matrices correctly; the code
    returns the rotation that maps [x_demo] onto [z_demo] and the formula
    of the claim its inverse. *)
Lemma spec_orthogonal_mapping_differs :
  svd_contract demo_backend
    (mmul (gather z_demo [0; 1]) (transpose (gather x_demo [0; 1])))
  /\ svd_contract demo_backend
       (mmul (transpose (gather z_demo [0; 1])) (gather x_demo [0; 1]))
  /\ spec_orthogonal_mapping demo_backend x_demo z_demo [0; 1] [0; 1]
     <> orthogonal_mapping demo_backend x_demo z_demo [0; 1] [0; 1].
Proof.
  split; [|split].
  - unfold svd_contract, orthogonal_matrix. simpl svd. unfold demo_svd.
    repeat split; try wf_concrete; try qc_eq.
  - exact svd_contract_demo.
  - apply mapping_eqb_neq; vm_compute; reflexivity.
Qed.

(** ** Whitening *)

Ltac shape :=
  autorewrite with shape; rewrite ?length_map; first [congruence | lia].

Section Whitening.
Context {K : Scalar}.
Variable xp : Backend.
Add Field scalar_field_w : F_field.

Lemma mmul_diag_reciprocal (s : list F) :
  Forall (fun si => si <> F0) s ->
  mmul (diag s) (diag (map (fun si => Fdiv F1 si) s)) = identity (length s).
Proof.
  intros Hs. apply mmul_diag_inverse.
  - rewrite length_map. reflexivity.
  - intros i Hi.
    rewrite (nth_map_lt (fun si => Fdiv F1 si) s i F0 F0 Hi).
    assert (Hne : nth i s F0 <> F0).
    { rewrite List.Forall_forall in Hs. apply Hs. apply nth_In. assumption. }
    field. assumption.
Qed.

(** C5 (amended).  When the dictionary-selected rows [r] have full column
    rank (at least as many rows as columns, no singular value zero), the
    whitening transform [w] built from their decomposition is returned and
    [w.T . r.T . r . w] is the identity. *)
Theorem whitening_transformation_whitens (r : matrix) :
  wf r -> (ncols r <= nrows r)%nat ->
  svd_thin_contract xp r -> full_rank xp r ->
  exists w, whitening_transformation xp r = Ok w /\ whitens w r.
Proof.
  intros Hr Hdim Hsvd Hrank.
  unfold whitening_transformation, svd_thin_contract, full_rank in *.
  destruct (svd_thin xp r) as [[u s] vt].
  replace (Nat.min (nrows r) (ncols r)) with (ncols r) in Hsvd by lia.
  destruct Hsvd as
    (Hwu & Hnu & Hcu & Hs & Hwvt & Hnvt & Hcvt & Huu & Hvv & Hsq & _ & Hfact).
  specialize (Hsq eq_refl).
  set (e := diag (map (fun si => Fdiv F1 si) s)).
  assert (Hne : nrows e = ncols r) by (unfold e; shape).
  assert (Hce : ncols e = ncols r) by (unfold e; shape).
  assert (Hwe : wf e) by (unfold e; auto with shape).
  rewrite (dot_ok (transpose vt) e) by shape. cbn [bind].
  rewrite (dot_ok (mmul (transpose vt) e) vt) by shape.
  set (w := mmul (mmul (transpose vt) e) vt).
  exists w. split; [reflexivity|].
  assert (Hde : mmul (diag s) e = identity (ncols r)).
  { unfold e. rewrite mmul_diag_reciprocal by assumption. rewrite Hs. reflexivity. }
  (* r . w = u . vt *)
  assert (Hrw : mmul r w = mmul u vt).
  { unfold w. rewrite Hfact at 1.
    rewrite (mmul_assoc (mmul u (diag s)) vt) by shape.
    rewrite <- (mmul_assoc vt (mmul (transpose vt) e) vt) by shape.
    rewrite <- (mmul_assoc vt (transpose vt) e) by shape.
    rewrite Hvv.
    rewrite (mmul_identity_l e) by (auto; shape).
    rewrite (mmul_assoc u (diag s) (mmul e vt)) by shape.
    rewrite <- (mmul_assoc (diag s) e vt) by shape.
    rewrite Hde.
    rewrite (mmul_identity_l vt) by (auto; shape).
    reflexivity. }
  unfold whitens.
  rewrite <- (transpose_mmul r w) by (unfold w; shape).
  rewrite (mmul_assoc (transpose (mmul r w)) r w) by (unfold w; shape).
  rewrite Hrw.
  rewrite (transpose_mmul u vt) by shape.
  rewrite (mmul_assoc (transpose vt) (transpose u) (mmul u vt)) by shape.
  rewrite <- (mmul_assoc (transpose u) u vt) by shape.
  rewrite Huu.
  rewrite (mmul_identity_l vt) by (auto; shape).
  exact Hsq.
Qed.

End Whitening.

Lemma svd_thin_contract_demo :
  svd_thin_contract (fixed_svd_backend u_demo s_demo rotation_demo) r_demo.
Proof.
  unfold svd_thin_contract. simpl svd_thin.
  repeat split; try wf_concrete; try qc_eq.
  - intros _. qc_eq.
  - intros E. vm_compute in E. discriminate E.
Qed.

Lemma whitening_transformation_whitens_witness :
  exists w,
    whitening_transformation (fixed_svd_backend u_demo s_demo rotation_demo) r_demo
    = Ok w
    /\ whitens w r_demo.
Proof.
  apply (whitening_transformation_whitens
           (fixed_svd_backend u_demo s_demo rotation_demo) r_demo).
  - wf_concrete.
  - vm_compute. lia.
  - exact svd_thin_contract_demo.
  - unfold full_rank. simpl. repeat constructor; intros E; vm_compute in E; discriminate E.
Defined.

(** C5, as stated, fails for a full-rank matrix with fewer rows than
    columns: for the single dictionary row [(1 0)], of rank one, the
    whitening transform is the projection on the first axis and
    [w.T . r.T . r . w] is that projection, not the identity. *)
Lemma whitening_of_wide_rows_does_not_whiten :
  wf r_wide
  /\ svd_thin_contract wide_backend r_wide
  /\ full_rank wide_backend r_wide
  /\ whitening_transformation wide_backend r_wide
     = Ok (Mat 2 [[q 1 1; q 0 1]; [q 0 1; q 0 1]])
  /\ ~ whitens (Mat 2 [[q 1 1; q 0 1]; [q 0 1; q 0 1]]) r_wide.
Proof.
  split; [wf_concrete|]. split; [|split; [|split]].
  - unfold svd_thin_contract. simpl svd_thin.
    repeat split; try wf_concrete; try qc_eq.
    intros E. vm_compute in E. discriminate E.
  - unfold full_rank. simpl. repeat constructor. intros E. vm_compute in E. discriminate E.
  - vm_compute. apply (f_equal Ok). qc_eq.
  - unfold whitens. intros H. apply matrix_eqb_eq in H. vm_compute in H. discriminate H.
Qed.

(** ** The unconstrained policy *)

Section Unconstrained.
Context {K : Scalar}.
Variable xp : Backend.
Add Field unconstrained_field : F_field.

Lemma inverse_unique (m p p' : matrix) :
  inverse_of m p -> inverse_of m p' -> p = p'.
Proof.
  intros (Hwp & Hnp & Hcp & Hmp & Hpm) (Hwp' & Hnp' & Hcp' & Hmp' & Hpm').
  assert (Hsq : ncols m = nrows m).
  { apply (f_equal ncols) in Hpm. autorewrite with shape in Hpm. assumption. }
  rewrite <- (mmul_identity_r p (nrows m)) by (auto; congruence).
  rewrite <- Hmp'.
  rewrite <- (mmul_assoc p m p') by congruence.
  rewrite Hpm. apply mmul_identity_l; [assumption | congruence].
Qed.

(** The solver goes on with what the inversion returns. *)
Lemma unconstrained_mapping_returns (x z : matrix) (src_indices trg_indices : list nat)
    (p : matrix) :
  valid_dictionary x z src_indices trg_indices ->
  inv xp (mmul (transpose (gather x src_indices)) (gather x src_indices)) = Ok p ->
  nrows p = ncols x -> ncols p = ncols x ->
  unconstrained_mapping xp x z src_indices trg_indices
  = Ok (mmul x (mmul (mmul p (transpose (gather x src_indices)))
                     (gather z trg_indices)), z).
Proof.
  intros (Hlen & Hsrc & Htrg) Hinv Hnp Hcp.
  unfold unconstrained_mapping.
  rewrite (take_rows_ok x _ Hsrc). cbn [bind].
  rewrite dot_ok by (autorewrite with shape; reflexivity). cbn [bind].
  rewrite Hinv. cbn [bind].
  rewrite dot_ok by (autorewrite with shape; rewrite ncols_gather; congruence).
  cbn [bind]. rewrite (take_rows_ok z _ Htrg). cbn [bind].
  rewrite dot_ok by (autorewrite with shape; rewrite !nrows_gather; congruence).
  cbn [bind].
  rewrite dot_ok by (autorewrite with shape; congruence).
  reflexivity.
Qed.

Lemma unconstrained_mapping_ok (x z : matrix) (src_indices trg_indices : list nat)
    (p : matrix) :
  valid_dictionary x z src_indices trg_indices ->
  inv xp (mmul (transpose (gather x src_indices)) (gather x src_indices)) = Ok p ->
  inverse_of (mmul (transpose (gather x src_indices)) (gather x src_indices)) p ->
  unconstrained_mapping xp x z src_indices trg_indices
  = Ok (mmul x (mmul (mmul p (transpose (gather x src_indices)))
                     (gather z trg_indices)), z).
Proof.
  intros Hdict Hinv (Hwp & Hnp & Hcp & _).
  autorewrite with shape in Hnp, Hcp. rewrite ncols_gather in Hnp, Hcp.
  apply unconstrained_mapping_returns; assumption.
Qed.

(** A matrix with a non-zero vector in its null space has no inverse. *)
Lemma null_vector_no_inverse (m v : matrix) (i : nat) :
  wf v -> nrows v = ncols m -> ncols v = 1%nat ->
  mmul m v = tabulate (nrows m) 1 (fun _ _ => F0) ->
  (i < nrows v)%nat -> entry v i 0 <> F0 ->
  ~ exists p, inverse_of m p.
Proof.
  intros Hwv Hnv Hcv Hzero Hi Hne [p (Hwp & Hnp & Hcp & Hmp & Hpm)].
  assert (Hsq : ncols m = nrows m).
  { apply (f_equal ncols) in Hpm. autorewrite with shape in Hpm. assumption. }
  apply Hne.
  rewrite <- (mmul_identity_l v (nrows m)) by (auto; congruence).
  rewrite <- Hpm.
  rewrite (mmul_assoc p m v) by congruence.
  rewrite Hzero.
  rewrite entry_mmul by (autorewrite with shape; lia).
  rewrite (sum_n_ext (ncols p) _ (fun _ => F0)); [apply sum_n_zero|].
  intros k Hk. cbv beta. rewrite entry_tabulate by lia. ring.
Qed.

Lemma unconstrained_mapping_singular (x z : matrix)
    (src_indices trg_indices : list nat) (e : exn) :
  valid_dictionary x z src_indices trg_indices ->
  inv xp (mmul (transpose (gather x src_indices)) (gather x src_indices)) = Raise e ->
  unconstrained_mapping xp x z src_indices trg_indices = Raise e.
Proof.
  intros (Hlen & Hsrc & Htrg) Hinv.
  unfold unconstrained_mapping.
  rewrite (take_rows_ok x _ Hsrc). cbn [bind].
  rewrite dot_ok by (autorewrite with shape; reflexivity). cbn [bind].
  rewrite Hinv. reflexivity.
Qed.

(** An exception of the mapping solver leaves the first iteration, and
    with it the loop. *)
Lemma training_loop_raises (fuel : nat) (args : Args)
    (src_word2ind trg_word2ind : gmap string nat)
    (test_lines : option (list (list string)))
    (x z : matrix) (src trg : list nat) (e : exn) :
  update_mapping xp args x z src trg = Raise e ->
  training_loop xp (S fuel) args src_word2ind trg_word2ind test_lines x z
    (initial_state src trg) = Raise e.
Proof.
  intros H. cbn [training_loop]. unfold loop_condition. cbn [it initial_state].
  cbn [Nat.eqb orb]. unfold iteration. cbn [src_indices trg_indices initial_state].
  rewrite H. reflexivity.
Qed.

(** [main] has no handler: what the loop raises ends the run, after the
    events of the preparation and before any embedding is written. *)
Lemma main_raises (env : Env) (fuel : nat) (args : Args)
    (t : list event) (p : prepared) (e : exn) :
  prepare env args = (t, Ok p) ->
  train xp env fuel args p = Raise e ->
  main xp env fuel args = (t, Raise e).
Proof.
  intros Hp Ht. unfold main. rewrite Hp. cbn [pbind]. rewrite Ht.
  cbn [lift pbind]. rewrite app_nil_r. reflexivity.
Qed.

(** C7 (amended).  Under the unconstrained policy, when the inversion
    returns the inverse of [Xdict^t . Xdict] the solver returns
    [Xw = X . (Xdict^t . Xdict)^-1 . Xdict^t . Zdict] and [Zw = Z].  No
    statement tests the rank: whatever matrix of the shape of its argument
    the inversion returns, the solver goes on with it and returns a
    mapping.  When the inversion raises, the exception is not caught: it
    leaves the solver, the loop and [main], the run ends with it and
    nothing is written. *)
Theorem unconstrained_policy (x z : matrix) (src_indices trg_indices : list nat) :
  wf x -> wf z ->
  valid_dictionary x z src_indices trg_indices ->
  (forall p,
     inv xp (mmul (transpose (gather x src_indices)) (gather x src_indices)) = Ok p ->
     inverse_of (mmul (transpose (gather x src_indices)) (gather x src_indices)) p ->
     unconstrained_mapping xp x z src_indices trg_indices
     = Ok (mmul x (mmul (mmul p (transpose (gather x src_indices)))
                        (gather z trg_indices)), z)
     /\ mmul x (mmul (mmul p (transpose (gather x src_indices))) (gather z trg_indices))
        = mmul (mmul (mmul x p) (transpose (gather x src_indices)))
               (gather z trg_indices))
  /\ (forall p,
        inv xp (mmul (transpose (gather x src_indices)) (gather x src_indices)) = Ok p ->
        nrows p = ncols x -> ncols p = ncols x ->
        unconstrained_mapping xp x z src_indices trg_indices
        = Ok (mmul x (mmul (mmul p (transpose (gather x src_indices)))
                           (gather z trg_indices)), z))
  /\ (forall e,
        inv xp (mmul (transpose (gather x src_indices)) (gather x src_indices)) = Raise e ->
        unconstrained_mapping xp x z src_indices trg_indices = Raise e
        /\ forall (env : Env) (args : Args) (fuel : nat) (t : list event) (p : prepared),
             orthogonal args = false -> unconstrained args = true ->
             prepare env args = (t, Ok p) ->
             p_x p = x -> p_z p = z ->
             p_src_indices p = src_indices -> p_trg_indices p = trg_indices ->
             main xp env (S fuel) args = (t, Raise e)).
Proof.
  intros Hx Hz Hdict. split; [|split].
  - intros p Hinv Hp. split.
    + apply unconstrained_mapping_ok; assumption.
    + destruct Hp as (_ & Hnp & Hcp & _).
      destruct Hdict as (Hlen & _ & _).
      autorewrite with shape in Hnp, Hcp. rewrite ncols_gather in Hnp, Hcp.
      rewrite <- (mmul_assoc x (mmul p (transpose (gather x src_indices))))
        by (autorewrite with shape; rewrite ?nrows_gather; congruence).
      rewrite <- (mmul_assoc x p)
        by (autorewrite with shape; rewrite ?ncols_gather; congruence).
      reflexivity.
  - intros p Hinv Hnp Hcp. apply unconstrained_mapping_returns; assumption.
  - intros e Hinv. split.
    + apply unconstrained_mapping_singular; assumption.
    + intros env args fuel t p Ho Hu Hp <- <- <- <-.
      apply (main_raises env (S fuel) args t p e Hp).
      unfold train. apply training_loop_raises.
      unfold update_mapping. rewrite Ho, Hu.
      apply unconstrained_mapping_singular; assumption.
Qed.

End Unconstrained.

Lemma demo_inverse :
  exists p,
    inv demo_backend (mmul (transpose (gather x_demo [0; 1; 2])) (gather x_demo [0; 1; 2]))
    = Ok p
    /\ inverse_of (mmul (transpose (gather x_demo [0; 1; 2])) (gather x_demo [0; 1; 2])) p.
Proof.
  destruct (inv demo_backend _) as [p|e] eqn:E.
  - exists p. split; [reflexivity|].
    vm_compute in E. injection E as <-. unfold inverse_of.
    repeat split; try wf_concrete; qc_eq.
  - vm_compute in E. discriminate E.
Qed.

Lemma unconstrained_policy_witness :
  ((forall p,
      inv demo_backend
        (mmul (transpose (gather x_demo [0; 1; 2])) (gather x_demo [0; 1; 2])) = Ok p ->
      inverse_of (mmul (transpose (gather x_demo [0; 1; 2])) (gather x_demo [0; 1; 2])) p ->
      unconstrained_mapping demo_backend x_demo z_demo [0; 1; 2] [0; 1; 2]
      = Ok (mmul x_demo (mmul (mmul p (transpose (gather x_demo [0; 1; 2])))
                              (gather z_demo [0; 1; 2])), z_demo)
      /\ mmul x_demo (mmul (mmul p (transpose (gather x_demo [0; 1; 2])))
                           (gather z_demo [0; 1; 2]))
         = mmul (mmul (mmul x_demo p) (transpose (gather x_demo [0; 1; 2])))
                (gather z_demo [0; 1; 2]))
   /\ (forall p,
         inv demo_backend
           (mmul (transpose (gather x_demo [0; 1; 2])) (gather x_demo [0; 1; 2])) = Ok p ->
         nrows p = ncols x_demo -> ncols p = ncols x_demo ->
         unconstrained_mapping demo_backend x_demo z_demo [0; 1; 2] [0; 1; 2]
         = Ok (mmul x_demo (mmul (mmul p (transpose (gather x_demo [0; 1; 2])))
                                 (gather z_demo [0; 1; 2])), z_demo))
   /\ (forall e,
         inv demo_backend
           (mmul (transpose (gather x_demo [0; 1; 2])) (gather x_demo [0; 1; 2])) = Raise e ->
         unconstrained_mapping demo_backend x_demo z_demo [0; 1; 2] [0; 1; 2] = Raise e
         /\ forall (env : Env) (args : Args) (fuel : nat) (t : list event) (p : prepared),
              orthogonal args = false -> unconstrained args = true ->
              prepare env args = (t, Ok p) ->
              p_x p = x_demo -> p_z p = z_demo ->
              p_src_indices p = [0; 1; 2] -> p_trg_indices p = [0; 1; 2] ->
              main demo_backend env (S fuel) args = (t, Raise e)))
  /\ (inv demo_backend (mmul (transpose (gather x_demo [0; 0])) (gather x_demo [0; 0]))
      = Raise LinAlgError
      /\ unconstrained_mapping demo_backend x_demo z_demo [0; 0] [0; 1] = Raise LinAlgError
      /\ forall (env : Env) (args : Args) (fuel : nat) (t : list event) (p : prepared),
           orthogonal args = false -> unconstrained args = true ->
           prepare env args = (t, Ok p) ->
           p_x p = x_demo -> p_z p = z_demo ->
           p_src_indices p = [0; 0] -> p_trg_indices p = [0; 1] ->
           main demo_backend env (S fuel) args = (t, Raise LinAlgError)).
Proof.
  split.
  - apply (unconstrained_policy demo_backend x_demo z_demo [0; 1; 2] [0; 1; 2]).
    + wf_concrete.
    + wf_concrete.
    + unfold valid_dictionary. vm_compute. repeat constructor.
  - assert (E : inv demo_backend
                  (mmul (transpose (gather x_demo [0; 0])) (gather x_demo [0; 0]))
                = Raise LinAlgError) by (vm_compute; reflexivity).
    split; [exact E|].
    apply (unconstrained_policy demo_backend x_demo z_demo [0; 0] [0; 1]).
    + wf_concrete.
    + wf_concrete.
    + unfold valid_dictionary. vm_compute. repeat constructor.
    + exact E.
Defined.

(** C7, as stated, fails for rank-deficient rows whose inversion meets no
    zero pivot.  The Gram matrix of the two rows of [x_deficient] has no
    inverse; the inversion returns all the same, the solver returns a
    mapping, the loop converges and the embeddings are written: no error
    ends the run. *)
Lemma rank_deficient_rows_need_not_raise :
  (~ exists p,
       inverse_of (mmul (transpose (gather x_deficient [0; 1])) (gather x_deficient [0; 1])) p)
  /\ inv rounding_backend
       (mmul (transpose (gather x_deficient [0; 1])) (gather x_deficient [0; 1]))
     = Ok rounded_inverse
  /\ is_ok (unconstrained_mapping rounding_backend x_deficient z_deficient [0; 1] [0; 1])
     = true
  /\ match main rounding_backend deficient_env 5 unconstrained_args with
     | (t, Ok (Converged st)) =>
         it st = 2%nat
         /\ In (WriteEmbeddings "src.out") t /\ In (WriteEmbeddings "trg.out") t
     | _ => False
     end.
Proof.
  split; [|split; [|split]].
  - apply (null_vector_no_inverse _ null_deficient 0).
    + wf_concrete.
    + reflexivity.
    + reflexivity.
    + qc_eq.
    + vm_compute. lia.
    + intros E. vm_compute in E. discriminate E.
  - reflexivity.
  - vm_compute. reflexivity.
  - vm_compute. split; [reflexivity|]. split.
    + do 3 right. left. reflexivity.
    + do 4 right. left. reflexivity.
Qed.

(** The least-squares solution on the demonstration words is the rotation. *)
Example unconstrained_mapping_demo :
  unconstrained_mapping demo_backend x_demo z_demo [0; 1; 2] [0; 1; 2]
  = Ok (z_demo, z_demo).
Proof. qc_eq. Qed.

(** With the same source word twice in the dictionary the rows are
    rank-deficient and the inversion raises. *)
Example unconstrained_mapping_singular_demo :
  unconstrained_mapping demo_backend x_demo z_demo [0; 0] [0; 1]
  = Raise LinAlgError.
Proof. vm_compute. reflexivity. Qed.

(** ** The nearest-neighbour search *)

Section ArgmaxFacts.
Context {K : Scalar}.

(** A scan continued over a second list. *)
Lemma argmax_from_app (bi : nat) (b : F) (s : nat) (l1 l2 : list F) :
  argmax_from bi b s (l1 ++ l2)
  = argmax_from (fst (argmax_from bi b s l1)) (snd (argmax_from bi b s l1))
      (s + length l1) l2.
Proof.
  revert bi b s. induction l1 as [|v l1 IH]; intros bi b s; simpl.
  - rewrite Nat.add_0_r. reflexivity.
  - replace (s + S (length l1))%nat with (S s + length l1)%nat by lia.
    destruct (Fltb b v); apply IH.
Qed.

(** The running best-so-far of lines 346-348: comparing the arg-max of a
    block with the best value seen before is the same as scanning the
    block. *)
Lemma argmax_from_block (bi : nat) (b : F) (k ci0 j : nat) (c0 : F) (c : list F) :
  (if Fltb b (snd (argmax_from ci0 c0 j c))
   then (k + fst (argmax_from ci0 c0 j c), snd (argmax_from ci0 c0 j c))
   else (bi, b))
  = argmax_from (if Fltb b c0 then k + ci0 else bi)%nat
      (if Fltb b c0 then c0 else b) (k + j) c.
Proof.
  revert ci0 c0 j. induction c as [|v c IH]; intros ci0 c0 j; simpl.
  - destruct (Fltb b c0); reflexivity.
  - replace (S (k + j)) with (k + S j)%nat by lia.
    destruct (Fltb c0 v) eqn:Ecv.
    + rewrite IH. destruct (Fltb b c0) eqn:Ebc.
      * rewrite (Fltb_trans _ _ _ Ebc Ecv), Ecv. reflexivity.
      * destruct (Fltb b v); reflexivity.
    + rewrite IH. destruct (Fltb b c0) eqn:Ebc.
      * rewrite Ecv. reflexivity.
      * rewrite (Fltb_negtrans _ _ _ Ebc Ecv). reflexivity.
Qed.

Lemma argmax_from_cons_block (bi : nat) (b : F) (k : nat) (v : F) (c : list F) :
  argmax_from bi b k (v :: c)
  = if Fltb b (snd (argmax_from 0 v 1 c))
    then (fst (argmax_from 0 v 1 c) + k, snd (argmax_from 0 v 1 c))%nat
    else (bi, b).
Proof.
  rewrite (Nat.add_comm _ k), (argmax_from_block bi b k 0 1 v c).
  simpl. rewrite Nat.add_0_r, Nat.add_1_r.
  destruct (Fltb b v); reflexivity.
Qed.

(** A scan that starts below the maximum finds the arg-max. *)
Lemma argmax_from_dominated (l : list F) (bi : nat) (b : F) (ci : nat) (c : F) (j : nat) :
  Fltb b c = false ->
  Fltb b (snd (argmax_from ci c j l)) = true ->
  argmax_from bi b j l = argmax_from ci c j l.
Proof.
  revert bi b ci c. revert j. induction l as [|u l IH]; intros j bi b ci c Hbc Hmax; simpl in *.
  - congruence.
  - destruct (Fltb b u) eqn:Ebu.
    + destruct (Fltb c u) eqn:Ecu; [reflexivity|].
      rewrite (Fltb_negtrans _ _ _ Hbc Ecu) in Ebu. discriminate.
    + destruct (Fltb c u) eqn:Ecu; apply IH; assumption.
Qed.

Lemma scan_argmax (v : F) (l : list F) :
  Fltb sentinel (snd (argmax_from 0 v 1 l)) = true ->
  scan (v :: l) = argmax_from 0 v 1 l.
Proof.
  intros H. unfold scan. simpl. destruct (Fltb sentinel v) eqn:E; [reflexivity|].
  apply argmax_from_dominated; assumption.
Qed.

(** The value of a scan is the element at its index. *)
Lemma argmax_from_nth (l : list F) (bi : nat) (b : F) (s : nat) :
  (fst (argmax_from bi b s l) = bi /\ snd (argmax_from bi b s l) = b)
  \/ (s <= fst (argmax_from bi b s l) < s + length l
      /\ nth (fst (argmax_from bi b s l) - s) l F0 = snd (argmax_from bi b s l))%nat.
Proof.
  revert bi b s. induction l as [|v l IH]; intros bi b s; simpl.
  - left. split; reflexivity.
  - destruct (Fltb b v).
    + right. destruct (IH s v (S s)) as [[H1 H2]|[H1 H2]].
      * rewrite H1, H2. split; [lia|]. rewrite Nat.sub_diag. reflexivity.
      * split; [lia|].
        destruct (fst (argmax_from s v (S s) l) - s)%nat as [|i] eqn:E; [lia|].
        replace i with (fst (argmax_from s v (S s) l) - S s)%nat by lia.
        assumption.
    + destruct (IH bi b (S s)) as [[H1 H2]|[H1 H2]].
      * left. split; assumption.
      * right. split; [lia|].
        destruct (fst (argmax_from bi b (S s) l) - s)%nat as [|i] eqn:E; [lia|].
        replace i with (fst (argmax_from bi b (S s) l) - S s)%nat by lia.
        assumption.
Qed.

Lemma argmax_nth (v : F) (l : list F) :
  (fst (argmax_from 0 v 1 l) < S (length l))%nat
  /\ nth (fst (argmax_from 0 v 1 l)) (v :: l) F0 = snd (argmax_from 0 v 1 l).
Proof.
  destruct (argmax_from_nth l 0 v 1) as [[H1 H2]|[H1 H2]].
  - rewrite H1, H2. split; [lia | reflexivity].
  - split; [lia|].
    destruct (fst (argmax_from 0 v 1 l)) as [|i] eqn:E; [lia|].
    simpl. rewrite <- H2. f_equal. lia.
Qed.

End ArgmaxFacts.

Section BlockFacts.

Lemma firstn_seq_le (k s len : nat) : (k <= len)%nat -> firstn k (seq s len) = seq s k.
Proof.
  revert s len. induction k as [|k IH]; intros s len H; [reflexivity|].
  destruct len as [|len]; [lia|]. simpl. f_equal. apply IH. lia.
Qed.

Lemma firstn_map_seq {A : Type} (f : nat -> A) (n i : nat) :
  (i <= n)%nat -> firstn i (map f (seq 0 n)) = map f (seq 0 i).
Proof. intros H. rewrite firstn_map, firstn_seq_le by assumption. reflexivity. Qed.

Lemma skipn_map_seq {A : Type} (f : nat -> A) (n j : nat) :
  skipn j (map f (seq 0 n)) = map f (seq j (n - j)).
Proof. rewrite skipn_map, skipn_seq. reflexivity. Qed.

Lemma slice_map_seq {A : Type} (f : nat -> A) (n i j : nat) :
  (i <= j)%nat -> (j <= n)%nat ->
  slice (map f (seq 0 n)) i j = map f (seq i (j - i)).
Proof.
  intros Hij Hjn. unfold slice.
  rewrite skipn_map, firstn_map, skipn_seq, firstn_seq_le by lia. reflexivity.
Qed.

Lemma map_seq_split {A : Type} (f : nat -> A) (n i j : nat) :
  (i <= j)%nat -> (j <= n)%nat ->
  map f (seq 0 n) = map f (seq 0 i) ++ map f (seq i (j - i)) ++ map f (seq j (n - j)).
Proof.
  intros Hij Hjn. rewrite <- !map_app. f_equal.
  replace n with (i + ((j - i) + (n - j)))%nat at 1 by lia.
  rewrite seq_app. f_equal. rewrite seq_app. simpl. f_equal. f_equal. lia.
Qed.

Lemma combine_map_seq {A B : Type} (f : nat -> A) (g : nat -> B) (i len : nat) :
  combine (map f (seq 0 len)) (map g (seq i len))
  = map (fun a => (f a, g (i + a)%nat)) (seq 0 len).
Proof.
  assert (H : forall s, combine (map f (seq s len)) (map g (seq (i + s) len))
                        = map (fun a => (f a, g (i + a)%nat)) (seq s len)).
  { induction len as [|len IH]; intros s; [reflexivity|]. simpl. f_equal.
    replace (S (i + s)) with (i + S s)%nat by lia. apply IH. }
  specialize (H 0%nat). rewrite Nat.add_0_r in H. exact H.
Qed.

Lemma where_mask_map_seq {A : Type} (fm : nat -> bool) (fv : nat -> A)
    (fo : nat -> A) (i len : nat) :
  where_mask (map fm (seq 0 len)) (map fv (seq 0 len)) (map fo (seq i len))
  = map (fun t => if fm (t - i)%nat then fv (t - i)%nat else fo t) (seq i len).
Proof.
  assert (H : forall s,
             where_mask (map fm (seq s len)) (map fv (seq s len))
               (map fo (seq (i + s) len))
             = map (fun t => if fm (t - i)%nat then fv (t - i)%nat else fo t)
                 (seq (i + s) len)).
  { induction len as [|len IH]; intros s; [reflexivity|]. simpl.
    replace (i + s - i)%nat with s by lia. f_equal.
    replace (S (i + s)) with (i + S s)%nat by lia. apply IH. }
  specialize (H 0%nat). rewrite Nat.add_0_r in H. exact H.
Qed.

(** An in-place update of the slice [i:j] of an array given by its
    elements. *)
Lemma assign_masked_map_seq {A : Type} (fo : nat -> A) (fm : nat -> bool)
    (fv : nat -> A) (n i j : nat) :
  (i <= j)%nat -> (j <= n)%nat ->
  assign_masked (map fo (seq 0 n)) i j (map fm (seq 0 (j - i))) (map fv (seq 0 (j - i)))
  = map (fun t => if (i <=? t) && (t <? j)
                  then (if fm (t - i)%nat then fv (t - i)%nat else fo t)
                  else fo t) (seq 0 n).
Proof.
  intros Hij Hjn. unfold assign_masked.
  rewrite firstn_map_seq, skipn_map_seq, slice_map_seq, where_mask_map_seq by lia.
  rewrite (map_seq_split _ n i j Hij Hjn).
  f_equal; [|f_equal]; apply map_ext_in; intros t Ht; apply in_seq in Ht.
  - replace (i <=? t) with false by (symmetry; apply Nat.leb_gt; lia). reflexivity.
  - replace (i <=? t) with true by (symmetry; apply Nat.leb_le; lia).
    replace (t <? j) with true by (symmetry; apply Nat.ltb_lt; lia). reflexivity.
  - replace (t <? j) with false by (symmetry; apply Nat.ltb_ge; lia).
    rewrite andb_false_r. reflexivity.
Qed.

Lemma block_starts_bound (n step q : nat) :
  (0 < step)%nat -> (q < (n + step - 1) / step)%nat -> (q * step < n)%nat.
Proof.
  intros Hs Hq.
  pose proof (Nat.Div0.mul_div_le (n + step - 1) step).
  nia.
Qed.

Lemma block_starts_cover (n step : nat) :
  (0 < step)%nat -> (n <= ((n + step - 1) / step) * step)%nat.
Proof.
  intros Hs.
  pose proof (Nat.mul_succ_div_gt (n + step - 1) step ltac:(lia)).
  nia.
Qed.

(** A loop over the blocks of [range(0, n, step)], each of which moves the
    state from [P i] to [P (min n (i + step))], ends in [P n]. *)
Lemma foldM_blocks {St : Type} (f : St -> nat -> result St) (P : nat -> St)
    (n step : nat) :
  (0 < step)%nat ->
  (forall i, (i < n)%nat -> f (P i) i = Ok (P (Nat.min n (i + step)))) ->
  foldM f (block_starts n step) (P 0%nat) = Ok (P n).
Proof.
  intros Hs Hstep. unfold block_starts.
  assert (H : forall cnt q,
             (forall q', (q <= q' < q + cnt)%nat -> (q' * step < n)%nat) ->
             foldM f (map (fun q => q * step)%nat (seq q cnt)) (P (Nat.min n (q * step)))
             = Ok (P (Nat.min n ((q + cnt) * step)))).
  { induction cnt as [|cnt IH]; intros q Hq; simpl.
    - rewrite Nat.add_0_r. reflexivity.
    - assert (Hlt : (q * step < n)%nat) by (apply Hq; lia).
      rewrite (Nat.min_r n (q * step)) by lia.
      rewrite (Hstep _ Hlt). cbn [bind].
      replace (q * step + step)%nat with (S q * step)%nat by lia.
      rewrite IH by (intros; apply Hq; lia).
      f_equal. f_equal. f_equal. lia. }
  specialize (H ((n + step - 1) / step) 0%nat).
  simpl in H. rewrite Nat.min_0_r in H. rewrite H.
  - rewrite Nat.min_l by (apply block_starts_cover; assumption). reflexivity.
  - intros q' Hq'. apply block_starts_bound; [assumption | lia].
Qed.

End BlockFacts.

Section MaskedUpdate.
Context {K : Scalar}.

Lemma nth_firstn_lt {A : Type} (l : list A) (a k : nat) (d : A) :
  (a < k)%nat -> nth a (firstn k l) d = nth a l d.
Proof.
  revert a k. induction l as [|x l IH]; intros a k H.
  - rewrite firstn_nil. reflexivity.
  - destruct k as [|k]; [lia|]. destruct a as [|a]; [reflexivity|].
    simpl. apply IH. lia.
Qed.

Lemma nth_skipn_add {A : Type} (l : list A) (a i : nat) (d : A) :
  nth a (skipn i l) d = nth (i + a) l d.
Proof.
  revert l. induction i as [|i IH]; intros l; [reflexivity|].
  destruct l as [|x l]; simpl.
  - destruct a; reflexivity.
  - apply IH.
Qed.

Lemma firstn_slice {A : Type} (l : list A) (k j : nat) :
  (k <= j)%nat -> firstn j l = firstn k l ++ slice l k j.
Proof.
  unfold slice. revert l j. induction k as [|k IH]; intros l j H.
  - simpl. rewrite Nat.sub_0_r. reflexivity.
  - destruct j as [|j]; [lia|]. destruct l as [|x l].
    + simpl. rewrite firstn_nil. reflexivity.
    + simpl. f_equal. apply IH. lia.
Qed.

Lemma map_seq_shift {A : Type} (f : nat -> A) (s len : nat) :
  map f (seq s len) = map (fun a => f (s + a)%nat) (seq 0 len).
Proof.
  revert s. induction len as [|len IH]; intros s; [reflexivity|].
  simpl. rewrite Nat.add_0_r. f_equal.
  rewrite (IH (S s)), <- seq_shift, map_map.
  apply map_ext. intros a. f_equal. lia.
Qed.

(** Lines 346-348 (and 353-355) on arrays given by their elements: the
    elements [lo:hi] are compared with the arg-max of their block. *)
Lemma masked_update (N lo hi off : nat) (chunk : nat -> list F)
    (cell cell' : nat -> nat * F) :
  (lo <= hi)%nat -> (hi <= N)%nat ->
  (forall t, (t < N)%nat ->
     cell' t = if (lo <=? t) && (t <? hi)
               then (if Fltb (snd (cell t)) (snd (argmax_pair (chunk (t - lo)%nat)))
                     then (fst (argmax_pair (chunk (t - lo)%nat)) + off,
                           snd (argmax_pair (chunk (t - lo)%nat)))%nat
                     else cell t)
               else cell t) ->
  let ind := map (fun a => fst (argmax_pair (chunk a))) (seq 0 (hi - lo)) in
  let val := map (fun a => snd (argmax_pair (chunk a))) (seq 0 (hi - lo)) in
  let best := map (fun t => snd (cell t)) (seq 0 N) in
  let idx := map (fun t => fst (cell t)) (seq 0 N) in
  let mask := map (fun p => Fltb (snd p) (fst p)) (combine val (slice best lo hi)) in
  assign_masked best lo hi mask val = map (fun t => snd (cell' t)) (seq 0 N)
  /\ assign_masked idx lo hi mask (map (fun c => c + off)%nat ind)
     = map (fun t => fst (cell' t)) (seq 0 N).
Proof.
  intros Hlo Hhi Hcell ind val best idx mask.
  assert (Hmask : mask = map (fun a => Fltb (snd (cell (lo + a)%nat))
                                           (snd (argmax_pair (chunk a))))
                             (seq 0 (hi - lo))).
  { unfold mask, best, val. rewrite slice_map_seq by assumption.
    rewrite combine_map_seq, map_map. reflexivity. }
  rewrite Hmask. split.
  - unfold best, val. rewrite assign_masked_map_seq by assumption.
    apply map_ext_in. intros t Ht. apply in_seq in Ht.
    rewrite (Hcell t) by lia.
    destruct ((lo <=? t) && (t <? hi)) eqn:E; [|reflexivity].
    apply andb_true_iff in E. destruct E as [E1 E2].
    apply Nat.leb_le in E1. replace (lo + (t - lo))%nat with t by lia.
    destruct (Fltb _ _); reflexivity.
  - unfold idx, ind. rewrite map_map.
    rewrite assign_masked_map_seq by assumption.
    apply map_ext_in. intros t Ht. apply in_seq in Ht.
    rewrite (Hcell t) by lia.
    destruct ((lo <=? t) && (t <? hi)) eqn:E; [|reflexivity].
    apply andb_true_iff in E. destruct E as [E1 E2].
    apply Nat.leb_le in E1. replace (lo + (t - lo))%nat with t by lia.
    destruct (Fltb _ _); reflexivity.
Qed.

(** The arg-max of every block of a list of non-empty blocks. *)
Lemma mapM_argmax (chunks : list (list F)) :
  Forall (fun c => c <> []) chunks ->
  mapM argmax chunks = Ok (map (fun c => fst (argmax_pair c)) chunks).
Proof.
  intros H. apply mapM_total. intros c Hc.
  rewrite List.Forall_forall in H. specialize (H c Hc).
  destruct c as [|v c]; [congruence | reflexivity].
Qed.

Lemma argmax_pair_nth (c : list F) :
  c <> [] ->
  (fst (argmax_pair c) < length c)%nat
  /\ nth (fst (argmax_pair c)) c F0 = snd (argmax_pair c).
Proof.
  destruct c as [|v c]; [congruence|]. intros _. simpl length. apply argmax_nth.
Qed.

(** A scan extended by a non-empty block, as the code computes it. *)
Lemma scan_extend (l : list F) (k j : nat) :
  (k <= j)%nat -> (k <= length l)%nat -> slice l k j <> [] ->
  scan (firstn j l)
  = if Fltb (snd (scan (firstn k l))) (snd (argmax_pair (slice l k j)))
    then (fst (argmax_pair (slice l k j)) + k, snd (argmax_pair (slice l k j)))%nat
    else scan (firstn k l).
Proof.
  intros Hkj Hk Hne. unfold scan at 1.
  rewrite (firstn_slice l k j Hkj), argmax_from_app.
  rewrite length_firstn, Nat.min_l by assumption. simpl.
  destruct (slice l k j) as [|v c] eqn:E; [congruence|].
  rewrite argmax_from_cons_block. unfold scan. simpl argmax_pair.
  destruct (Fltb _ _); [reflexivity|].
  destruct (argmax_from 0 sentinel 0 (firstn k l)). reflexivity.
Qed.

End MaskedUpdate.

Section SimilarityBlocks.
Context {K : Scalar}.
Variables xw zw : matrix.
Hypothesis Hwx : wf xw.
Hypothesis Hwz : wf zw.
Hypothesis Hd : ncols xw = ncols zw.

Local Notation "'SIM'" := (mmul xw (transpose zw)).
Local Notation "'NX'" := (nrows xw).
Local Notation "'NZ'" := (nrows zw).

Lemma entry_slice_rows (a : matrix) (i j t c : nat) :
  (t < j - i)%nat -> entry (slice_rows a i j) t c = entry a (i + t) c.
Proof.
  intros H. unfold entry, slice_rows. simpl.
  rewrite nth_firstn_lt by assumption. rewrite nth_skipn_add. reflexivity.
Qed.

Lemma nrows_slice_rows (a : matrix) (i j : nat) :
  (j <= nrows a)%nat -> nrows (slice_rows a i j) = (j - i)%nat.
Proof.
  intros H. unfold nrows, slice_rows in H |- *. simpl.
  rewrite length_firstn, length_skipn. clear - H. lia.
Qed.

Lemma row_of_entries (a : matrix) (t : nat) :
  wf a -> (t < nrows a)%nat -> row_of a t = map (entry a t) (seq 0 (ncols a)).
Proof.
  intros Hwf Ht. unfold row_of. rewrite <- (tabulate_entry a Hwf) at 1.
  unfold tabulate. simpl.
  rewrite (nth_map_seq (fun i => map (entry a i) (seq 0 (ncols a))) 0 (nrows a) t [])
    by assumption.
  reflexivity.
Qed.

Lemma col_of_entries (a : matrix) (c : nat) :
  (c < ncols a)%nat -> col_of a c = map (fun t => entry a t c) (seq 0 (nrows a)).
Proof.
  intros Hc. unfold col_of, transpose, tabulate. simpl.
  rewrite (nth_map_seq (fun i => map (fun j => entry a j i) (seq 0 (nrows a)))
             0 (ncols a) c []) by assumption.
  reflexivity.
Qed.

Lemma length_row_of_sim (t : nat) : (t < NX)%nat -> length (row_of SIM t) = NZ.
Proof.
  intros Ht. rewrite row_of_entries by (auto with shape; shape).
  rewrite length_map, length_seq. shape.
Qed.

Lemma length_col_of_sim (c : nat) : (c < NZ)%nat -> length (col_of SIM c) = NX.
Proof.
  intros Hc. rewrite col_of_entries by shape.
  rewrite length_map, length_seq. shape.
Qed.

(** A block of the similarity matrix is computed from the rows of the two
    blocks alone. *)
Lemma sim_block_entry (i j k l a b : nat) :
  (j <= NX)%nat -> (l <= NZ)%nat -> (a < j - i)%nat -> (b < l - k)%nat ->
  entry (mmul (slice_rows xw i j) (transpose (slice_rows zw k l))) a b
  = entry SIM (i + a) (k + b).
Proof.
  intros Hj Hl Ha Hb.
  rewrite !entry_mmul
    by (autorewrite with shape; rewrite ?nrows_slice_rows by assumption; lia).
  simpl ncols. apply sum_n_ext. intros c Hc.
  rewrite entry_slice_rows by assumption.
  rewrite !entry_transpose
    by (simpl ncols; rewrite ?nrows_slice_rows by assumption; lia).
  rewrite entry_slice_rows by assumption. reflexivity.
Qed.

Lemma block_rows (i j k l : nat) :
  (i <= j)%nat -> (j <= NX)%nat -> (k <= l)%nat -> (l <= NZ)%nat ->
  mrows (mmul (slice_rows xw i j) (transpose (slice_rows zw k l)))
  = map (fun a => slice (row_of SIM (i + a)) k l) (seq 0 (j - i)).
Proof.
  intros Hij Hj Hkl Hl.
  rewrite <- (tabulate_entry (mmul (slice_rows xw i j) (transpose (slice_rows zw k l))))
    by auto with shape.
  unfold tabulate at 1. simpl mrows.
  autorewrite with shape. rewrite !nrows_slice_rows by assumption.
  apply map_ext_in. intros a Ha. apply in_seq in Ha.
  rewrite row_of_entries by (auto with shape; shape).
  autorewrite with shape. rewrite slice_map_seq by assumption.
  rewrite (map_seq_shift _ k). apply map_ext_in. intros b Hb. apply in_seq in Hb.
  apply sim_block_entry; lia.
Qed.

Lemma block_cols (i j k l : nat) :
  (i <= j)%nat -> (j <= NX)%nat -> (k <= l)%nat -> (l <= NZ)%nat ->
  mrows (transpose (mmul (slice_rows xw i j) (transpose (slice_rows zw k l))))
  = map (fun b => slice (col_of SIM (k + b)) i j) (seq 0 (l - k)).
Proof.
  intros Hij Hj Hkl Hl.
  unfold transpose at 1. unfold tabulate at 1. simpl mrows.
  autorewrite with shape. rewrite !nrows_slice_rows by assumption.
  apply map_ext_in. intros b Hb. apply in_seq in Hb.
  rewrite col_of_entries by shape.
  autorewrite with shape. rewrite slice_map_seq by assumption.
  rewrite (map_seq_shift _ i). apply map_ext_in. intros a Ha. apply in_seq in Ha.
  apply sim_block_entry; lia.
Qed.

Lemma block_row_nonempty (i k l a : nat) :
  (i + a < NX)%nat -> (k < l)%nat -> (l <= NZ)%nat ->
  slice (row_of SIM (i + a)) k l <> [].
Proof.
  intros Ha Hkl Hl E. apply (f_equal (@length F)) in E.
  unfold slice in E. rewrite length_firstn, length_skipn, length_row_of_sim in E by assumption.
  simpl in E. lia.
Qed.

Lemma block_col_nonempty (i j k b : nat) :
  (k + b < NZ)%nat -> (i < j)%nat -> (j <= NX)%nat ->
  slice (col_of SIM (k + b)) i j <> [].
Proof.
  intros Hb Hij Hj E. apply (f_equal (@length F)) in E.
  unfold slice in E. rewrite length_firstn, length_skipn, length_col_of_sim in E by assumption.
  simpl in E. lia.
Qed.

End SimilarityBlocks.

Section NearestNeighbourStages.
Context {K : Scalar}.
Variables xw zw : matrix.
Hypothesis Hwx : wf xw.
Hypothesis Hwz : wf zw.
Hypothesis Hd : ncols xw = ncols zw.

Local Notation "'SIM'" := (mmul xw (transpose zw)).
Local Notation "'NX'" := (nrows xw).
Local Notation "'NZ'" := (nrows zw).

Lemma nrows_sim : nrows SIM = NX.
Proof. shape. Qed.

Lemma ncols_sim : ncols SIM = NZ.
Proof. shape. Qed.

Lemma forward_cell_step (d : direction_choice) (i j k l t : nat) :
  in_forward d = true ->
  (j <= NX)%nat -> (k < l)%nat -> (l <= NZ)%nat -> (t < NX)%nat ->
  forward_cell d SIM i j l t
  = if (i <=? t) && (t <? j)
    then (if Fltb (snd (forward_cell d SIM i j k t))
                  (snd (argmax_pair (slice (row_of SIM (i + (t - i))) k l)))
          then (fst (argmax_pair (slice (row_of SIM (i + (t - i))) k l)) + k,
                snd (argmax_pair (slice (row_of SIM (i + (t - i))) k l)))%nat
          else forward_cell d SIM i j k t)
    else forward_cell d SIM i j k t.
Proof.
  intros Hf Hj Hkl Hl Ht. unfold forward_cell. rewrite Hf.
  destruct (t <? i) eqn:E1.
  - apply Nat.ltb_lt in E1.
    replace (i <=? t) with false by (symmetry; apply Nat.leb_gt; lia). reflexivity.
  - apply Nat.ltb_ge in E1.
    replace (i <=? t) with true by (symmetry; apply Nat.leb_le; lia).
    destruct (t <? j) eqn:E2; [|reflexivity]. simpl andb.
    replace (i + (t - i))%nat with t by lia.
    apply scan_extend.
    + lia.
    + rewrite (length_row_of_sim xw zw) by assumption. lia.
    + replace t with (0 + t)%nat by lia.
      apply (block_row_nonempty xw zw); assumption || lia.
Qed.

Lemma backward_cell_step (d : direction_choice) (i j k l c : nat) :
  in_backward d = true ->
  (i < j)%nat -> (j <= NX)%nat -> (k <= l)%nat -> (l <= NZ)%nat -> (c < NZ)%nat ->
  backward_cell d SIM i j l c
  = if (k <=? c) && (c <? l)
    then (if Fltb (snd (backward_cell d SIM i j k c))
                  (snd (argmax_pair (slice (col_of SIM (k + (c - k))) i j)))
          then (fst (argmax_pair (slice (col_of SIM (k + (c - k))) i j)) + i,
                snd (argmax_pair (slice (col_of SIM (k + (c - k))) i j)))%nat
          else backward_cell d SIM i j k c)
    else backward_cell d SIM i j k c.
Proof.
  intros Hb Hij Hj Hkl Hl Hc. unfold backward_cell. rewrite Hb.
  destruct (k <=? c) eqn:E1; simpl andb.
  - apply Nat.leb_le in E1.
    replace (c <? k) with false by (symmetry; apply Nat.ltb_ge; lia).
    destruct (c <? l) eqn:E2; [|reflexivity].
    replace (k + (c - k))%nat with c by lia.
    apply scan_extend.
    + lia.
    + rewrite (length_col_of_sim xw zw) by assumption. lia.
    + replace c with (0 + c)%nat by lia.
      apply (block_col_nonempty xw zw); assumption || lia.
  - apply Nat.leb_gt in E1.
    replace (c <? k) with true by (symmetry; apply Nat.ltb_lt; lia).
    destruct (c <? l) eqn:E2; [reflexivity|].
    apply Nat.ltb_ge in E2. lia.
Qed.

Lemma forward_block_stage (d : direction_choice) (i j k l : nat)
    (bb : list F) (sb : list nat) :
  in_forward d = true ->
  (i <= j)%nat -> (j <= NX)%nat -> (k < l)%nat -> (l <= NZ)%nat ->
  forward_block (mmul (slice_rows xw i j) (transpose (slice_rows zw k l))) i j k
    {| best_sim_forward := best_sim_forward (nn_stage d SIM i j k);
       trg_indices_forward := trg_indices_forward (nn_stage d SIM i j k);
       best_sim_backward := bb;
       src_indices_backward := sb |}
  = Ok {| best_sim_forward := best_sim_forward (nn_stage d SIM i j l);
          trg_indices_forward := trg_indices_forward (nn_stage d SIM i j l);
          best_sim_backward := bb;
          src_indices_backward := sb |}.
Proof.
  intros Hf Hij Hj Hkl Hl.
  unfold forward_block, argmax_axis1.
  rewrite (block_rows xw zw Hd i j k l) by lia.
  rewrite mapM_argmax.
  2:{ apply List.Forall_forall. intros c Hc. apply in_map_iff in Hc.
      destruct Hc as [a [<- Ha]]. apply in_seq in Ha.
      apply (block_row_nonempty xw zw); assumption || lia. }
  cbn [bind]. rewrite map_map.
  rewrite nrows_mmul, (nrows_slice_rows xw i j) by assumption.
  assert (Hval :
    map (fun t => entry (mmul (slice_rows xw i j) (transpose (slice_rows zw k l))) t
                    (nth t (map (fun a => fst (argmax_pair (slice (row_of SIM (i + a)) k l)))
                                (seq 0 (j - i))) 0%nat))
        (seq 0 (j - i))
    = map (fun a => snd (argmax_pair (slice (row_of SIM (i + a)) k l))) (seq 0 (j - i))).
  { apply map_ext_in. intros t Ht. apply in_seq in Ht.
    rewrite (nth_map_seq (fun a => fst (argmax_pair (slice (row_of SIM (i + a)) k l)))
               0 (j - i) t 0%nat) by lia.
    unfold entry. rewrite (block_rows xw zw Hd i j k l) by lia.
    rewrite (nth_map_seq (fun a => slice (row_of SIM (i + a)) k l) 0 (j - i) t []) by lia.
    apply argmax_pair_nth.
    apply (block_row_nonempty xw zw); assumption || lia. }
  rewrite Hval.
  destruct (masked_update NX i j k (fun a => slice (row_of SIM (i + a)) k l)
              (forward_cell d SIM i j k) (forward_cell d SIM i j l)) as [H1 H2].
  - assumption.
  - assumption.
  - intros t Ht. apply forward_cell_step; assumption.
  - unfold nn_stage. cbn [best_sim_forward trg_indices_forward].
    rewrite nrows_sim. cbv beta in H1, H2. rewrite H1, H2. reflexivity.
Qed.

Lemma backward_block_stage (d : direction_choice) (i j k l : nat)
    (bf : list F) (tf : list nat) :
  in_backward d = true ->
  (i < j)%nat -> (j <= NX)%nat -> (k <= l)%nat -> (l <= NZ)%nat ->
  backward_block (mmul (slice_rows xw i j) (transpose (slice_rows zw k l))) i k l
    {| best_sim_forward := bf;
       trg_indices_forward := tf;
       best_sim_backward := best_sim_backward (nn_stage d SIM i j k);
       src_indices_backward := src_indices_backward (nn_stage d SIM i j k) |}
  = Ok {| best_sim_forward := bf;
          trg_indices_forward := tf;
          best_sim_backward := best_sim_backward (nn_stage d SIM i j l);
          src_indices_backward := src_indices_backward (nn_stage d SIM i j l) |}.
Proof.
  intros Hb Hij Hj Hkl Hl.
  unfold backward_block, argmax_axis0.
  rewrite (block_cols xw zw Hd i j k l) by lia.
  rewrite mapM_argmax.
  2:{ apply List.Forall_forall. intros c Hc. apply in_map_iff in Hc.
      destruct Hc as [b [<- Hb']]. apply in_seq in Hb'.
      apply (block_col_nonempty xw zw); assumption || lia. }
  cbn [bind]. rewrite map_map.
  rewrite ncols_mmul, ncols_transpose, (nrows_slice_rows zw k l) by assumption.
  assert (Hval :
    map (fun t => entry (mmul (slice_rows xw i j) (transpose (slice_rows zw k l)))
                    (nth t (map (fun b => fst (argmax_pair (slice (col_of SIM (k + b)) i j)))
                                (seq 0 (l - k))) 0%nat) t)
        (seq 0 (l - k))
    = map (fun b => snd (argmax_pair (slice (col_of SIM (k + b)) i j))) (seq 0 (l - k))).
  { apply map_ext_in. intros t Ht. apply in_seq in Ht.
    rewrite (nth_map_seq (fun b => fst (argmax_pair (slice (col_of SIM (k + b)) i j)))
               0 (l - k) t 0%nat) by lia.
    simpl (0 + t)%nat.
    assert (Hne : slice (col_of SIM (k + t)) i j <> []).
    { apply (block_col_nonempty xw zw); assumption || lia. }
    destruct (argmax_pair_nth _ Hne) as [Hlt Hnth].
    assert (Hlen : length (slice (col_of SIM (k + t)) i j) = (j - i)%nat).
    { unfold slice.
      rewrite length_firstn, length_skipn, (length_col_of_sim xw zw) by lia. lia. }
    rewrite <- entry_transpose
      by (autorewrite with shape;
          rewrite ?(nrows_slice_rows xw i j), ?(nrows_slice_rows zw k l) by assumption;
          lia).
    unfold entry. rewrite (block_cols xw zw Hd i j k l) by lia.
    rewrite (nth_map_seq (fun b => slice (col_of SIM (k + b)) i j) 0 (l - k) t []) by lia.
    exact Hnth. }
  rewrite Hval.
  destruct (masked_update NZ k l i (fun b => slice (col_of SIM (k + b)) i j)
              (backward_cell d SIM i j k) (backward_cell d SIM i j l)) as [H1 H2].
  - assumption.
  - assumption.
  - intros t Ht. apply backward_cell_step; assumption.
  - unfold nn_stage. cbn [best_sim_backward src_indices_backward].
    rewrite ncols_sim. cbv beta in H1, H2. rewrite H1, H2. reflexivity.
Qed.

Lemma nn_block_stage (d : direction_choice) (max_dim_x max_dim_z i k : nat) :
  (0 < max_dim_x)%nat -> (0 < max_dim_z)%nat -> (i < NX)%nat -> (k < NZ)%nat ->
  nn_block d NX NZ xw zw max_dim_x max_dim_z i k
    (nn_stage d SIM i (Nat.min NX (i + max_dim_x)) k)
  = Ok (nn_stage d SIM i (Nat.min NX (i + max_dim_x)) (Nat.min NZ (k + max_dim_z))).
Proof.
  intros Hbx Hbz Hi Hk. unfold nn_block.
  set (j := Nat.min NX (i + max_dim_x)). set (l := Nat.min NZ (k + max_dim_z)).
  assert (Hij : (i < j)%nat) by (unfold j; lia).
  assert (Hj : (j <= NX)%nat) by (unfold j; lia).
  assert (Hkl : (k < l)%nat) by (unfold l; lia).
  assert (Hl : (l <= NZ)%nat) by (unfold l; lia).
  rewrite dot_ok by (autorewrite with shape; simpl; exact Hd).
  cbn [bind].
  pose proof (fun d Hf => forward_block_stage d i j k l
                (best_sim_backward (nn_stage d SIM i j k))
                (src_indices_backward (nn_stage d SIM i j k))
                Hf ltac:(lia) Hj Hkl Hl) as Hfwd.
  destruct d; cbn [in_forward in_backward].
  - replace (forward_block _ i j k _)
      with (Ok (nn_stage forward SIM i j l)) by (symmetry; exact (Hfwd forward eq_refl)).
    reflexivity.
  - exact (backward_block_stage backward i j k l
             (best_sim_forward (nn_stage backward SIM i j k))
             (trg_indices_forward (nn_stage backward SIM i j k))
             eq_refl Hij Hj ltac:(lia) Hl).
  - replace (forward_block _ i j k _)
      with (Ok {| best_sim_forward := best_sim_forward (nn_stage union SIM i j l);
                  trg_indices_forward := trg_indices_forward (nn_stage union SIM i j l);
                  best_sim_backward := best_sim_backward (nn_stage union SIM i j k);
                  src_indices_backward := src_indices_backward (nn_stage union SIM i j k) |})
      by (symmetry; exact (Hfwd union eq_refl)).
    cbn [bind].
    exact (backward_block_stage union i j k l
             (best_sim_forward (nn_stage union SIM i j l))
             (trg_indices_forward (nn_stage union SIM i j l))
             eq_refl Hij Hj ltac:(lia) Hl).
Qed.

Lemma nn_stage_start (d : direction_choice) (i j j' : nat) :
  nn_stage d SIM i j 0 = nn_stage d SIM i j' 0.
Proof.
  unfold nn_stage. f_equal; apply map_ext; intros t;
    unfold forward_cell, backward_cell; simpl firstn;
    destruct (in_forward d), (in_backward d), (t <? i), (t <? j), (t <? j');
    reflexivity.
Qed.

Lemma nn_stage_end (d : direction_choice) (i j : nat) :
  (i <= j)%nat -> nn_stage d SIM i j NZ = nn_stage d SIM j j 0.
Proof.
  intros Hij. unfold nn_stage. rewrite nrows_sim, ncols_sim.
  f_equal; apply map_ext_in; intros t Ht; apply in_seq in Ht;
    unfold forward_cell, backward_cell.
  - destruct (in_forward d); [|reflexivity].
    destruct (t <? i) eqn:E1.
    + apply Nat.ltb_lt in E1.
      replace (t <? j) with true by (symmetry; apply Nat.ltb_lt; lia). reflexivity.
    + destruct (t <? j); [|reflexivity].
      rewrite firstn_all2 by (rewrite (length_row_of_sim xw zw); lia). reflexivity.
  - destruct (in_forward d); [|reflexivity].
    destruct (t <? i) eqn:E1.
    + apply Nat.ltb_lt in E1.
      replace (t <? j) with true by (symmetry; apply Nat.ltb_lt; lia). reflexivity.
    + destruct (t <? j); [|reflexivity].
      rewrite firstn_all2 by (rewrite (length_row_of_sim xw zw); lia). reflexivity.
  - destruct (in_backward d); [|reflexivity].
    replace (t <? NZ) with true by (symmetry; apply Nat.ltb_lt; lia). reflexivity.
  - destruct (in_backward d); [|reflexivity].
    replace (t <? NZ) with true by (symmetry; apply Nat.ltb_lt; lia). reflexivity.
Qed.

Lemma map_const_seq {A : Type} (c : A) (len : nat) :
  map (fun _ => c) (seq 0 len) = repeat c len.
Proof.
  assert (H : forall s, map (fun _ => c) (seq s len) = repeat c len).
  { induction len as [|len IH]; intros s; [reflexivity|]. simpl. f_equal. apply IH. }
  apply H.
Qed.

Lemma nn_stage_init (d : direction_choice) :
  nn_init NX NZ = nn_stage d SIM 0 0 0.
Proof.
  unfold nn_init, nn_stage. rewrite nrows_sim, ncols_sim.
  f_equal; rewrite <- map_const_seq; apply map_ext; intros t;
    unfold forward_cell, backward_cell; simpl;
    destruct (in_forward d), (in_backward d); reflexivity.
Qed.

(** The search ends with every row and every column scanned in full, for
    every positive block size. *)
Lemma nearest_neighbours_stage (d : direction_choice) (max_dim_x max_dim_z : nat) :
  (0 < max_dim_x)%nat -> (0 < max_dim_z)%nat ->
  nearest_neighbours d max_dim_x max_dim_z NX NZ xw zw
  = Ok (nn_stage d SIM NX NX 0).
Proof.
  intros Hbx Hbz. unfold nearest_neighbours. rewrite (nn_stage_init d).
  apply (foldM_blocks
           (fun st i =>
              foldM (fun st k => nn_block d NX NZ xw zw max_dim_x max_dim_z i k st)
                    (block_starts NZ max_dim_z) st)
           (fun i => nn_stage d SIM i i 0) NX max_dim_x Hbx).
  intros i Hi.
  rewrite (nn_stage_start d i i (Nat.min NX (i + max_dim_x))).
  rewrite (foldM_blocks
             (fun st k => nn_block d NX NZ xw zw max_dim_x max_dim_z i k st)
             (fun l => nn_stage d SIM i (Nat.min NX (i + max_dim_x)) l)
             NZ max_dim_z Hbz).
  - rewrite nn_stage_end by lia. reflexivity.
  - intros k Hk. apply nn_block_stage; assumption.
Qed.

End NearestNeighbourStages.

Section NearestNeighbourResult.
Context {K : Scalar}.

Lemma mapM_argmax_inv (chunks : list (list F)) (ind : list nat) :
  mapM argmax chunks = Ok ind -> Forall (fun c => c <> []) chunks.
Proof.
  revert ind. induction chunks as [|c chunks IH]; intros ind H; [constructor|].
  simpl in H. destruct c as [|v c]; [discriminate|].
  simpl in H. destruct (mapM argmax chunks) as [ind'|e]; [|discriminate].
  constructor; [discriminate | apply (IH ind'); reflexivity].
Qed.

Lemma rows_as_map (a : matrix) : mrows a = map (row_of a) (seq 0 (nrows a)).
Proof.
  apply (nth_ext _ _ [] []).
  - rewrite length_map, length_seq. reflexivity.
  - intros t Ht. rewrite (nth_map_seq (row_of a) 0 (nrows a) t []) by assumption.
    reflexivity.
Qed.

Lemma scan_argmax_pair (c : list F) :
  c <> [] -> Fltb sentinel (snd (argmax_pair c)) = true -> scan c = argmax_pair c.
Proof. destruct c as [|v c]; [congruence|]. intros _. apply scan_argmax. Qed.

(** The arg-max of every list of a family, with its value. *)
Lemma argmax_family (chunk : nat -> list F) (len : nat) (ind : list nat)
    (value : nat -> nat -> F) :
  mapM argmax (map chunk (seq 0 len)) = Ok ind ->
  (forall t c, (t < len)%nat -> (c < length (chunk t))%nat ->
               value t c = nth c (chunk t) F0) ->
  (forall t, (t < len)%nat -> chunk t <> [])
  /\ ind = map (fun t => fst (argmax_pair (chunk t))) (seq 0 len)
  /\ map (fun t => value t (nth t ind 0%nat)) (seq 0 len)
     = map (fun t => snd (argmax_pair (chunk t))) (seq 0 len).
Proof.
  intros Hind Hvalue.
  pose proof (mapM_argmax_inv _ _ Hind) as Hne.
  assert (Hne' : forall t, (t < len)%nat -> chunk t <> []).
  { intros t Ht. rewrite List.Forall_forall in Hne. apply Hne.
    apply in_map. apply in_seq. lia. }
  rewrite (mapM_argmax _ Hne), map_map in Hind. injection Hind as <-.
  split; [assumption|]. split; [reflexivity|].
  apply map_ext_in. intros t Ht. apply in_seq in Ht.
  rewrite (nth_map_seq (fun t => fst (argmax_pair (chunk t))) 0 len t 0%nat) by lia.
  simpl (0 + t)%nat.
  destruct (argmax_pair_nth (chunk t) (Hne' t ltac:(lia))) as [Hlt Hnth].
  rewrite Hvalue by (assumption || lia). exact Hnth.
Qed.

(** C4 (amended).  For every positive block size and every pair of
    matrices in which each row (column) of the similarity matrix has an
    element greater than -100, the blockwise search ends with the arg-max
    indices and values of the unblocked computation, row-wise for the
    forward direction and column-wise for the backward one; the arrays of a
    direction that is not searched keep their initial content. *)
Theorem blockwise_nearest_neighbours (d : direction_choice)
    (max_dim_x max_dim_z : nat) (xw zw : matrix)
    (ind1 : list nat) (val1 : list F) (ind0 : list nat) (val0 : list F) :
  wf xw -> wf zw -> ncols xw = ncols zw ->
  (0 < max_dim_x)%nat -> (0 < max_dim_z)%nat ->
  full_nearest_neighbours xw zw = Ok (ind1, val1, (ind0, val0)) ->
  (in_forward d = true -> Forall (fun v => Fltb sentinel v = true) val1) ->
  (in_backward d = true -> Forall (fun v => Fltb sentinel v = true) val0) ->
  nearest_neighbours d max_dim_x max_dim_z (nrows xw) (nrows zw) xw zw
  = Ok {| best_sim_forward := if in_forward d then val1 else repeat sentinel (nrows xw);
          trg_indices_forward := if in_forward d then ind1 else repeat 0%nat (nrows xw);
          best_sim_backward := if in_backward d then val0 else repeat sentinel (nrows zw);
          src_indices_backward := if in_backward d then ind0 else repeat 0%nat (nrows zw) |}.
Proof.
  intros Hwx Hwz Hd Hbx Hbz Hfull Hs1 Hs0.
  rewrite (nearest_neighbours_stage xw zw Hd d max_dim_x max_dim_z Hbx Hbz).
  unfold full_nearest_neighbours in Hfull.
  rewrite dot_ok in Hfull by (autorewrite with shape; exact Hd).
  cbn [bind] in Hfull.
  set (sim := mmul xw (transpose zw)) in *.
  assert (Hn : nrows sim = nrows xw) by (unfold sim; shape).
  assert (Hm : ncols sim = nrows zw) by (unfold sim; shape).
  unfold argmax_axis1, argmax_axis0 in Hfull.
  rewrite (rows_as_map sim), (rows_as_map (transpose sim)) in Hfull.
  rewrite nrows_transpose, Hn, Hm in Hfull.
  destruct (mapM argmax (map (row_of sim) (seq 0 (nrows xw)))) as [i1|e] eqn:E1;
    [|discriminate].
  cbn [bind] in Hfull.
  destruct (mapM argmax (map (row_of (transpose sim)) (seq 0 (nrows zw)))) as [i0|e] eqn:E0;
    [|discriminate].
  cbn [bind] in Hfull. injection Hfull as <- Hv1 <- Hv0.
  destruct (argmax_family (row_of sim) (nrows xw) i1 (fun t c => entry sim t c) E1)
    as (Hne1 & Hi1 & Hval1); [reflexivity|].
  destruct (argmax_family (row_of (transpose sim)) (nrows zw) i0
              (fun t c => entry sim c t) E0) as (Hne0 & Hi0 & Hval0).
  { intros t c Ht Hc.
    rewrite <- (entry_transpose sim t c); [reflexivity | lia |].
    change (row_of (transpose sim) t) with (col_of sim t) in Hc.
    unfold sim in Hc. rewrite (length_col_of_sim xw zw) in Hc by assumption. lia. }
  rewrite Hval1 in Hv1. rewrite Hval0 in Hv0.
  unfold nn_stage. rewrite Hn, Hm. f_equal. f_equal.
  - destruct (in_forward d) eqn:Ef.
    + rewrite <- Hv1. apply map_ext_in. intros t Ht. apply in_seq in Ht.
      unfold forward_cell. rewrite Ef.
      replace (t <? nrows xw) with true by (symmetry; apply Nat.ltb_lt; lia).
      rewrite scan_argmax_pair; [reflexivity | apply Hne1; lia |].
      specialize (Hs1 eq_refl). rewrite <- Hv1 in Hs1.
      rewrite List.Forall_forall in Hs1.
      apply Hs1. apply (in_map (fun t => snd (argmax_pair (row_of sim t)))).
      apply in_seq. lia.
    + rewrite <- map_const_seq. apply map_ext. intros t.
      unfold forward_cell. rewrite Ef. reflexivity.
  - destruct (in_forward d) eqn:Ef.
    + rewrite Hi1. apply map_ext_in. intros t Ht. apply in_seq in Ht.
      unfold forward_cell. rewrite Ef.
      replace (t <? nrows xw) with true by (symmetry; apply Nat.ltb_lt; lia).
      rewrite scan_argmax_pair; [reflexivity | apply Hne1; lia |].
      specialize (Hs1 eq_refl). rewrite <- Hv1 in Hs1.
      rewrite List.Forall_forall in Hs1.
      apply Hs1. apply (in_map (fun t => snd (argmax_pair (row_of sim t)))).
      apply in_seq. lia.
    + rewrite <- map_const_seq. apply map_ext. intros t.
      unfold forward_cell. rewrite Ef. reflexivity.
  - destruct (in_backward d) eqn:Eb.
    + rewrite <- Hv0. apply map_ext_in. intros t Ht. apply in_seq in Ht.
      unfold backward_cell. rewrite Eb. simpl (t <? 0).
      rewrite firstn_all2 by (unfold sim; rewrite (length_col_of_sim xw zw); lia).
      change (col_of sim t) with (row_of (transpose sim) t).
      rewrite scan_argmax_pair; [reflexivity | apply Hne0; lia |].
      specialize (Hs0 eq_refl). rewrite <- Hv0 in Hs0.
      rewrite List.Forall_forall in Hs0.
      apply Hs0. apply (in_map (fun t => snd (argmax_pair (row_of (transpose sim) t)))).
      apply in_seq. lia.
    + rewrite <- map_const_seq. apply map_ext. intros t.
      unfold backward_cell. rewrite Eb. reflexivity.
  - destruct (in_backward d) eqn:Eb.
    + rewrite Hi0. apply map_ext_in. intros t Ht. apply in_seq in Ht.
      unfold backward_cell. rewrite Eb. simpl (t <? 0).
      rewrite firstn_all2 by (unfold sim; rewrite (length_col_of_sim xw zw); lia).
      change (col_of sim t) with (row_of (transpose sim) t).
      rewrite scan_argmax_pair; [reflexivity | apply Hne0; lia |].
      specialize (Hs0 eq_refl). rewrite <- Hv0 in Hs0.
      rewrite List.Forall_forall in Hs0.
      apply Hs0. apply (in_map (fun t => snd (argmax_pair (row_of (transpose sim) t)))).
      apply in_seq. lia.
    + rewrite <- map_const_seq. apply map_ext. intros t.
      unfold backward_cell. rewrite Eb. reflexivity.
Qed.

End NearestNeighbourResult.

Lemma full_demo_ok :
  full_nearest_neighbours x_demo z_demo
  = Ok (fst (fst full_demo), snd (fst full_demo),
        (fst (snd full_demo), snd (snd full_demo))).
Proof.
  unfold full_demo.
  destruct (full_nearest_neighbours x_demo z_demo) as [[[i1 v1] [i0 v0]]|e] eqn:E.
  - reflexivity.
  - vm_compute in E. discriminate E.
Qed.

Lemma blockwise_nearest_neighbours_witness :
  nearest_neighbours union 2 1 (nrows x_demo) (nrows z_demo) x_demo z_demo
  = Ok {| best_sim_forward := snd (fst full_demo);
          trg_indices_forward := fst (fst full_demo);
          best_sim_backward := snd (snd full_demo);
          src_indices_backward := fst (snd full_demo) |}.
Proof.
  apply (blockwise_nearest_neighbours union 2 1 x_demo z_demo
           (fst (fst full_demo)) (snd (fst full_demo))
           (fst (snd full_demo)) (snd (snd full_demo))).
  - wf_concrete.
  - wf_concrete.
  - reflexivity.
  - lia.
  - lia.
  - exact full_demo_ok.
  - intros _. vm_compute. repeat constructor.
  - intros _. vm_compute. repeat constructor.
Defined.

(** The nearest neighbours of the mapped demonstration words ([x_demo]
    mapped is [z_demo]): every source word is nearest to its image, with
    the same values in blocks of two rows and one column and in one
    block. *)
Example nearest_neighbours_demo :
  match nearest_neighbours union 2 1 3 3 z_demo z_demo,
        nearest_neighbours union MAX_DIM_X MAX_DIM_Z 3 3 z_demo z_demo with
  | Ok st, Ok st' =>
      trg_indices_forward st = [0; 1; 2]
      /\ src_indices_backward st = [0; 1; 2]
      /\ map this (best_sim_forward st) = [1; 1; 2]%Q
      /\ trg_indices_forward st' = [0; 1; 2]
      /\ map this (best_sim_forward st') = [1; 1; 2]%Q
  | _, _ => False
  end.
Proof. vm_compute. repeat split; reflexivity. Qed.

(** C4, as stated, fails: where every similarity of a row is below -100
    the blockwise search keeps index 0 and value -100, the unblocked
    computation returns the arg-max.  For [x_far] and [z_far] the
    similarities are -300 and -200: the arg-max is target 1 with -200, the
    search of the program answers target 0 with -100. *)
Lemma blockwise_search_keeps_sentinel :
  match nearest_neighbours union MAX_DIM_X MAX_DIM_Z (nrows x_far) (nrows z_far)
          x_far z_far,
        full_nearest_neighbours x_far z_far with
  | Ok st, Ok (ind1, val1, (ind0, val0)) =>
      trg_indices_forward st = [0] /\ ind1 = [1]
      /\ map this (best_sim_forward st) = [-100 # 1]%Q
      /\ map this val1 = [-200 # 1]%Q
      /\ map this (best_sim_backward st) = [-100 # 1; -100 # 1]%Q
      /\ map this val0 = [-300 # 1; -200 # 1]%Q
  | _, _ => False
  end.
Proof. vm_compute. repeat split; reflexivity. Qed.

(** ** The induced dictionary *)

Section InducedDictionary.
Context {K : Scalar}.
Variable xp : Backend.

Lemma MAX_DIM_X_pos : (0 < MAX_DIM_X)%nat.
Proof. apply Nat.ltb_lt. vm_compute. reflexivity. Qed.

Lemma MAX_DIM_Z_pos : (0 < MAX_DIM_Z)%nat.
Proof. apply Nat.ltb_lt. vm_compute. reflexivity. Qed.

(** Without LAPMOD the self-learning step returns the dictionary selected
    from the final arrays of the search. *)
Lemma induce_dictionary_nn (args : Args) (x z xw zw : matrix) :
  wf xw -> wf zw -> ncols xw = ncols zw ->
  nrows xw = nrows x -> nrows zw = nrows z ->
  lapmod args = false ->
  induce_dictionary xp args x z xw zw
  = let st := nn_stage (direction args) (mmul xw (transpose zw)) (nrows x) (nrows x) 0 in
    Ok {| new_src_indices := fst (select_dictionary (direction args) (nrows x) (nrows z) st);
          new_trg_indices := snd (select_dictionary (direction args) (nrows x) (nrows z) st);
          new_objective := objective_of (direction args)
                             (best_sim_forward st) (best_sim_backward st) |}.
Proof.
  intros Hwx Hwz Hd Hnx Hnz Hlap. unfold induce_dictionary. rewrite Hlap.
  rewrite <- Hnx, <- Hnz.
  rewrite (nearest_neighbours_stage xw zw Hd (direction args) MAX_DIM_X MAX_DIM_Z
             MAX_DIM_X_pos MAX_DIM_Z_pos).
  cbn [bind]. cbv zeta.
  destruct (select_dictionary _ _ _ _) as [s t]. reflexivity.
Qed.

(** C6.  In union direction the induced training dictionary is the pairs
    of the forward direction followed by the pairs of the backward
    direction, nothing removed: its size is the number of source rows plus
    the number of target rows. *)
Theorem union_dictionary_is_concatenation (args : Args) (x z xw zw : matrix) :
  wf xw -> wf zw -> ncols xw = ncols zw ->
  nrows xw = nrows x -> nrows zw = nrows z ->
  lapmod args = false ->
  exists f b u,
    induce_dictionary xp (set_direction args forward) x z xw zw = Ok f
    /\ induce_dictionary xp (set_direction args backward) x z xw zw = Ok b
    /\ induce_dictionary xp (set_direction args union) x z xw zw = Ok u
    /\ new_src_indices u = new_src_indices f ++ new_src_indices b
    /\ new_trg_indices u = new_trg_indices f ++ new_trg_indices b
    /\ length (new_src_indices f) = nrows x
    /\ length (new_trg_indices f) = nrows x
    /\ length (new_src_indices b) = nrows z
    /\ length (new_trg_indices b) = nrows z
    /\ length (new_src_indices u) = (nrows x + nrows z)%nat
    /\ length (new_trg_indices u) = (nrows x + nrows z)%nat.
Proof.
  intros Hwx Hwz Hd Hnx Hnz Hlap.
  pose proof (fun d => induce_dictionary_nn (set_direction args d) x z xw zw
                         Hwx Hwz Hd Hnx Hnz Hlap) as H.
  eexists. eexists. eexists.
  split; [apply (H forward)|]. split; [apply (H backward)|].
  split; [apply (H union)|].
  cbn [direction set_direction select_dictionary fst snd
       new_src_indices new_trg_indices nn_stage
       trg_indices_forward src_indices_backward].
  assert (Hm : ncols (mmul xw (transpose zw)) = nrows z) by (rewrite <- Hnz; shape).
  assert (Hn : nrows (mmul xw (transpose zw)) = nrows x) by (rewrite <- Hnx; shape).
  rewrite Hn, Hm.
  repeat split;
    rewrite ?length_app, ?length_map, ?length_seq; reflexivity.
Qed.

End InducedDictionary.

Lemma union_dictionary_is_concatenation_witness :
  exists f b u,
    induce_dictionary demo_backend (set_direction demo_args forward)
      x_demo z_demo z_demo z_demo = Ok f
    /\ induce_dictionary demo_backend (set_direction demo_args backward)
         x_demo z_demo z_demo z_demo = Ok b
    /\ induce_dictionary demo_backend (set_direction demo_args union)
         x_demo z_demo z_demo z_demo = Ok u
    /\ new_src_indices u = new_src_indices f ++ new_src_indices b
    /\ new_trg_indices u = new_trg_indices f ++ new_trg_indices b
    /\ length (new_src_indices f) = nrows x_demo
    /\ length (new_trg_indices f) = nrows x_demo
    /\ length (new_src_indices b) = nrows z_demo
    /\ length (new_trg_indices b) = nrows z_demo
    /\ length (new_src_indices u) = (nrows x_demo + nrows z_demo)%nat
    /\ length (new_trg_indices u) = (nrows x_demo + nrows z_demo)%nat.
Proof.
  apply (union_dictionary_is_concatenation demo_backend demo_args
           x_demo z_demo z_demo z_demo).
  - wf_concrete.
  - wf_concrete.
  - reflexivity.
  - reflexivity.
  - reflexivity.
  - reflexivity.
Defined.

(** The union dictionary of the mapped demonstration words: three forward
    pairs followed by three backward pairs, each pair twice. *)
Example union_dictionary_demo :
  match induce_dictionary demo_backend (set_direction demo_args union)
          x_demo z_demo z_demo z_demo with
  | Ok u => new_src_indices u = [0; 1; 2; 0; 1; 2]
            /\ new_trg_indices u = [0; 1; 2; 0; 1; 2]
  | Raise _ => False
  end.
Proof. vm_compute. split; reflexivity. Qed.

(** ** The convergence loop *)

Section Convergence.
Context {K : Scalar}.
Variable xp : Backend.

(** What a completed iteration has done. *)
Lemma iteration_inv (args : Args) (src_word2ind trg_word2ind : gmap string nat)
    (test_lines : option (list (list string))) (x z : matrix)
    (st st' : loop_state) :
  iteration xp args src_word2ind trg_word2ind test_lines x z st = Ok st' ->
  exists xw zw,
    update_mapping xp args x z (src_indices st) (trg_indices st) = Ok (xw, zw)
    /\ it st' = (it st + 1)%nat
    /\ mapped st' = Some (xw, zw)
    /\ if self_learning args
       then exists ind,
              induce_dictionary xp args x z xw zw = Ok ind
              /\ write_log args = Ok tt
              /\ objective st' = new_objective ind
              /\ prev_objective st' = objective st
              /\ src_indices st' = new_src_indices ind
              /\ trg_indices st' = new_trg_indices ind
       else objective st' = objective st
            /\ prev_objective st' = prev_objective st
            /\ src_indices st' = src_indices st
            /\ trg_indices st' = trg_indices st.
Proof.
  unfold iteration. intros H.
  destruct (update_mapping xp args x z (src_indices st) (trg_indices st))
    as [[xw zw]|e]; [|discriminate].
  exists xw, zw. split; [reflexivity|].
  cbn [bind] in H.
  destruct (self_learning args).
  - destruct (induce_dictionary xp args x z xw zw) as [ind|e]; [|discriminate].
    cbn [bind] in H.
    destruct (write_log args) as [[]|e]; [|discriminate].
    cbn [bind] in H.
    destruct test_lines as [lines|].
    + destruct (coverage_lines src_word2ind trg_word2ind lines); [|discriminate].
      cbn [bind] in H. injection H as <-. cbn.
      repeat split. exists ind. repeat split.
    + injection H as <-. cbn. repeat split. exists ind. repeat split.
  - cbn [bind] in H.
    destruct test_lines as [lines|].
    + destruct (coverage_lines src_word2ind trg_word2ind lines); [|discriminate].
      cbn [bind] in H. injection H as <-. cbn. repeat split.
    + injection H as <-. cbn. repeat split.
Qed.

Lemma iteration_it (args : Args) (src_word2ind trg_word2ind : gmap string nat)
    (test_lines : option (list (list string))) (x z : matrix)
    (st st' : loop_state) :
  iteration xp args src_word2ind trg_word2ind test_lines x z st = Ok st' ->
  it st' = (it st + 1)%nat.
Proof.
  intros H. destruct (iteration_inv _ _ _ _ _ _ _ _ H) as (xw & zw & _ & Hit & _).
  exact Hit.
Qed.

Lemma iterations_it (n : nat) (args : Args)
    (src_word2ind trg_word2ind : gmap string nat)
    (test_lines : option (list (list string))) (x z : matrix)
    (st0 st : loop_state) :
  iterations xp n args src_word2ind trg_word2ind test_lines x z st0 = Ok st ->
  it st = (it st0 + n)%nat.
Proof.
  revert st. induction n as [|n IH]; intros st H; simpl in H.
  - injection H as <-. lia.
  - destruct (iterations xp n args src_word2ind trg_word2ind test_lines x z st0)
      as [st1|e]; [|discriminate].
    cbn [bind] in H. apply iteration_it in H. rewrite H, (IH st1 eq_refl). lia.
Qed.

(** After a completed iteration the loop is decided by the test of the
    difference alone. *)
Lemma loop_condition_after (args : Args)
    (src_word2ind trg_word2ind : gmap string nat)
    (test_lines : option (list (list string))) (x z : matrix)
    (src trg : list nat) (n : nat) (st : loop_state) :
  (1 <= n)%nat ->
  iterations xp n args src_word2ind trg_word2ind test_lines x z
    (initial_state src trg) = Ok st ->
  loop_condition args st
  = ge_float (Fsub (objective st) (prev_objective st)) (threshold args).
Proof.
  intros Hn Hst. apply iterations_it in Hst. cbn [it initial_state] in Hst.
  unfold loop_condition.
  replace (Nat.eqb (it st) 1) with false by (symmetry; apply Nat.eqb_neq; lia).
  reflexivity.
Qed.

(** The loop halts in the state in which its condition is false. *)
Lemma loop_halts (args : Args) (src_word2ind trg_word2ind : gmap string nat)
    (test_lines : option (list (list string))) (x z : matrix) (st : loop_state) :
  loop_condition args st = false <->
  forall fuel,
    training_loop xp fuel args src_word2ind trg_word2ind test_lines x z st
    = Ok (Converged st).
Proof.
  split.
  - intros H fuel. destruct fuel; cbn [training_loop]; rewrite H; reflexivity.
  - intros H. specialize (H 0%nat). cbn [training_loop] in H.
    destruct (loop_condition args st); [discriminate | reflexivity].
Qed.

(** For a threshold that is not NaN, [a >= t] is false exactly when
    [a < t]. *)
Lemma lt_float_ge_float (a : F) (t : pyfloat) :
  t <> NaN -> (lt_float a t = true <-> ge_float a t = false).
Proof.
  intros Ht. destruct t as [v| | |]; cbn [lt_float ge_float].
  - rewrite Fleb_ltb. rewrite negb_false_iff. reflexivity.
  - split; reflexivity.
  - split; discriminate.
  - contradiction.
Qed.

(** C1 (amended).  The loop executes its first iteration whatever the
    threshold (the iteration counter is 1, the objectives are -100); after
    [n >= 1] completed iterations it halts exactly when the test
    [objective - prev_objective >= threshold] of line 200 is false, and
    iterates once more when it is true.  For a threshold that is not NaN
    (the objectives being numbers) the test is false exactly when
    [objective - prev_objective < threshold]. *)
Theorem convergence_rule (args : Args)
    (src_word2ind trg_word2ind : gmap string nat)
    (test_lines : option (list (list string))) (x z : matrix)
    (src trg : list nat) (n : nat) (st : loop_state) :
  (1 <= n)%nat ->
  iterations xp n args src_word2ind trg_word2ind test_lines x z
    (initial_state src trg) = Ok st ->
  (loop_condition args (initial_state src trg) = true
   /\ prev_objective (initial_state src trg) = sentinel
   /\ forall fuel,
        training_loop xp (S fuel) args src_word2ind trg_word2ind test_lines x z
          (initial_state src trg)
        = let* st1 := iteration xp args src_word2ind trg_word2ind test_lines x z
                        (initial_state src trg) in
          training_loop xp fuel args src_word2ind trg_word2ind test_lines x z st1)
  /\ (ge_float (Fsub (objective st) (prev_objective st)) (threshold args) = false
      <-> forall fuel,
            training_loop xp fuel args src_word2ind trg_word2ind test_lines x z st
            = Ok (Converged st))
  /\ (ge_float (Fsub (objective st) (prev_objective st)) (threshold args) = true
      <-> forall fuel,
            training_loop xp (S fuel) args src_word2ind trg_word2ind test_lines x z st
            = let* st' := iteration xp args src_word2ind trg_word2ind test_lines x z st in
              training_loop xp fuel args src_word2ind trg_word2ind test_lines x z st')
  /\ (threshold args <> NaN ->
      (lt_float (Fsub (objective st) (prev_objective st)) (threshold args) = true
       <-> forall fuel,
             training_loop xp fuel args src_word2ind trg_word2ind test_lines x z st
             = Ok (Converged st))).
Proof.
  intros Hn Hst.
  pose proof (loop_condition_after args src_word2ind trg_word2ind test_lines x z
                src trg n st Hn Hst) as Hcond.
  split; [|split; [|split]].
  - split; [reflexivity|]. split; [reflexivity|]. intros fuel. reflexivity.
  - rewrite <- Hcond. apply loop_halts.
  - rewrite <- Hcond. split.
    + intros H fuel. cbn [training_loop]. rewrite H. reflexivity.
    + intros H. specialize (H 0%nat). cbn [training_loop] in H.
      destruct (loop_condition args st); [reflexivity|].
      destruct (iteration xp args src_word2ind trg_word2ind test_lines x z st)
        as [st'|e] eqn:E; cbn [bind] in H; [|discriminate].
      cbn [training_loop] in H.
      destruct (loop_condition args st'); [discriminate|].
      injection H as H. apply iteration_it in E. rewrite <- H in E. lia.
  - intros Hnan. rewrite (lt_float_ge_float _ _ Hnan), <- Hcond. apply loop_halts.
Qed.

End Convergence.

Lemma demo_state_ok :
  iterations demo_backend 1 (set_self_learning demo_args true)
    (word2ind ["un"; "deux"; "trois"]) (word2ind ["one"; "two"; "three"])
    None x_demo z_demo (initial_state [0; 1] [0; 1]) = Ok demo_state.
Proof.
  unfold demo_state.
  destruct (iterations demo_backend 1 _ _ _ _ _ _ _) as [st|e] eqn:E.
  - reflexivity.
  - vm_compute in E. discriminate E.
Qed.

Lemma convergence_rule_witness :
  let args := set_self_learning demo_args true in
  let s2i := word2ind ["un"; "deux"; "trois"] in
  let t2i := word2ind ["one"; "two"; "three"] in
  (loop_condition args (initial_state [0; 1] [0; 1]) = true
   /\ prev_objective (initial_state [0; 1] [0; 1]) = sentinel
   /\ forall fuel,
        training_loop demo_backend (S fuel) args s2i t2i None x_demo z_demo
          (initial_state [0; 1] [0; 1])
        = let* st1 := iteration demo_backend args s2i t2i None x_demo z_demo
                        (initial_state [0; 1] [0; 1]) in
          training_loop demo_backend fuel args s2i t2i None x_demo z_demo st1)
  /\ (ge_float (Fsub (objective demo_state) (prev_objective demo_state)) (threshold args)
      = false
      <-> forall fuel,
            training_loop demo_backend fuel args s2i t2i None x_demo z_demo demo_state
            = Ok (Converged demo_state))
  /\ (ge_float (Fsub (objective demo_state) (prev_objective demo_state)) (threshold args)
      = true
      <-> forall fuel,
            training_loop demo_backend (S fuel) args s2i t2i None x_demo z_demo demo_state
            = let* st' := iteration demo_backend args s2i t2i None x_demo z_demo demo_state in
              training_loop demo_backend fuel args s2i t2i None x_demo z_demo st')
  /\ (threshold args <> NaN ->
      (lt_float (Fsub (objective demo_state) (prev_objective demo_state)) (threshold args)
       = true
       <-> forall fuel,
             training_loop demo_backend fuel args s2i t2i None x_demo z_demo demo_state
             = Ok (Converged demo_state))).
Proof.
  intros args s2i t2i.
  apply (convergence_rule demo_backend args s2i t2i None x_demo z_demo
           [0; 1] [0; 1] 1 demo_state).
  - lia.
  - exact demo_state_ok.
Defined.

(** C1, as stated, fails for [--threshold nan], which [type=float]
    accepts: after the first iteration of the demonstration run the test
    of line 200 is false and the loop halts, although the difference of the
    objectives is not less than the threshold. *)
Lemma nan_threshold_halts_the_loop :
  let args := set_threshold (set_self_learning demo_args true) NaN in
  let s2i := word2ind ["un"; "deux"; "trois"] in
  let t2i := word2ind ["one"; "two"; "three"] in
  exists st,
    iterations demo_backend 1 args s2i t2i None x_demo z_demo
      (initial_state [0; 1] [0; 1]) = Ok st
    /\ (forall fuel,
          training_loop demo_backend fuel args s2i t2i None x_demo z_demo st
          = Ok (Converged st))
    /\ lt_float (Fsub (objective st) (prev_objective st)) (threshold args) = false.
Proof.
  intros args s2i t2i.
  destruct (iterations demo_backend 1 args s2i t2i None x_demo z_demo
              (initial_state [0; 1] [0; 1])) as [st|e] eqn:E.
  - exists st. split; [reflexivity|]. split; [|reflexivity].
    apply loop_halts.
    rewrite (loop_condition_after demo_backend args s2i t2i None x_demo z_demo
               [0; 1] [0; 1] 1 st (le_n 1) E).
    reflexivity.
  - vm_compute in E. discriminate E.
Qed.

(** The demonstration run without self-learning: the objective stays at
    -100, the difference 0 is below the threshold and the loop halts after
    its first iteration.  With self-learning the first iteration raises the
    objective from -100 to 4/3. *)
Example training_loop_demo :
  match training_loop demo_backend 5 demo_args
          (word2ind ["un"; "deux"; "trois"]) (word2ind ["one"; "two"; "three"])
          None x_demo z_demo (initial_state [0; 1] [0; 1]) with
  | Ok (Converged st) =>
      it st = 2 /\ src_indices st = [0; 1] /\ trg_indices st = [0; 1]
      /\ this (objective st) = (-100 # 1)%Q
      /\ this (objective demo_state) = (4 # 3)%Q
      /\ this (prev_objective demo_state) = (-100 # 1)%Q
  | _ => False
  end.
Proof. vm_compute. repeat split; reflexivity. Qed.

(** ** The argument check *)

Section ArgumentCheck.
Context {K : Scalar}.
Variable xp : Backend.
Variable env : Env.

(** C8.  When de-whitening of the source or of the target is requested
    without whitening, [main] prints the error and exits with status -1:
    that is the whole run, no embedding is read and the loop is not
    entered. *)
Theorem dewhitening_requires_whitening (fuel : nat) (args : Args) :
  src_dewhiten args <> None \/ trg_dewhiten args <> None ->
  whiten args = false ->
  main xp env fuel args
  = ([Stderr "ERROR: De-whitening requires whitening first"],
     Raise (SystemExit (-1)))
  /\ (forall path, ~ In (ReadEmbeddings path) (fst (main xp env fuel args)))
  /\ (forall code, snd (main xp env fuel args) = Raise (SystemExit code) -> code <> 0%Z).
Proof.
  intros Hde Hwh.
  assert (Hmain : main xp env fuel args
                  = ([Stderr "ERROR: De-whitening requires whitening first"],
                     Raise (SystemExit (-1)))).
  { unfold main, prepare, check_arguments. rewrite Hwh.
    assert (Hb : bool_decide (src_dewhiten args <> None)
                 || bool_decide (trg_dewhiten args <> None) = true).
    { apply orb_true_iff. destruct Hde as [H|H]; [left|right];
        apply bool_decide_eq_true; exact H. }
    rewrite Hb. reflexivity. }
  split; [exact Hmain|]. rewrite Hmain. split.
  - intros path [H|[]]. discriminate H.
  - intros code H. simpl in H. injection H as <-. discriminate.
Qed.

End ArgumentCheck.

Lemma dewhitening_requires_whitening_witness :
  let args := set_src_dewhiten demo_args (Some dewhiten_src) in
  main demo_backend demo_env 5 args
  = ([Stderr "ERROR: De-whitening requires whitening first"],
     Raise (SystemExit (-1)))
  /\ (forall path, ~ In (ReadEmbeddings path) (fst (main demo_backend demo_env 5 args)))
  /\ (forall code, snd (main demo_backend demo_env 5 args) = Raise (SystemExit code) ->
                   code <> 0%Z).
Proof.
  intros args.
  apply (dewhitening_requires_whitening demo_backend demo_env 5 args).
  - left. discriminate.
  - reflexivity.
Defined.

(** ** The LAPMOD branch *)

Section Lapmod.
Context {K : Scalar}.
Variable xp : Backend.

Lemma n_similar_undefined (args : Args) :
  getattr_int args "n_similar" = Raise (AttributeError "n_similar").
Proof. unfold getattr_int. reflexivity. Qed.

(** C10 (amended).  With LAPMOD enabled the dictionary-induction step
    returns no dictionary.  Line 269 reads [args.n_similar], which the
    parser does not define, and raises [AttributeError], unless
    [--lap-rank] is given and the allocation of line 266 fails before it:
    with [ValueError] for a negative rank, with the exception of the
    allocation for a rank that cannot be allocated.  With self-learning no
    iteration completes. *)
Theorem lapmod_induction_fails (args : Args) (x z xw zw : matrix) :
  lapmod args = true ->
  induce_dictionary xp args x z xw zw
  = match lap_rank args with
    | Some r => if (r <? 0)%Z then Raise ValueError
                else match alloc_error xp r with
                     | Some e => Raise e
                     | None => Raise (AttributeError "n_similar")
                     end
    | None => Raise (AttributeError "n_similar")
    end
  /\ (forall ind, induce_dictionary xp args x z xw zw <> Ok ind)
  /\ (self_learning args = true ->
      forall src_word2ind trg_word2ind test_lines x' z' st st',
        iteration xp args src_word2ind trg_word2ind test_lines x' z' st <> Ok st').
Proof.
  intros Hlap.
  assert (H : forall x z xw zw,
             induce_dictionary xp args x z xw zw
             = match lap_rank args with
               | Some r => if (r <? 0)%Z then Raise ValueError
                           else match alloc_error xp r with
                                | Some e => Raise e
                                | None => Raise (AttributeError "n_similar")
                                end
               | None => Raise (AttributeError "n_similar")
               end).
  { intros x0 z0 xw0 zw0. unfold induce_dictionary, lapmod_induction.
    rewrite Hlap, n_similar_undefined.
    destruct (lap_rank args) as [r|]; [|reflexivity].
    unfold full. destruct (r <? 0)%Z; [reflexivity|].
    destruct (alloc_error xp r); reflexivity. }
  assert (Hno : forall x z xw zw ind, induce_dictionary xp args x z xw zw <> Ok ind).
  { intros x0 z0 xw0 zw0 ind. rewrite H.
    destruct (lap_rank args) as [r|]; [|discriminate].
    destruct (r <? 0)%Z; [discriminate|].
    destruct (alloc_error xp r); discriminate. }
  split; [apply H|]. split; [apply Hno|].
  intros Hsl s2i t2i tl x' z' st st' E.
  destruct (iteration_inv xp _ _ _ _ _ _ _ _ E) as (xw' & zw' & _ & _ & _ & Hind).
  rewrite Hsl in Hind. destruct Hind as (ind & Hind & _).
  exact (Hno _ _ _ _ _ Hind).
Qed.

End Lapmod.

Lemma lapmod_induction_fails_witness :
  let args := set_lapmod (set_self_learning demo_args true) true in
  induce_dictionary demo_backend args x_demo z_demo z_demo z_demo
  = match lap_rank args with
    | Some r => if (r <? 0)%Z then Raise ValueError
                else match alloc_error demo_backend r with
                     | Some e => Raise e
                     | None => Raise (AttributeError "n_similar")
                     end
    | None => Raise (AttributeError "n_similar")
    end
  /\ (forall ind, induce_dictionary demo_backend args x_demo z_demo z_demo z_demo <> Ok ind)
  /\ (self_learning args = true ->
      forall src_word2ind trg_word2ind test_lines x' z' st st',
        iteration demo_backend args src_word2ind trg_word2ind test_lines x' z' st
        <> Ok st').
Proof.
  intros args.
  apply (lapmod_induction_fails demo_backend args x_demo z_demo z_demo z_demo).
  reflexivity.
Defined.

(** C10, as stated, fails for a negative rank: with [--lap-rank -1] the
    allocation [xp.full(n_rows, -100)] of line 266 raises [ValueError]
    before [args.n_similar] is read. *)
Lemma lapmod_negative_rank_is_a_value_error :
  induce_dictionary demo_backend
    (set_lap_rank (set_lapmod (set_self_learning demo_args true) true) (Some (-1)%Z))
    x_demo z_demo z_demo z_demo
  = Raise ValueError
  /\ induce_dictionary demo_backend
       (set_lap_rank (set_lapmod (set_self_learning demo_args true) true) (Some (-1)%Z))
       x_demo z_demo z_demo z_demo
     <> Raise (AttributeError "n_similar").
Proof. split; [reflexivity | discriminate]. Qed.

(** ** Vocabularies and coverage *)

Section Vocabulary.

Lemma word2ind_from_lookup (ws : list string) (i : nat) (m : gmap string nat)
    (w : string) (j : nat) :
  word2ind_from i ws m !! w = Some j ->
  m !! w = Some j \/ ((i <= j)%nat /\ ws !! (j - i)%nat = Some w).
Proof.
  revert i m. induction ws as [|w0 ws IH]; intros i m H; simpl in H.
  - left. exact H.
  - destruct (IH _ _ H) as [H1|[H1 H2]].
    + destruct (decide (w0 = w)) as [-> | Hne].
      * rewrite lookup_insert_eq in H1. injection H1 as <-.
        right. split; [lia|]. rewrite Nat.sub_diag. reflexivity.
      * rewrite lookup_insert_ne in H1 by exact Hne. left. exact H1.
    + right. split; [lia|].
      replace (j - i)%nat with (S (j - S i)) by lia. exact H2.
Qed.

Lemma word2ind_from_is_Some (ws : list string) (i : nat) (m : gmap string nat)
    (w : string) :
  is_Some (word2ind_from i ws m !! w) <-> w ∈ ws \/ is_Some (m !! w).
Proof.
  revert i m. induction ws as [|w0 ws IH]; intros i m; simpl.
  - split; [intros H; right; exact H | intros [H|H]; [inversion H | exact H]].
  - rewrite IH, lookup_insert_is_Some, elem_of_cons.
    destruct (decide (w0 = w)) as [-> | Hne]; intuition congruence.
Qed.

(** The index of a word is a position at which the word stands. *)
Lemma word2ind_lookup (ws : list string) (w : string) (j : nat) :
  word2ind ws !! w = Some j -> ws !! j = Some w.
Proof.
  intros H. destruct (word2ind_from_lookup ws 0 ∅ w j H) as [H1|[_ H2]].
  - rewrite lookup_empty in H1. discriminate.
  - rewrite Nat.sub_0_r in H2. exact H2.
Qed.

(** The words with an index are the words of the vocabulary. *)
Lemma word2ind_is_Some (ws : list string) (w : string) :
  is_Some (word2ind ws !! w) <-> w ∈ ws.
Proof.
  unfold word2ind. rewrite word2ind_from_is_Some, lookup_empty.
  split; [intros [H|H]; [exact H | destruct H; discriminate] | intros H; left; exact H].
Qed.

(** Two words with the same index are the same word. *)
Lemma word2ind_inj (ws : list string) (w w' : string) (j : nat) :
  word2ind ws !! w = Some j -> word2ind ws !! w' = Some j -> w = w'.
Proof.
  intros H H'. apply word2ind_lookup in H. apply word2ind_lookup in H'. congruence.
Qed.

Lemma elem_of_known_words (sw tw : list string) (lines : list (string * string))
    (w : string) :
  w ∈ known_words sw tw lines <-> exists t, (w, t) ∈ lines /\ w ∈ sw /\ t ∈ tw.
Proof.
  unfold known_words. rewrite elem_of_list_to_set.
  change (map fst) with (fmap (M:=list) (@fst string string)).
  rewrite list_elem_of_fmap. split.
  - intros [[w' t] [-> H]]. apply list_elem_of_filter in H. simpl in *.
    exists t. tauto.
  - intros [t (H1 & H2 & H3)]. exists (w, t). split; [reflexivity|].
    apply list_elem_of_filter. simpl. tauto.
Qed.

Lemma elem_of_source_words (lines : list (string * string)) (w : string) :
  w ∈ source_words lines <-> exists t, (w, t) ∈ lines.
Proof.
  unfold source_words. rewrite elem_of_list_to_set.
  change (map fst) with (fmap (M:=list) (@fst string string)).
  rewrite list_elem_of_fmap. split.
  - intros [[w' t] [-> H]]. exists t. exact H.
  - intros [t H]. exists (w, t). split; [reflexivity | exact H].
Qed.

(** What the variables of lines 162-164 hold after the lines [pre] of
    the file. *)
Definition reference_invariant (sw tw : list string)
    (pre : list (string * string)) (r : reference) : Prop :=
  (forall w, w ∈ vocab r <-> exists t, (w, t) ∈ pre /\ w ∈ sw /\ t ∈ tw)
  /\ (forall w, w ∈ oov r ∪ vocab r <-> exists t, (w, t) ∈ pre)
  /\ (forall i, is_Some (src2trg r !! i)
                <-> exists w, w ∈ vocab r /\ word2ind sw !! w = Some i)
  /\ size (src2trg r) = size (vocab r).

Lemma reference_invariant_step (sw tw : list string)
    (pre : list (string * string)) (r : reference) (l : string * string) :
  reference_invariant sw tw pre r ->
  reference_invariant sw tw (pre ++ [l])
    (read_entry (word2ind sw) (word2ind tw) r l).
Proof.
  intros (Hv & Ho & Hd & Hs). destruct l as [src trg]. unfold read_entry.
  destruct (word2ind sw !! src) as [si|] eqn:Es.
  - destruct (word2ind tw !! trg) as [ti|] eqn:Et.
    + assert (Hsrc : src ∈ sw) by (apply word2ind_is_Some; eauto).
      assert (Htrg : trg ∈ tw) by (apply word2ind_is_Some; eauto).
      repeat split; cbn [vocab oov src2trg].
      * intros H. apply elem_of_union in H. destruct H as [H|H].
        -- apply Hv in H. destruct H as [t (H1 & H2 & H3)].
           exists t. rewrite elem_of_app. tauto.
        -- apply elem_of_singleton in H. subst w. exists trg.
           rewrite elem_of_app, list_elem_of_singleton. tauto.
      * intros [t (H1 & H2 & H3)]. apply elem_of_app in H1. destruct H1 as [H1|H1].
        -- apply elem_of_union. left. apply Hv. eauto.
        -- apply list_elem_of_singleton in H1. injection H1 as -> ->.
           apply elem_of_union. right. apply elem_of_singleton. reflexivity.
      * intros H.
        assert (H' : w ∈ oov r ∪ vocab r \/ w = src) by set_solver.
        destruct H' as [H' | ->].
        -- apply Ho in H'. destruct H' as [t H']. exists t.
           rewrite elem_of_app. tauto.
        -- exists trg. rewrite elem_of_app, list_elem_of_singleton. tauto.
      * intros [t H]. apply elem_of_app in H. destruct H as [H|H].
        -- assert (H' : w ∈ oov r ∪ vocab r) by (apply Ho; eauto). set_solver.
        -- apply list_elem_of_singleton in H. injection H as -> ->. set_solver.
      * intros H. apply lookup_insert_is_Some in H. destruct H as [<- | [Hne H]].
        -- exists src. split; [set_solver | exact Es].
        -- apply Hd in H. destruct H as [w [H1 H2]]. exists w. split; [set_solver | exact H2].
      * intros [w [H1 H2]]. apply lookup_insert_is_Some.
        destruct (decide (si = i)) as [-> | Hne]; [left; reflexivity|].
        right. split; [exact Hne|]. apply Hd. exists w. split; [|exact H2].
        apply elem_of_union in H1. destruct H1 as [H1|H1]; [exact H1|].
        apply elem_of_singleton in H1. subst w. congruence.
      * destruct (decide (src ∈ vocab r)) as [Hin|Hnin].
        -- assert (Hsome : is_Some (src2trg r !! si)) by (apply Hd; eauto).
           rewrite map_size_insert_Some by exact Hsome.
           rewrite Hs. f_equal. set_solver.
        -- assert (Hnone : src2trg r !! si = None).
           { destruct (src2trg r !! si) as [y|] eqn:Ey; [|reflexivity].
             exfalso. apply Hnin.
             destruct (proj1 (Hd si) (mk_is_Some _ _ Ey)) as [w [H1 H2]].
             rewrite (word2ind_inj sw src w si Es H2). exact H1. }
           rewrite map_size_insert_None by exact Hnone.
           rewrite size_union by set_solver.
           rewrite size_singleton, Hs. lia.
    + assert (Htrg : trg ∉ tw).
      { intros H. apply word2ind_is_Some in H. rewrite Et in H.
        destruct H; discriminate. }
      repeat split; cbn [vocab oov src2trg]; try (apply Hd); try exact Hs.
      * intros H. apply Hv in H. destruct H as [t H]. exists t.
        rewrite elem_of_app. tauto.
      * intros [t (H1 & H2 & H3)]. apply elem_of_app in H1. destruct H1 as [H1|H1].
        -- apply Hv. eauto.
        -- apply list_elem_of_singleton in H1. injection H1 as -> ->. contradiction.
      * intros H.
        assert (H' : w ∈ oov r ∪ vocab r \/ w = src) by set_solver.
        destruct H' as [H' | ->].
        -- apply Ho in H'. destruct H' as [t H']. exists t.
           rewrite elem_of_app. tauto.
        -- exists trg. rewrite elem_of_app, list_elem_of_singleton. tauto.
      * intros [t H]. apply elem_of_app in H. destruct H as [H|H].
        -- assert (H' : w ∈ oov r ∪ vocab r) by (apply Ho; eauto). set_solver.
        -- apply list_elem_of_singleton in H. injection H as -> ->. set_solver.
  - assert (Hsrc : src ∉ sw).
    { intros H. apply word2ind_is_Some in H. rewrite Es in H.
      destruct H; discriminate. }
    repeat split; cbn [vocab oov src2trg]; try (apply Hd); try exact Hs.
    * intros H. apply Hv in H. destruct H as [t H]. exists t.
      rewrite elem_of_app. tauto.
    * intros [t (H1 & H2 & H3)]. apply elem_of_app in H1. destruct H1 as [H1|H1].
      -- apply Hv. eauto.
      -- apply list_elem_of_singleton in H1. injection H1 as -> ->. contradiction.
    * intros H.
      assert (H' : w ∈ oov r ∪ vocab r \/ w = src) by set_solver.
      destruct H' as [H' | ->].
      -- apply Ho in H'. destruct H' as [t H']. exists t.
         rewrite elem_of_app. tauto.
      -- exists trg. rewrite elem_of_app, list_elem_of_singleton. tauto.
    * intros [t H]. apply elem_of_app in H. destruct H as [H|H].
      -- assert (H' : w ∈ oov r ∪ vocab r) by (apply Ho; eauto). set_solver.
      -- apply list_elem_of_singleton in H. injection H as -> ->. set_solver.
Qed.

Lemma reference_invariant_fold (sw tw : list string)
    (lines pre : list (string * string)) (r : reference) :
  reference_invariant sw tw pre r ->
  reference_invariant sw tw (pre ++ lines)
    (fold_left (read_entry (word2ind sw) (word2ind tw)) lines r).
Proof.
  revert pre r. induction lines as [|l lines IH]; intros pre r H; simpl.
  - rewrite app_nil_r. exact H.
  - replace (pre ++ l :: lines) with ((pre ++ [l]) ++ lines)
      by (rewrite <- app_assoc; reflexivity).
    apply IH. apply reference_invariant_step. exact H.
Qed.

Lemma reference_invariant_read (sw tw : list string) (lines : list (string * string)) :
  reference_invariant sw tw lines (read_reference (word2ind sw) (word2ind tw) lines).
Proof.
  apply (reference_invariant_fold sw tw lines [] empty_reference).
  unfold reference_invariant, empty_reference. cbn [vocab oov src2trg].
  repeat split.
  - intros H. set_solver.
  - intros [t (H & _)]. inversion H.
  - intros H. set_solver.
  - intros [t H]. inversion H.
  - intros [y H]. rewrite lookup_empty in H. discriminate.
  - intros [w [H _]]. set_solver.
Qed.

End Vocabulary.

Section Coverage.
Context {K : Scalar}.

(** C9.  For a reference dictionary with [k] known source words and [m]
    out-of-vocabulary source words the reported coverage is [k / (k + m)];
    a dictionary without any line has neither, and the division raises
    [ZeroDivisionError]. *)
Theorem coverage_arithmetic (src_words trg_words : list string)
    (lines : list (string * string)) :
  coverage (word2ind src_words) (word2ind trg_words) lines
  = if Nat.eqb (size (known_words src_words trg_words lines)
                + size (oov_words src_words trg_words lines)) 0
    then Raise ZeroDivisionError
    else Ok (Fdiv (F_of_nat (size (known_words src_words trg_words lines)))
                  (F_of_nat (size (known_words src_words trg_words lines)
                             + size (oov_words src_words trg_words lines)))).
Proof.
  destruct (reference_invariant_read src_words trg_words lines) as (Hv & Ho & _ & Hs).
  unfold coverage, coverage_of.
  set (r := read_reference (word2ind src_words) (word2ind trg_words) lines) in *.
  assert (Hvocab : vocab r = known_words src_words trg_words lines).
  { apply set_eq. intros w. rewrite Hv, elem_of_known_words. reflexivity. }
  assert (Hoov : oov r ∖ vocab r = oov_words src_words trg_words lines).
  { apply set_eq. intros w. unfold oov_words.
    rewrite !elem_of_difference, elem_of_source_words, <- Hvocab, <- Ho. set_solver. }
  rewrite Hoov, Hs, Hvocab. reflexivity.
Qed.

End Coverage.

(** The coverage of a dictionary of four lines on the demonstration
    vocabularies: [un] and [deux] are known ([deux] through its second
    translation), [quatre] and [trois] (whose only translation is not a
    target word) are out of vocabulary. *)
Example coverage_demo :
  match coverage (K:=Qc_scalar) (word2ind ["un"; "deux"; "trois"])
          (word2ind ["one"; "two"; "three"])
          [("un", "one"); ("deux", "zwei"); ("deux", "two");
           ("quatre", "four"); ("trois", "drei")] with
  | Ok c => this c = (1 # 2)%Q
  | Raise _ => False
  end.
Proof. vm_compute. reflexivity. Qed.

Example coverage_of_empty_dictionary :
  coverage (K:=Qc_scalar) (word2ind ["un"]) (word2ind ["one"]) []
  = Raise ZeroDivisionError.
Proof. vm_compute. reflexivity. Qed.

(* ===================================================================== *)
(** * Further properties of the code *)
(* ===================================================================== *)

(** ** Shapes and errors of the array operations *)

Section MappingShapes.
Context {K : Scalar}.
Variable xp : Backend.

Lemma dot_inv (a b c : matrix) :
  dot a b = Ok c -> c = mmul a b /\ ncols a = nrows b.
Proof.
  unfold dot. destruct (Nat.eqb (ncols a) (nrows b)) eqn:E; [|discriminate].
  intros H. injection H as <-. apply Nat.eqb_eq in E. split; [reflexivity | exact E].
Qed.

Lemma dot_nrows (a b c : matrix) : dot a b = Ok c -> nrows c = nrows a.
Proof. intros H. apply dot_inv in H. destruct H as [-> _]. apply nrows_mmul. Qed.

Lemma scale_cols_nrows (m : matrix) (v : list F) (c : matrix) :
  scale_cols m v = Ok c -> nrows c = nrows m.
Proof.
  unfold scale_cols.
  destruct (Nat.eqb (length v) (ncols m));
    [|destruct (Nat.eqb (length v) 1); [|discriminate]];
    intros H; injection H as <-; apply nrows_tabulate.
Qed.

Lemma slice_cols_nrows (m : matrix) (k : nat) : nrows (slice_cols m k) = nrows m.
Proof. unfold nrows, slice_cols. simpl. apply length_map. Qed.

Lemma dewhiten_nrows (choice : option dewhiten_choice) (wx1 wz1 : option matrix)
    (wx2 wz2 m c : matrix) :
  dewhiten xp choice wx1 wz1 wx2 wz2 m = Ok c -> nrows c = nrows m.
Proof.
  unfold dewhiten. destruct choice as [[|]|].
  - destruct (dewhitening xp "wx1" wx1 wx2); [|discriminate]. cbn [bind]. apply dot_nrows.
  - destruct (dewhitening xp "wz1" wz1 wz2); [|discriminate]. cbn [bind]. apply dot_nrows.
  - intros H. injection H as <-. reflexivity.
Qed.

(** X1.  Whatever the policy, a mapping that is returned has one row for
    each row of the input: [xw] has the row count of [x] and [zw] that of
    [z]. *)
Theorem update_mapping_preserves_rows (args : Args) (x z : matrix)
    (src_indices trg_indices : list nat) (xw zw : matrix) :
  update_mapping xp args x z src_indices trg_indices = Ok (xw, zw) ->
  nrows xw = nrows x /\ nrows zw = nrows z.
Proof.
  unfold update_mapping. destruct (orthogonal args).
  - unfold orthogonal_mapping.
    destruct (orthogonal_w xp x z src_indices trg_indices) as [w|e]; [|discriminate].
    cbn [bind]. destruct (dot x w) as [c|e] eqn:E; [|discriminate].
    cbn [bind]. intros H. injection H as <- <-.
    split; [apply (dot_nrows _ _ _ E) | reflexivity].
  - destruct (unconstrained args).
    + unfold unconstrained_mapping.
      destruct (take_rows x src_indices) as [xd|e]; [|discriminate]. cbn [bind].
      destruct (dot (transpose xd) xd) as [g|e]; [|discriminate]. cbn [bind].
      destruct (inv xp g) as [gi|e]; [|discriminate]. cbn [bind].
      destruct (dot gi (transpose xd)) as [pi|e]; [|discriminate]. cbn [bind].
      destruct (take_rows z trg_indices) as [zd|e]; [|discriminate]. cbn [bind].
      destruct (dot pi zd) as [w|e]; [|discriminate]. cbn [bind].
      destruct (dot x w) as [c|e] eqn:E; [|discriminate]. cbn [bind].
      intros H. injection H as <- <-.
      split; [apply (dot_nrows _ _ _ E) | reflexivity].
    + unfold advanced_mapping.
      destruct (if whiten args then _ else _) as [[[[wx1 wz1] xw1] zw1]|e] eqn:E1;
        [|discriminate].
      assert (H1 : nrows xw1 = nrows x /\ nrows zw1 = nrows z).
      { destruct (whiten args).
        - destruct (take_rows x src_indices) as [xd|e]; [|discriminate].
          cbn [bind] in E1.
          destruct (whitening_transformation xp xd) as [w1|e]; [|discriminate].
          cbn [bind] in E1.
          destruct (take_rows z trg_indices) as [zd|e]; [|discriminate].
          cbn [bind] in E1.
          destruct (whitening_transformation xp zd) as [w2|e]; [|discriminate].
          cbn [bind] in E1.
          destruct (dot x w1) as [a|e] eqn:Ea; [|discriminate]. cbn [bind] in E1.
          destruct (dot z w2) as [b|e] eqn:Eb; [|discriminate]. cbn [bind] in E1.
          injection E1 as _ _ <- <-.
          split; [apply (dot_nrows _ _ _ Ea) | apply (dot_nrows _ _ _ Eb)].
        - injection E1 as _ _ <- <-. split; reflexivity. }
      destruct H1 as [Hx1 Hz1]. cbn [bind].
      destruct (take_rows xw1 src_indices) as [xd|e]; [|discriminate]. cbn [bind].
      destruct (take_rows zw1 trg_indices) as [zd|e]; [|discriminate]. cbn [bind].
      destruct (dot (transpose xd) zd) as [c|e]; [|discriminate]. cbn [bind].
      destruct (svd xp c) as [[wx2 s] wz2_t].
      destruct (dot xw1 wx2) as [xw2|e] eqn:E2; [|discriminate]. cbn [bind].
      destruct (dot zw1 (transpose wz2_t)) as [zw2|e] eqn:E3; [|discriminate]. cbn [bind].
      destruct (scale_cols xw2 _) as [xw3|e] eqn:E4; [|discriminate]. cbn [bind].
      destruct (scale_cols zw2 _) as [zw3|e] eqn:E5; [|discriminate]. cbn [bind].
      destruct (dewhiten xp (src_dewhiten args) wx1 wz1 wx2 (transpose wz2_t) xw3)
        as [xw4|e] eqn:E6; [|discriminate]. cbn [bind].
      destruct (dewhiten xp (trg_dewhiten args) wx1 wz1 wx2 (transpose wz2_t) zw3)
        as [zw4|e] eqn:E7; [|discriminate]. cbn [bind].
      apply dot_nrows in E2, E3. apply scale_cols_nrows in E4, E5.
      apply dewhiten_nrows in E6, E7.
      destruct (0 <? dim_reduction args)%Z; intros H; injection H as <- <-;
        rewrite ?slice_cols_nrows; split; congruence.
Qed.

(** X2.  Indexing by rows: the rows are returned when every index is a
    row of the array, and [IndexError] is raised otherwise. *)
Theorem take_rows_index_error (m : matrix) (indices : list nat) :
  take_rows m indices
  = if forallb (fun i => i <? nrows m) indices
    then Ok (gather m indices)
    else Raise IndexError.
Proof.
  destruct (forallb (fun i => i <? nrows m) indices) eqn:E.
  - apply take_rows_ok. apply List.Forall_forall. intros i Hi.
    rewrite forallb_forall in E. apply Nat.ltb_lt. apply E. exact Hi.
  - unfold take_rows. induction indices as [|i indices IH]; [discriminate|].
    simpl in E. simpl mapM.
    destruct (i <? nrows m) eqn:Ei.
    + apply Nat.ltb_lt in Ei. unfold nrows in Ei.
      destruct (nth_error (mrows m) i) as [r|] eqn:En.
      * cbn [bind]. simpl in E. specialize (IH E).
        destruct (mapM _ indices) as [rs|e]; [discriminate|].
        cbn [bind] in *. exact IH.
      * apply nth_error_None in En. lia.
    + apply Nat.ltb_ge in Ei. unfold nrows in Ei.
      destruct (nth_error (mrows m) i) as [r|] eqn:En; [|reflexivity].
      assert (Hlt : (i < length (mrows m))%nat)
        by (apply nth_error_Some; congruence).
      lia.
Qed.

End MappingShapes.

Lemma update_mapping_preserves_rows_witness :
  nrows z_demo = nrows x_demo /\ nrows z_demo = nrows z_demo.
Proof.
  apply (update_mapping_preserves_rows demo_backend demo_args x_demo z_demo
           [0; 1] [0; 1] z_demo z_demo).
  apply mapping_eqb_eq. vm_compute. reflexivity.
Defined.

(** ** What the solvers compute *)

Section SolverProperties.
Context {K : Scalar}.
Variable xp : Backend.

(** X3.  The orthogonal policy keeps the inner products of the source
    embeddings: [xw . xw^t = x . x^t]. *)
Theorem orthogonal_mapping_preserves_inner_products
    (x z : matrix) (src_indices trg_indices : list nat) :
  wf x -> wf z -> ncols x = ncols z ->
  valid_dictionary x z src_indices trg_indices ->
  svd_contract xp (mmul (transpose (gather z trg_indices)) (gather x src_indices)) ->
  exists xw,
    orthogonal_mapping xp x z src_indices trg_indices = Ok (xw, z)
    /\ mmul xw (transpose xw) = mmul x (transpose x).
Proof.
  intros Hx Hz Hd Hdict Hsvd.
  unfold orthogonal_mapping, orthogonal_w.
  rewrite (procrustes_matrix_ok x z _ _ Hdict). cbn [bind].
  unfold svd_contract in Hsvd.
  destruct (svd xp _) as [[u s] vt].
  destruct Hsvd as (Hu & Hvt & _ & _).
  autorewrite with shape in Hu, Hvt. rewrite !ncols_gather in *.
  rewrite <- Hd in Hu.
  pose proof (orthogonal_product (ncols x) u vt Hu Hvt) as (Hww & Hnw & Hcw & H1 & H2).
  destruct Hu as (_ & _ & Hcu & _). destruct Hvt as (_ & Hnv & _).
  rewrite (dot_ok (transpose vt) (transpose u)) by (autorewrite with shape; congruence).
  cbn [bind]. set (w := mmul (transpose vt) (transpose u)) in *.
  rewrite (dot_ok x w) by congruence. cbn [bind].
  exists (mmul x w). split; [reflexivity|].
  rewrite (transpose_mmul x w) by congruence.
  rewrite (mmul_assoc x w) by (autorewrite with shape; congruence).
  rewrite <- (mmul_assoc w (transpose w) (transpose x))
    by (autorewrite with shape; congruence).
  rewrite H2.
  rewrite mmul_identity_l by (auto with shape; autorewrite with shape; reflexivity).
  reflexivity.
Qed.

(** X4.  The unconstrained policy solves the normal equations of the least
    squares problem on the dictionary rows: it returns [xw = x . w] with
    [Xdict^t . Xdict . w = Xdict^t . Zdict]. *)
Theorem unconstrained_mapping_normal_equations
    (x z : matrix) (src_indices trg_indices : list nat) (p : matrix) :
  wf x -> wf z ->
  valid_dictionary x z src_indices trg_indices ->
  inv xp (mmul (transpose (gather x src_indices)) (gather x src_indices)) = Ok p ->
  inverse_of (mmul (transpose (gather x src_indices)) (gather x src_indices)) p ->
  exists w,
    unconstrained_mapping xp x z src_indices trg_indices = Ok (mmul x w, z)
    /\ mmul (mmul (transpose (gather x src_indices)) (gather x src_indices)) w
       = mmul (transpose (gather x src_indices)) (gather z trg_indices).
Proof.
  intros Hx Hz Hdict Hinv Hp.
  exists (mmul (mmul p (transpose (gather x src_indices))) (gather z trg_indices)).
  split; [apply unconstrained_mapping_ok; assumption|].
  destruct Hp as (Hwp & Hnp & Hcp & Hgp & Hpg).
  destruct Hdict as (Hlen & _ & _).
  autorewrite with shape in Hnp, Hcp. rewrite ncols_gather in Hnp, Hcp.
  set (xd := gather x src_indices) in *. set (zd := gather z trg_indices) in *.
  assert (Hcxd : ncols xd = ncols x) by reflexivity.
  rewrite <- (mmul_assoc (mmul (transpose xd) xd) (mmul p (transpose xd)) zd)
    by (autorewrite with shape; unfold xd, zd; rewrite ?nrows_gather, ?ncols_gather;
        congruence).
  rewrite <- (mmul_assoc (mmul (transpose xd) xd) p (transpose xd))
    by (autorewrite with shape; congruence).
  rewrite Hgp. autorewrite with shape.
  rewrite mmul_identity_l by (auto with shape; autorewrite with shape; reflexivity).
  reflexivity.
Qed.

(** X5.  With at most as many dictionary rows as columns and no singular
    value zero, the whitened rows are orthonormal:
    [(r . w) . (r . w)^t] is the identity of the size of the row count. *)
Theorem whitening_of_wide_rows (r : matrix) :
  wf r -> (nrows r <= ncols r)%nat ->
  svd_thin_contract xp r -> full_rank xp r ->
  exists w,
    whitening_transformation xp r = Ok w
    /\ mmul (mmul r w) (transpose (mmul r w)) = identity (nrows r).
Proof.
  intros Hr Hdim Hsvd Hrank.
  unfold whitening_transformation, svd_thin_contract, full_rank in *.
  destruct (svd_thin xp r) as [[u s] vt].
  replace (Nat.min (nrows r) (ncols r)) with (nrows r) in Hsvd by lia.
  destruct Hsvd as
    (Hwu & Hnu & Hcu & Hs & Hwvt & Hnvt & Hcvt & Huu & Hvv & _ & Hsq & Hfact).
  specialize (Hsq eq_refl).
  set (e := diag (map (fun si => Fdiv F1 si) s)).
  assert (Hne : nrows e = nrows r) by (unfold e; shape).
  assert (Hce : ncols e = nrows r) by (unfold e; shape).
  assert (Hwe : wf e) by (unfold e; auto with shape).
  rewrite (dot_ok (transpose vt) e) by shape. cbn [bind].
  rewrite (dot_ok (mmul (transpose vt) e) vt) by shape.
  set (w := mmul (mmul (transpose vt) e) vt).
  exists w. split; [reflexivity|].
  assert (Hde : mmul (diag s) e = identity (nrows r)).
  { unfold e. rewrite mmul_diag_reciprocal by assumption. rewrite Hs. reflexivity. }
  assert (Hrw : mmul r w = mmul u vt).
  { unfold w. rewrite Hfact at 1.
    rewrite (mmul_assoc (mmul u (diag s)) vt) by shape.
    rewrite <- (mmul_assoc vt (mmul (transpose vt) e) vt) by shape.
    rewrite <- (mmul_assoc vt (transpose vt) e) by shape.
    rewrite Hvv.
    rewrite (mmul_identity_l e) by (auto; shape).
    rewrite (mmul_assoc u (diag s) (mmul e vt)) by shape.
    rewrite <- (mmul_assoc (diag s) e vt) by shape.
    rewrite Hde.
    rewrite (mmul_identity_l vt) by (auto; shape).
    reflexivity. }
  rewrite Hrw.
  rewrite (transpose_mmul u vt) by shape.
  rewrite (mmul_assoc u vt) by shape.
  rewrite <- (mmul_assoc vt (transpose vt) (transpose u)) by shape.
  rewrite Hvv.
  rewrite mmul_identity_l by (auto with shape; shape).
  exact Hsq.
Qed.

End SolverProperties.

Lemma orthogonal_mapping_preserves_inner_products_witness :
  exists xw,
    orthogonal_mapping demo_backend x_demo z_demo [0; 1] [0; 1] = Ok (xw, z_demo)
    /\ mmul xw (transpose xw) = mmul x_demo (transpose x_demo).
Proof.
  apply (orthogonal_mapping_preserves_inner_products demo_backend x_demo z_demo
           [0; 1] [0; 1]).
  - wf_concrete.
  - wf_concrete.
  - reflexivity.
  - unfold valid_dictionary. simpl. repeat constructor.
  - exact svd_contract_demo.
Defined.

Lemma unconstrained_mapping_normal_equations_witness :
  exists w,
    unconstrained_mapping demo_backend x_demo z_demo [0; 1; 2] [0; 1; 2]
    = Ok (mmul x_demo w, z_demo)
    /\ mmul (mmul (transpose (gather x_demo [0; 1; 2])) (gather x_demo [0; 1; 2])) w
       = mmul (transpose (gather x_demo [0; 1; 2])) (gather z_demo [0; 1; 2]).
Proof.
  destruct demo_inverse as [p [Hinv Hp]].
  apply (unconstrained_mapping_normal_equations demo_backend x_demo z_demo
           [0; 1; 2] [0; 1; 2] p).
  - wf_concrete.
  - wf_concrete.
  - unfold valid_dictionary. vm_compute. repeat constructor.
  - exact Hinv.
  - exact Hp.
Defined.

Lemma whitening_of_wide_rows_witness :
  exists w,
    whitening_transformation wide_backend r_wide = Ok w
    /\ mmul (mmul r_wide w) (transpose (mmul r_wide w)) = identity (nrows r_wide).
Proof.
  apply (whitening_of_wide_rows wide_backend r_wide).
  - wf_concrete.
  - vm_compute. lia.
  - unfold svd_thin_contract. simpl svd_thin.
    repeat split; try wf_concrete; try qc_eq.
    intros E. vm_compute in E. discriminate E.
  - unfold full_rank. simpl. repeat constructor. intros E. vm_compute in E. discriminate E.
Defined.

(** ** The nearest-neighbour search, for every input *)

Section SearchProperties.
Context {K : Scalar}.
Variable xp : Backend.

(** The value of a scan is never below the value it started from. *)
Lemma argmax_from_not_below (l : list F) (bi : nat) (b : F) (s : nat) :
  Fltb (snd (argmax_from bi b s l)) b = false.
Proof.
  revert bi b s. induction l as [|v l IH]; intros bi b s; simpl.
  - apply Fltb_irrefl.
  - destruct (Fltb b v) eqn:E; [|apply IH].
    destruct (Fltb (snd (argmax_from s v (S s) l)) b) eqn:E'; [|reflexivity].
    rewrite <- (IH s v (S s)). symmetry. apply (Fltb_trans _ _ _ E' E).
Qed.

Lemma scan_index_bound (l : list F) : (fst (scan l) < Nat.max 1 (length l))%nat.
Proof.
  unfold scan. destruct (argmax_from_nth l 0 sentinel 0) as [[H _]|[H _]]; lia.
Qed.

(** X6.  The result of the blockwise search does not depend on the block
    sizes: any two pairs of positive ceilings give the same arrays, also
    where similarities lie below the initial -100. *)
Theorem nearest_neighbours_block_size_irrelevant (d : direction_choice)
    (xw zw : matrix) (max_dim_x max_dim_z max_dim_x' max_dim_z' : nat) :
  ncols xw = ncols zw ->
  (0 < max_dim_x)%nat -> (0 < max_dim_z)%nat ->
  (0 < max_dim_x')%nat -> (0 < max_dim_z')%nat ->
  nearest_neighbours d max_dim_x max_dim_z (nrows xw) (nrows zw) xw zw
  = nearest_neighbours d max_dim_x' max_dim_z' (nrows xw) (nrows zw) xw zw
  /\ is_ok (nearest_neighbours d max_dim_x max_dim_z (nrows xw) (nrows zw) xw zw) = true.
Proof.
  intros Hd H1 H2 H3 H4.
  rewrite (nearest_neighbours_stage xw zw Hd d max_dim_x max_dim_z H1 H2).
  rewrite (nearest_neighbours_stage xw zw Hd d max_dim_x' max_dim_z' H3 H4).
  split; reflexivity.
Qed.

(** X7.  The search returns for every pair of arrays of the same
    dimension; its arrays have one element per source row (forward) and per
    target row (backward), and no best similarity is below the initial
    -100. *)
Theorem best_similarity_not_below_sentinel (d : direction_choice)
    (xw zw : matrix) (max_dim_x max_dim_z : nat) :
  ncols xw = ncols zw ->
  (0 < max_dim_x)%nat -> (0 < max_dim_z)%nat ->
  exists st,
    nearest_neighbours d max_dim_x max_dim_z (nrows xw) (nrows zw) xw zw = Ok st
    /\ length (best_sim_forward st) = nrows xw
    /\ length (trg_indices_forward st) = nrows xw
    /\ length (best_sim_backward st) = nrows zw
    /\ length (src_indices_backward st) = nrows zw
    /\ Forall (fun v => Fltb v sentinel = false) (best_sim_forward st)
    /\ Forall (fun v => Fltb v sentinel = false) (best_sim_backward st).
Proof.
  intros Hd H1 H2.
  rewrite (nearest_neighbours_stage xw zw Hd d max_dim_x max_dim_z H1 H2).
  eexists. split; [reflexivity|].
  unfold nn_stage. cbn [best_sim_forward trg_indices_forward
                        best_sim_backward src_indices_backward].
  rewrite !length_map, !length_seq.
  autorewrite with shape.
  repeat split.
  - apply List.Forall_forall. intros v Hv. apply in_map_iff in Hv.
    destruct Hv as [t [<- _]]. unfold forward_cell.
    destruct (in_forward d), (t <? nrows xw), (t <? nrows xw);
      apply argmax_from_not_below.
  - apply List.Forall_forall. intros v Hv. apply in_map_iff in Hv.
    destruct Hv as [t [<- _]]. unfold backward_cell.
    destruct (in_backward d), (t <? 0); apply argmax_from_not_below.
Qed.

(** X8.  Without LAPMOD, on non-empty vocabularies, the self-learning step
    returns a dictionary that is valid for the next iteration: as many
    target indices as source indices, every index a row of its array. *)
Theorem induced_dictionary_is_valid (args : Args) (x z xw zw : matrix) :
  wf xw -> wf zw -> ncols xw = ncols zw ->
  nrows xw = nrows x -> nrows zw = nrows z ->
  (0 < nrows x)%nat -> (0 < nrows z)%nat ->
  lapmod args = false ->
  exists ind,
    induce_dictionary xp args x z xw zw = Ok ind
    /\ valid_dictionary x z (new_src_indices ind) (new_trg_indices ind).
Proof.
  intros Hwx Hwz Hd Hnx Hnz Hx Hz Hlap.
  rewrite (induce_dictionary_nn xp args x z xw zw Hwx Hwz Hd Hnx Hnz Hlap).
  cbv zeta. eexists. split; [reflexivity|].
  cbn [new_src_indices new_trg_indices].
  set (sim := mmul xw (transpose zw)).
  assert (Hn : nrows sim = nrows x) by (rewrite <- Hnx; unfold sim; shape).
  assert (Hm : ncols sim = nrows z) by (rewrite <- Hnz; unfold sim; shape).
  assert (Hfwd : Forall (fun i => (i < nrows z)%nat)
                   (trg_indices_forward (nn_stage (direction args) sim (nrows x) (nrows x) 0))).
  { unfold nn_stage. cbn [trg_indices_forward]. apply List.Forall_forall.
    intros i Hi. apply in_map_iff in Hi. destruct Hi as [t [<- Ht]].
    apply in_seq in Ht. rewrite Hn in Ht. unfold forward_cell.
    assert (Hrow : length (row_of sim t) = nrows z).
    { unfold sim. rewrite (length_row_of_sim xw zw) by lia. exact Hnz. }
    destruct (in_forward (direction args)).
    - replace (t <? nrows x) with true by (symmetry; apply Nat.ltb_lt; lia).
      pose proof (scan_index_bound (row_of sim t)). lia.
    - pose proof (scan_index_bound []). simpl in *. lia. }
  assert (Hbwd : Forall (fun i => (i < nrows x)%nat)
                   (src_indices_backward (nn_stage (direction args) sim (nrows x) (nrows x) 0))).
  { unfold nn_stage. cbn [src_indices_backward]. apply List.Forall_forall.
    intros i Hi. apply in_map_iff in Hi. destruct Hi as [c [<- Hc]].
    apply in_seq in Hc. rewrite Hm in Hc. unfold backward_cell.
    assert (Hcol : length (col_of sim c) = nrows x).
    { unfold sim. rewrite (length_col_of_sim xw zw) by lia. exact Hnx. }
    destruct (in_backward (direction args)).
    - pose proof (scan_index_bound (firstn (nrows x) (col_of sim c))) as Hb.
      rewrite length_firstn in Hb. destruct (c <? 0); lia.
    - pose proof (scan_index_bound []). simpl in *. lia. }
  assert (Hseq : forall k, Forall (fun i => (i < k)%nat) (seq 0 k)).
  { intros k. apply List.Forall_forall. intros i Hi. apply in_seq in Hi. lia. }
  assert (Hlf : length (trg_indices_forward
                          (nn_stage (direction args) sim (nrows x) (nrows x) 0)) = nrows x).
  { unfold nn_stage. cbn [trg_indices_forward]. rewrite length_map, length_seq. exact Hn. }
  assert (Hlb : length (src_indices_backward
                          (nn_stage (direction args) sim (nrows x) (nrows x) 0)) = nrows z).
  { unfold nn_stage. cbn [src_indices_backward]. rewrite length_map, length_seq. exact Hm. }
  unfold valid_dictionary, select_dictionary.
  destruct (direction args); cbn [fst snd].
  - rewrite length_seq. repeat split; auto.
  - rewrite length_seq. repeat split; auto.
  - rewrite !length_app, !length_seq.
    repeat split; [lia | |]; apply Forall_app; auto.
Qed.

End SearchProperties.

Lemma nearest_neighbours_block_size_irrelevant_witness :
  nearest_neighbours union 2 1 (nrows x_far) (nrows z_far) x_far z_far
  = nearest_neighbours union MAX_DIM_X MAX_DIM_Z (nrows x_far) (nrows z_far) x_far z_far
  /\ is_ok (nearest_neighbours union 2 1 (nrows x_far) (nrows z_far) x_far z_far) = true.
Proof.
  apply (nearest_neighbours_block_size_irrelevant union x_far z_far
           2 1 MAX_DIM_X MAX_DIM_Z).
  - reflexivity.
  - lia.
  - lia.
  - exact MAX_DIM_X_pos.
  - exact MAX_DIM_Z_pos.
Defined.

Lemma best_similarity_not_below_sentinel_witness :
  exists st,
    nearest_neighbours union 2 1 (nrows x_far) (nrows z_far) x_far z_far = Ok st
    /\ length (best_sim_forward st) = nrows x_far
    /\ length (trg_indices_forward st) = nrows x_far
    /\ length (best_sim_backward st) = nrows z_far
    /\ length (src_indices_backward st) = nrows z_far
    /\ Forall (fun v => Fltb v sentinel = false) (best_sim_forward st)
    /\ Forall (fun v => Fltb v sentinel = false) (best_sim_backward st).
Proof.
  apply (best_similarity_not_below_sentinel union x_far z_far 2 1).
  - reflexivity.
  - lia.
  - lia.
Defined.

Lemma induced_dictionary_is_valid_witness :
  exists ind,
    induce_dictionary demo_backend (set_direction demo_args union)
      x_demo z_demo z_demo z_demo = Ok ind
    /\ valid_dictionary x_demo z_demo (new_src_indices ind) (new_trg_indices ind).
Proof.
  apply (induced_dictionary_is_valid demo_backend (set_direction demo_args union)
           x_demo z_demo z_demo z_demo).
  - wf_concrete.
  - wf_concrete.
  - reflexivity.
  - reflexivity.
  - reflexivity.
  - vm_compute. lia.
  - vm_compute. lia.
  - reflexivity.
Defined.

(** ** Vocabularies, seed dictionary and the run around the loop *)

Section VocabularyIndex.

Lemma word2ind_from_last (ws : list string) (i : nat) (m : gmap string nat) (w : string) :
  (w ∉ ws -> word2ind_from i ws m !! w = m !! w)
  /\ (forall p, ws !! p = Some w -> (forall k, (p < k)%nat -> ws !! k <> Some w) ->
        word2ind_from i ws m !! w = Some (i + p)%nat).
Proof.
  revert i m. induction ws as [|w0 ws IH]; intros i m; simpl.
  - split; [reflexivity | intros p H; discriminate H].
  - destruct (IH (S i) (<[w0 := i]> m)) as [IH1 IH2]. split.
    + intros Hn. apply not_elem_of_cons in Hn. destruct Hn as [Hne Hn].
      rewrite (IH1 Hn). apply lookup_insert_ne. congruence.
    + intros [|p] Hp Hlast.
      * simpl in Hp. injection Hp as ->.
        rewrite IH1.
        -- rewrite lookup_insert_eq. f_equal. lia.
        -- intros Hin. apply list_elem_of_lookup in Hin. destruct Hin as [k Hk].
           apply (Hlast (S k)); [lia | exact Hk].
      * simpl in Hp. rewrite (IH2 p Hp).
        -- f_equal. lia.
        -- intros k Hk. apply (Hlast (S k)). lia.
Qed.

Lemma last_position_exists (ws : list string) (w : string) :
  w ∈ ws -> exists p, ws !! p = Some w /\ forall k, (p < k)%nat -> ws !! k <> Some w.
Proof.
  induction ws as [|w0 ws IH]; intros H.
  - inversion H.
  - destruct (decide (w ∈ ws)) as [Hin | Hn].
    + destruct (IH Hin) as [p [Hp Hlast]]. exists (S p). split; [exact Hp|].
      intros [|k] Hk; [lia|]. simpl. apply Hlast. lia.
    + apply elem_of_cons in H. destruct H as [-> | H]; [|contradiction].
      exists 0%nat. split; [reflexivity|].
      intros [|k] Hk; [lia|]. simpl. intros Hw. apply Hn.
      apply list_elem_of_lookup. exists k. exact Hw.
Qed.

(** X9.  The index that the word-to-index map gives a word is the position
    of its last occurrence in the list of words: a repeated word keeps the
    index of its last line. *)
Theorem word2ind_last_occurrence (words : list string) (w : string) (j : nat) :
  word2ind words !! w = Some j
  <-> words !! j = Some w /\ forall k, (j < k)%nat -> words !! k <> Some w.
Proof.
  split.
  - intros H. pose proof (word2ind_lookup _ _ _ H) as Hj.
    assert (Hin : w ∈ words) by (apply list_elem_of_lookup; exists j; exact Hj).
    destruct (last_position_exists words w Hin) as [p [Hp Hlast]].
    destruct (word2ind_from_last words 0 ∅ w) as [_ H2].
    specialize (H2 p Hp Hlast). unfold word2ind in H. rewrite H in H2.
    injection H2 as ->. split; [exact Hp | exact Hlast].
  - intros [Hj Hlast].
    destruct (word2ind_from_last words 0 ∅ w) as [_ H2].
    apply (H2 j Hj Hlast).
Qed.

End VocabularyIndex.
Section TrainingDictionary.

Lemma word2ind_bound (ws : list string) (w : string) (j : nat) :
  word2ind ws !! w = Some j -> (j < length ws)%nat.
Proof. intros H. apply word2ind_lookup in H. apply (lookup_lt_Some _ _ _ H). Qed.

(** X10.  Reading the training dictionary.  When every line holds two
    words the reading does not raise: it returns the index pairs of the
    lines whose two words are in the vocabularies, in the order of the
    file, each index a position of its vocabulary, and prints one warning
    for each other line.  A line that does not hold exactly two words ends
    the reading with [ValueError], after the warnings of the lines before
    it. *)
Theorem seed_of_lines_spec (src_words trg_words : list string) :
  let indexed := fun p : string * string =>
    match word2ind src_words !! fst p, word2ind trg_words !! snd p with
    | Some i, Some j => Some (i, j)
    | _, _ => None
    end in
  let warning := fun p : string * string =>
    match indexed p with
    | Some _ => None
    | None => Some (Stderr "WARNING: OOV dictionary entry")
    end in
  (forall pairs,
     seed_of_lines (word2ind src_words) (word2ind trg_words)
       (map (fun p => [fst p; snd p]) pairs)
     = (omap warning pairs,
        Ok (map fst (omap indexed pairs), map snd (omap indexed pairs)))
     /\ Forall (fun ij => (fst ij < length src_words)%nat
                          /\ (snd ij < length trg_words)%nat)
          (omap indexed pairs))
  /\ (forall pre bad rest,
        length bad <> 2%nat ->
        seed_of_lines (word2ind src_words) (word2ind trg_words)
          (map (fun p => [fst p; snd p]) pre ++ bad :: rest)
        = (omap warning pre, Raise ValueError)).
Proof.
  intros indexed warning.
  assert (Hstep : forall (p : string * string) rest,
            seed_of_lines (word2ind src_words) (word2ind trg_words)
              ([fst p; snd p] :: rest)
            = match indexed p with
              | Some (i, j) =>
                  pbind (seed_of_lines (word2ind src_words) (word2ind trg_words) rest)
                    (fun st => ret (i :: fst st, j :: snd st))
              | None =>
                  pbind (emit (Stderr "WARNING: OOV dictionary entry"))
                    (fun _ => seed_of_lines (word2ind src_words) (word2ind trg_words) rest)
              end).
  { intros [src trg] rest. cbn [seed_of_lines unpack_pair fst snd]. unfold indexed.
    cbn [fst snd].
    destruct (word2ind src_words !! src) as [i|]; [|reflexivity].
    destruct (word2ind trg_words !! trg) as [j|]; [|reflexivity].
    destruct (seed_of_lines _ _ rest) as [t [[ss ts]|e]]; reflexivity. }
  split.
  - intros pairs. split.
    + induction pairs as [|p pairs IH]; [reflexivity|].
      cbn [map]. rewrite Hstep, IH. unfold warning. cbn [omap list_omap].
      destruct (indexed p) as [[i j]|]; cbn [pbind emit ret fst snd map app].
      * rewrite app_nil_r. reflexivity.
      * reflexivity.
    + induction pairs as [|[src trg] pairs IH]; [constructor|].
      cbn [omap list_omap]. unfold indexed at 1. cbn [fst snd].
      destruct (word2ind src_words !! src) as [i|] eqn:Es; [|exact IH].
      destruct (word2ind trg_words !! trg) as [j|] eqn:Et; [|exact IH].
      constructor; [|exact IH]. cbn [fst snd].
      split; [apply (word2ind_bound _ _ _ Es) | apply (word2ind_bound _ _ _ Et)].
  - intros pre bad rest Hbad.
    induction pre as [|p pre IH].
    + cbn [map app omap list_omap seed_of_lines].
      destruct bad as [|a [|b [|c l]]]; try reflexivity.
      exfalso. apply Hbad. reflexivity.
    + cbn [map app]. rewrite Hstep, IH. unfold warning. cbn [omap list_omap].
      destruct (indexed p) as [[i j]|]; cbn [pbind emit ret lift]; reflexivity.
Qed.

Lemma seed_of_words_pairs (src_words trg_words : list string) (ws : list string) :
  Forall (fun w => w ∈ src_words /\ w ∈ trg_words) ws ->
  length (omap (fun w => word2ind src_words !! w) ws) = length ws
  /\ Forall2 (fun i j => exists w, w ∈ ws /\ src_words !! i = Some w
                                   /\ trg_words !! j = Some w)
       (omap (fun w => word2ind src_words !! w) ws)
       (omap (fun w => word2ind trg_words !! w) ws).
Proof.
  induction 1 as [|w ws [Hs Ht] _ [IH1 IH2]]; simpl.
  - split; [reflexivity | constructor].
  - apply word2ind_is_Some in Hs. apply word2ind_is_Some in Ht.
    destruct Hs as [i Hi], Ht as [j Hj]. rewrite Hi, Hj. simpl.
    split; [f_equal; exact IH1|].
    constructor.
    + exists w. split; [left | split; apply word2ind_lookup; assumption].
    + eapply Forall2_impl; [exact IH2|]. intros i' j' [w' (H1 & H2 & H3)].
      exists w'. split; [right; exact H1 | split; assumption].
Qed.

(** X11.  With [--numerals] or [--identical] no dictionary file is read:
    the seed dictionary has one pair for each word of the intersection that
    the code builds, both indices of a pair stand for the same word, and
    with [--numerals] (which takes precedence) that word is a numeral. *)
Theorem seed_without_dictionary_file {K : Scalar} (env : Env) (args : Args)
    (src_words trg_words : list string) :
  numerals args || identical args = true ->
  exists t ss ts,
    build_training_dictionary env args src_words trg_words
      (word2ind src_words) (word2ind trg_words) = (t, Ok (ss, ts))
    /\ Forall (fun e => forall p, e <> ReadDictionary p) t
    /\ length ss = length ts
    /\ Forall2 (fun i j => exists w, src_words !! i = Some w
                                     /\ trg_words !! j = Some w
                                     /\ (numerals args = true -> numeral_match w = true))
         ss ts
    /\ (numerals args = false ->
        length ss = size (list_to_set (C:=gset string) src_words
                            ∩ list_to_set trg_words)).
Proof.
  intros Hmode. unfold build_training_dictionary.
  destruct (numerals args) eqn:En.
  - set (words := (list_to_set (filter (fun w => numeral_match w = true) src_words)
                   ∩ list_to_set (filter (fun w => numeral_match w = true) trg_words)
                   : gset string)).
    assert (Hall : Forall (fun w => w ∈ src_words /\ w ∈ trg_words) (elements words)).
    { apply Forall_forall. intros w Hw. apply elem_of_elements in Hw.
      unfold words in Hw. rewrite elem_of_intersection, !elem_of_list_to_set in Hw.
      destruct Hw as [H1 H2]. apply list_elem_of_filter in H1, H2. tauto. }
    destruct (seed_of_words_pairs src_words trg_words _ Hall) as [Hlen Hpairs].
    exists (match dictionary args with
            | Some _ => [Stderr "WARNING: Using numerals instead of the training dictionary"]
            | None => []
            end),
      (omap (fun w => word2ind src_words !! w) (elements words)),
      (omap (fun w => word2ind trg_words !! w) (elements words)).
    split.
    { destruct (dictionary args); cbn [pbind emit ret]; reflexivity. }
    split; [|split; [|split]].
    + destruct (dictionary args); repeat constructor; discriminate.
    + unfold seed_of_words. cbn [fst snd].
      apply (Forall2_length _ _ _ Hpairs).
    + unfold seed_of_words. eapply Forall2_impl; [exact Hpairs|].
      intros i j [w (Hw & Hi & Hj)]. exists w. repeat split; try assumption.
      intros _. apply elem_of_elements in Hw. unfold words in Hw.
      rewrite elem_of_intersection, !elem_of_list_to_set in Hw.
      destruct Hw as [H1 _]. apply list_elem_of_filter in H1. tauto.
    + discriminate.
  - simpl in Hmode. rewrite Hmode.
    set (words := (list_to_set src_words ∩ list_to_set trg_words : gset string)).
    assert (Hall : Forall (fun w => w ∈ src_words /\ w ∈ trg_words) (elements words)).
    { apply Forall_forall. intros w Hw. apply elem_of_elements in Hw.
      unfold words in Hw. rewrite elem_of_intersection, !elem_of_list_to_set in Hw.
      exact Hw. }
    destruct (seed_of_words_pairs src_words trg_words _ Hall) as [Hlen Hpairs].
    eexists _, _, _. split; [cbn [pbind emit ret]; reflexivity|].
    split; [|split; [|split]].
    + simpl. repeat constructor; discriminate.
    + unfold seed_of_words. apply (Forall2_length _ _ _ Hpairs).
    + unfold seed_of_words. eapply Forall2_impl; [exact Hpairs|].
      intros i j [w (Hw & Hi & Hj)]. exists w. repeat split; try assumption.
      discriminate.
    + intros _. unfold seed_of_words. exact Hlen.
Qed.

End TrainingDictionary.
Section Inputs.
Context {K : Scalar}.








End Inputs.
Section EarlyExits.
Context {K : Scalar}.
Variable xp : Backend.
Variable env : Env.




End EarlyExits.
Section Output.
Context {K : Scalar}.
Variable xp : Backend.
Variable env : Env.







End Output.
Section FixedDictionary.
Context {K : Scalar}.
Variable xp : Backend.
Add Field fixed_dictionary_field : F_field.

Lemma iteration_keeps_objectives (args : Args)
    (src_word2ind trg_word2ind : gmap string nat)
    (test_lines : option (list (list string))) (x z : matrix)
    (st st' : loop_state) :
  self_learning args = false ->
  iteration xp args src_word2ind trg_word2ind test_lines x z st = Ok st' ->
  objective st' = objective st /\ prev_objective st' = prev_objective st
  /\ src_indices st' = src_indices st /\ trg_indices st' = trg_indices st.
Proof.
  intros Hsl H.
  destruct (iteration_inv xp _ _ _ _ _ _ _ _ H) as (xw & zw & _ & _ & _ & Hrest).
  rewrite Hsl in Hrest. exact Hrest.
Qed.

Lemma never_converges (fuel : nat) (args : Args)
    (src_word2ind trg_word2ind : gmap string nat)
    (test_lines : option (list (list string))) (x z : matrix)
    (st0 st : loop_state) :
  self_learning args = false ->
  ge_float F0 (threshold args) = true ->
  objective st0 = prev_objective st0 ->
  training_loop xp fuel args src_word2ind trg_word2ind test_lines x z st0
  <> Ok (Converged st).
Proof.
  intros Hsl Hthr. revert st0.
  assert (Hcond : forall s, objective s = prev_objective s -> loop_condition args s = true).
  { intros s Hs. unfold loop_condition. rewrite Hs.
    replace (Fsub (prev_objective s) (prev_objective s)) with F0 by ring.
    rewrite Hthr. apply orb_true_r. }
  induction fuel as [|fuel IH]; intros st0 H0 H; cbn [training_loop] in H;
    rewrite (Hcond st0 H0) in H; [discriminate|].
  destruct (iteration xp args src_word2ind trg_word2ind test_lines x z st0)
    as [st1|e] eqn:E1; [|discriminate].
  cbn [bind] in H. apply (IH st1); [|exact H].
  destruct (iteration_keeps_objectives _ _ _ _ _ _ _ _ Hsl E1) as (H1 & H2 & _).
  congruence.
Qed.

(** X16.  Without self-learning the objective stays at its initial value,
    so the loop is decided by the test [0 >= threshold] alone.  When the
    test is false (a positive threshold, and also [inf] and [nan]) the run
    ends after exactly one iteration, on the seed dictionary; when it is
    true (a threshold that is not positive) the loop never ends normally,
    however many iterations are allowed. *)
Theorem loop_without_self_learning (args : Args)
    (src_word2ind trg_word2ind : gmap string nat)
    (test_lines : option (list (list string))) (x z : matrix)
    (src trg : list nat) :
  self_learning args = false ->
  (ge_float F0 (threshold args) = false ->
   forall fuel,
     training_loop xp (S fuel) args src_word2ind trg_word2ind test_lines x z
       (initial_state src trg)
     = let* st := iteration xp args src_word2ind trg_word2ind test_lines x z
                    (initial_state src trg) in
       Ok (Converged st))
  /\ (ge_float F0 (threshold args) = false ->
      forall fuel st,
        training_loop xp fuel args src_word2ind trg_word2ind test_lines x z
          (initial_state src trg) = Ok (Converged st) ->
        it st = 2%nat /\ src_indices st = src /\ trg_indices st = trg)
  /\ (ge_float F0 (threshold args) = true ->
      forall fuel st,
        training_loop xp fuel args src_word2ind trg_word2ind test_lines x z
          (initial_state src trg) <> Ok (Converged st)).
Proof.
  intros Hsl.
  assert (Hone : ge_float F0 (threshold args) = false ->
   forall fuel,
     training_loop xp (S fuel) args src_word2ind trg_word2ind test_lines x z
       (initial_state src trg)
     = let* st := iteration xp args src_word2ind trg_word2ind test_lines x z
                    (initial_state src trg) in
       Ok (Converged st)).
  { intros Hthr fuel. cbn [training_loop]. unfold loop_condition at 1.
    cbn [it initial_state Nat.eqb orb].
    destruct (iteration xp args src_word2ind trg_word2ind test_lines x z
                (initial_state src trg)) as [st1|e] eqn:E1; [|reflexivity].
    cbn [bind].
    destruct (iteration_keeps_objectives _ _ _ _ _ _ _ _ Hsl E1) as (H1 & H2 & _).
    apply iteration_it in E1. cbn [it initial_state] in E1.
    assert (Hc : loop_condition args st1 = false).
    { unfold loop_condition. rewrite E1, H1, H2. cbn [initial_state objective prev_objective].
      replace (Fsub sentinel sentinel) with F0 by ring.
      rewrite Hthr. reflexivity. }
    destruct fuel; cbn [training_loop]; rewrite Hc; reflexivity. }
  split; [exact Hone|]. split.
  - intros Hthr fuel st H. destruct fuel as [|fuel].
    + cbn [training_loop] in H. discriminate H.
    + rewrite (Hone Hthr fuel) in H.
      destruct (iteration xp args src_word2ind trg_word2ind test_lines x z
                  (initial_state src trg)) as [st1|e] eqn:E1; [|discriminate].
      cbn [bind] in H. injection H as <-.
      destruct (iteration_keeps_objectives _ _ _ _ _ _ _ _ Hsl E1) as (_ & _ & H3 & H4).
      apply iteration_it in E1. repeat split; assumption.
  - intros Hthr fuel st. apply never_converges; [exact Hsl | exact Hthr | reflexivity].
Qed.

End FixedDictionary.
Section Unbound.
Context {K : Scalar}.
Variable xp : Backend.

Lemma take_rows_raises (m : matrix) (indices : list nat) (e : exn) :
  take_rows m indices = Raise e -> e = IndexError.
Proof.
  unfold take_rows.
  assert (H : forall e, mapM (fun i => match nth_error (mrows m) i with
                                       | Some r => Ok r
                                       | None => Raise IndexError
                                       end) indices = Raise e -> e = IndexError).
  { induction indices as [|i l IH]; intros e0 H; simpl in H; [discriminate|].
    destruct (nth_error (mrows m) i); cbn [bind] in H.
    - destruct (mapM _ l) as [rs|e1]; cbn [bind] in H; [discriminate|].
      injection H as <-. apply IH. reflexivity.
    - injection H as <-. reflexivity. }
  destruct (mapM _ indices) as [rs|e1]; cbn [bind]; [discriminate|].
  intros E. injection E as <-. apply H. reflexivity.
Qed.

Lemma dot_raises (a b : matrix) (e : exn) : dot a b = Raise e -> e = ValueError.
Proof. unfold dot. destruct (Nat.eqb _ _); congruence. Qed.

Lemma scale_cols_raises (m : matrix) (v : list F) (e : exn) :
  scale_cols m v = Raise e -> e = ValueError.
Proof.
  unfold scale_cols. destruct (Nat.eqb _ _); [discriminate|].
  destruct (Nat.eqb _ _); congruence.
Qed.

(** X17.  The locals [wx1] and [wz1] of the advanced policy are bound by
    the whitening step only: when de-whitening is requested without
    whitening the policy returns no mapping, whatever the arrays and the
    dictionary.  It raises the [UnboundLocalError] of the variable that is
    read, unless an index or a shape has already failed. *)
Theorem dewhitening_reads_unbound_local (args : Args) (x z : matrix)
    (src_indices trg_indices : list nat) :
  whiten args = false ->
  src_dewhiten args <> None \/ trg_dewhiten args <> None ->
  match advanced_mapping xp args x z src_indices trg_indices with
  | Ok _ => False
  | Raise e => e = IndexError \/ e = ValueError
               \/ e = UnboundLocalError "wx1" \/ e = UnboundLocalError "wz1"
  end.
Proof.
  intros Hw Hde. unfold advanced_mapping. rewrite Hw. cbn [bind].
  destruct (take_rows x src_indices) as [xdict|e] eqn:E1; cbn [bind];
    [|apply take_rows_raises in E1; tauto].
  destruct (take_rows z trg_indices) as [zdict|e] eqn:E2; cbn [bind];
    [|apply take_rows_raises in E2; tauto].
  destruct (dot (transpose xdict) zdict) as [c|e] eqn:E3; cbn [bind];
    [|apply dot_raises in E3; tauto].
  destruct (svd xp c) as [[wx2 s] wz2_t].
  destruct (dot x wx2) as [xw|e] eqn:E4; cbn [bind];
    [|apply dot_raises in E4; tauto].
  destruct (dot z (transpose wz2_t)) as [zw|e] eqn:E5; cbn [bind];
    [|apply dot_raises in E5; tauto].
  destruct (scale_cols xw _) as [xw'|e] eqn:E6; cbn [bind];
    [|apply scale_cols_raises in E6; tauto].
  destruct (scale_cols zw _) as [zw'|e] eqn:E7; cbn [bind];
    [|apply scale_cols_raises in E7; tauto].
  destruct (src_dewhiten args) as [[|]|] eqn:Es; cbn [dewhiten dewhitening bind];
    try tauto.
  destruct (trg_dewhiten args) as [[|]|] eqn:Et; cbn [dewhiten dewhitening bind];
    tauto.
Qed.

End Unbound.
Section ReferenceEntries.

Lemma read_entry_translations (s2i t2i : gmap string nat)
    (pre : list (string * string)) (r : reference) (l : string * string) :
  (forall i j, (exists ts, src2trg r !! i = Some ts /\ j ∈ ts)
               <-> exists w t, (w, t) ∈ pre /\ s2i !! w = Some i /\ t2i !! t = Some j) ->
  forall i j, (exists ts, src2trg (read_entry s2i t2i r l) !! i = Some ts /\ j ∈ ts)
              <-> exists w t, (w, t) ∈ pre ++ [l] /\ s2i !! w = Some i /\ t2i !! t = Some j.
Proof.
  intros H i j. destruct l as [w0 t0]. unfold read_entry.
  assert (Hpre : (exists w t, (w, t) ∈ pre ++ [(w0, t0)] /\ s2i !! w = Some i /\ t2i !! t = Some j)
                 <-> (exists w t, (w, t) ∈ pre /\ s2i !! w = Some i /\ t2i !! t = Some j)
                     \/ (s2i !! w0 = Some i /\ t2i !! t0 = Some j)).
  { split.
    - intros (w & t & Hin & Hw & Ht). apply elem_of_app in Hin.
      destruct Hin as [Hin|Hin]; [left; exists w, t; tauto|].
      apply list_elem_of_singleton in Hin. injection Hin as -> ->. right. tauto.
    - intros [(w & t & Hin & Hw & Ht)|[Hw Ht]].
      + exists w, t. rewrite elem_of_app. tauto.
      + exists w0, t0. rewrite elem_of_app, list_elem_of_singleton. tauto. }
  rewrite Hpre, <- H. clear Hpre H.
  destruct (s2i !! w0) as [i0|] eqn:Es; [destruct (t2i !! t0) as [j0|] eqn:Et|];
    cbn [src2trg].
  - destruct (decide (i0 = i)) as [-> | Hne].
    + rewrite lookup_insert_eq. split.
      * intros (ts & Hts & Hj). injection Hts as <-.
        apply elem_of_union in Hj. destruct Hj as [Hj|Hj].
        -- left. destruct (src2trg r !! i) as [ts|]; simpl in Hj; [|set_solver].
           exists ts. split; [reflexivity | exact Hj].
        -- right. apply elem_of_singleton in Hj. subst j. split; reflexivity.
      * intros [(ts & Hts & Hj)|[_ Hj]]; eexists; (split; [reflexivity|]).
        -- rewrite Hts. simpl. set_solver.
        -- injection Hj as ->. set_solver.
    + rewrite lookup_insert_ne by exact Hne. split; [tauto|].
      intros [Hl|[Hw _]]; [exact Hl | congruence].
  - split; [tauto|]. intros [Hl|[_ Ht]]; [exact Hl | discriminate].
  - split; [tauto|]. intros [Hl|[Hw _]]; [exact Hl | discriminate].
Qed.

Lemma read_reference_translations (s2i t2i : gmap string nat)
    (lines pre : list (string * string)) (r : reference) :
  (forall i j, (exists ts, src2trg r !! i = Some ts /\ j ∈ ts)
               <-> exists w t, (w, t) ∈ pre /\ s2i !! w = Some i /\ t2i !! t = Some j) ->
  forall i j, (exists ts, src2trg (fold_left (read_entry s2i t2i) lines r) !! i = Some ts
                          /\ j ∈ ts)
              <-> exists w t, (w, t) ∈ pre ++ lines /\ s2i !! w = Some i /\ t2i !! t = Some j.
Proof.
  revert pre r. induction lines as [|l lines IH]; intros pre r H; simpl.
  - rewrite app_nil_r. exact H.
  - replace (pre ++ l :: lines) with ((pre ++ [l]) ++ lines)
      by (rewrite <- app_assoc; reflexivity).
    apply IH. apply read_entry_translations. exact H.
Qed.

Lemma read_entry_nonempty (s2i t2i : gmap string nat) (r : reference)
    (l : string * string) :
  (forall i ts, src2trg r !! i = Some ts -> ts <> ∅) ->
  forall i ts, src2trg (read_entry s2i t2i r l) !! i = Some ts -> ts <> ∅.
Proof.
  intros H i ts. destruct l as [w0 t0]. unfold read_entry.
  destruct (s2i !! w0) as [i0|]; [destruct (t2i !! t0) as [j0|]|]; cbn [src2trg];
    try apply H.
  destruct (decide (i0 = i)) as [-> | Hne].
  - rewrite lookup_insert_eq. intros E. injection E as <-. set_solver.
  - rewrite lookup_insert_ne by exact Hne. apply H.
Qed.

(** X18.  After a reference dictionary has been read, the table
    [validation] (or [src2trg]) holds exactly the translations of the file
    that are in both vocabularies: [j] is recorded for [i] when some line
    pairs the word of index [i] with the word of index [j]; every key is a
    row of [x], every recorded index a row of [z], and no key has an empty
    set. *)
Theorem reference_translations (src_words trg_words : list string)
    (lines : list (string * string)) (i : nat) :
  let r := read_reference (word2ind src_words) (word2ind trg_words) lines in
  (forall j, (exists ts, src2trg r !! i = Some ts /\ j ∈ ts)
             <-> exists w t, (w, t) ∈ lines
                             /\ word2ind src_words !! w = Some i
                             /\ word2ind trg_words !! t = Some j)
  /\ (forall ts, src2trg r !! i = Some ts ->
        ts <> ∅ /\ (i < length src_words)%nat
        /\ forall j, j ∈ ts -> (j < length trg_words)%nat).
Proof.
  intros r.
  assert (H : forall i j, (exists ts, src2trg r !! i = Some ts /\ j ∈ ts)
             <-> exists w t, (w, t) ∈ lines
                             /\ word2ind src_words !! w = Some i
                             /\ word2ind trg_words !! t = Some j).
  { unfold r, read_reference.
    apply (read_reference_translations _ _ lines [] empty_reference).
    intros i0 j0. cbn [src2trg empty_reference]. split.
    - intros (ts & Hts & _). rewrite lookup_empty in Hts. discriminate.
    - intros (w & t & Hin & _). inversion Hin. }
  assert (Hne : forall i ts, src2trg r !! i = Some ts -> ts <> ∅).
  { unfold r, read_reference.
    assert (G : forall ls r0, (forall i ts, src2trg r0 !! i = Some ts -> ts <> ∅) ->
              forall i ts, src2trg (fold_left (read_entry (word2ind src_words)
                                                (word2ind trg_words)) ls r0) !! i = Some ts ->
                           ts <> ∅).
    { induction ls as [|l ls IH]; intros r0 H0; simpl; [exact H0|].
      apply IH. apply read_entry_nonempty. exact H0. }
    apply G. intros i0 ts. cbn [src2trg empty_reference]. rewrite lookup_empty.
    discriminate. }
  split; [apply H|].
  intros ts Hts. split; [apply (Hne i ts Hts)|].
  assert (Hex : exists j, j ∈ ts).
  { apply set_choose_L. apply (Hne i ts Hts). }
  split.
  - destruct Hex as [j Hj].
    destruct (proj1 (H i j)) as (w & t & _ & Hw & _); [exists ts; tauto|].
    apply word2ind_lookup in Hw. apply (lookup_lt_Some _ _ _ Hw).
  - intros j Hj.
    destruct (proj1 (H i j)) as (w & t & _ & _ & Ht); [exists ts; tauto|].
    apply word2ind_lookup in Ht. apply (lookup_lt_Some _ _ _ Ht).
Qed.

End ReferenceEntries.
Section Symmetry.
Context {K : Scalar}.
Variable xp : Backend.

Lemma transpose_diag (v : list F) : transpose (diag v) = diag v.
Proof.
  apply matrix_ext; auto with shape; autorewrite with shape; try reflexivity.
  intros i j Hi Hj. rewrite entry_transpose by (autorewrite with shape; lia).
  unfold diag. rewrite !entry_tabulate by lia.
  rewrite (Nat.eqb_sym j i). destruct (Nat.eqb i j) eqn:E; [|reflexivity].
  apply Nat.eqb_eq in E. subst j. reflexivity.
Qed.

(** X19.  The whitening transform of a matrix with [d] columns is a
    symmetric [d x d] matrix. *)
Theorem whitening_transformation_symmetric (m : matrix) :
  svd_thin_contract xp m ->
  exists w,
    whitening_transformation xp m = Ok w
    /\ wf w /\ nrows w = ncols m /\ ncols w = ncols m
    /\ transpose w = w.
Proof.
  unfold svd_thin_contract, whitening_transformation.
  destruct (svd_thin xp m) as [[u s] vt].
  intros (Hu & Hur & Huc & Hs & Hvt & Hvr & Hvc & _).
  set (d := diag (map (fun si => Fdiv F1 si) s)).
  assert (Hd : nrows d = length s /\ ncols d = length s).
  { unfold d. autorewrite with shape. rewrite length_map. split; reflexivity. }
  destruct Hd as [Hd1 Hd2].
  rewrite dot_ok by (autorewrite with shape; congruence). cbn [bind].
  rewrite dot_ok by (autorewrite with shape; congruence).
  eexists. split; [reflexivity|].
  split; [auto with shape|]. autorewrite with shape.
  split; [exact Hvc|]. split; [exact Hvc|].
  rewrite transpose_mmul by (autorewrite with shape; congruence).
  rewrite transpose_mmul by (autorewrite with shape; congruence).
  rewrite (transpose_involutive vt Hvt).
  unfold d at 1. rewrite transpose_diag. fold d.
  symmetry. apply mmul_assoc; autorewrite with shape; congruence.
Qed.

End Symmetry.
Section Numerals.

Lemma digits_to_end_spec (s : string) :
  digits_to_end s = true
  <-> forallb is_digit (list_ascii_of_string s) = true
      \/ exists ds, forallb is_digit (list_ascii_of_string ds) = true
                    /\ s = (ds ++ String "010" EmptyString)%string.
Proof.
  induction s as [|c s IH].
  - simpl. split; [left; reflexivity | reflexivity].
  - destruct s as [|c' s'].
    + cbn [digits_to_end list_ascii_of_string forallb]. rewrite andb_true_r.
      rewrite orb_true_iff. split.
      * intros [H|H]; [left; exact H|]. right. exists EmptyString.
        split; [reflexivity|]. apply Ascii.eqb_eq in H. subst c. reflexivity.
      * intros [H|[ds [Hd E]]]; [left; exact H|].
        destruct ds as [|d ds].
        -- simpl in E. injection E as ->. right. reflexivity.
        -- simpl in E. injection E as -> E. destruct ds; discriminate E.
    + change (digits_to_end (String c (String c' s')))
        with (is_digit c && digits_to_end (String c' s')).
      rewrite andb_true_iff, IH. clear IH.
      cbn [list_ascii_of_string forallb]. rewrite !andb_true_iff. split.
      * intros [Hc [H|[ds [Hd E]]]].
        -- left. tauto.
        -- right. exists (String c ds). split.
           ++ cbn [list_ascii_of_string forallb]. rewrite Hc, Hd. reflexivity.
           ++ simpl. rewrite E. reflexivity.
      * intros [[Hc H]|[ds [Hd E]]].
        -- split; [exact Hc|]. left. exact H.
        -- destruct ds as [|d ds]; [discriminate E|].
           simpl in E. injection E as -> E.
           cbn [list_ascii_of_string forallb] in Hd. rewrite andb_true_iff in Hd.
           split; [tauto|]. right. exists ds. split; [tauto | exact E].
Qed.

(** X20.  The words that the numeral pattern [^[0-9]+$] accepts are the
    non-empty strings of the ten ASCII digits, and those followed by one
    final line feed. *)
Theorem numeral_match_spec (word : string) :
  numeral_match word = true
  <-> exists ds, ds <> EmptyString
                 /\ forallb is_digit (list_ascii_of_string ds) = true
                 /\ (word = ds \/ word = (ds ++ String "010" EmptyString)%string).
Proof.
  unfold numeral_match. destruct word as [|c s].
  - split; [discriminate|]. intros [ds [Hne [_ [E|E]]]].
    + congruence.
    + destruct ds; [congruence | discriminate E].
  - rewrite andb_true_iff, digits_to_end_spec. split.
    + intros [Hc [H|[ds [Hd E]]]].
      * exists (String c s). split; [discriminate|]. split; [exact H|]. left. reflexivity.
      * exists ds. split; [|split; [exact Hd | right; exact E]].
        intros ->. simpl in E. injection E as -> _. discriminate Hc.
    + intros [ds [Hne [Hd [E|E]]]].
      * subst ds. split; [|left; exact Hd].
        cbn [list_ascii_of_string forallb] in Hd. rewrite andb_true_iff in Hd. tauto.
      * destruct ds as [|d ds]; [congruence|].
        simpl in E. injection E as -> E. split.
        -- cbn [list_ascii_of_string forallb] in Hd. rewrite andb_true_iff in Hd. tauto.
        -- right. exists (String d ds). split; [exact Hd|]. simpl. rewrite E. reflexivity.
Qed.

End Numerals.

Lemma unpack_pair_raises (line : list string) (e : exn) :
  unpack_pair line = Raise e -> e = ValueError /\ length line <> 2%nat.
Proof.
  destruct line as [|a [|b [|c l]]]; cbn [unpack_pair]; intros H;
    try discriminate H; injection H as <-; split; try reflexivity; discriminate.
Qed.


Lemma read_reference_lines_raises (s2i t2i : gmap string nat)
    (lines : list (list string)) (e : exn) :
  read_reference_lines s2i t2i lines = Raise e ->
  e = ValueError /\ Exists (fun line => length line <> 2%nat) lines.
Proof.
  unfold read_reference_lines. generalize empty_reference.
  induction lines as [|line lines IH]; intros r H; cbn [foldM] in H; [discriminate|].
  destruct (unpack_pair line) as [entry|e0] eqn:Eu; cbn [bind] in H.
  - destruct (IH _ H) as [-> Hex]. split; [reflexivity | right; exact Hex].
  - injection H as <-. apply unpack_pair_raises in Eu. destruct Eu as [-> Hl].
    split; [reflexivity | left; exact Hl].
Qed.

Section Prepared.
Context {K : Scalar}.
Variable env : Env.



End Prepared.

Section PreparedInputs.
Context {K : Scalar}.
Variable env : Env.


End PreparedInputs.

Lemma seed_without_dictionary_file_witness :
  let args := set_identical demo_args true in
  let src_words := ["un"; "deux"; "trois"] in
  let trg_words := ["one"; "deux"; "three"] in
  exists t ss ts,
    build_training_dictionary demo_env args src_words trg_words
      (word2ind src_words) (word2ind trg_words) = (t, Ok (ss, ts))
    /\ Forall (fun e => forall p, e <> ReadDictionary p) t
    /\ length ss = length ts
    /\ Forall2 (fun i j => exists w, src_words !! i = Some w
                                     /\ trg_words !! j = Some w
                                     /\ (numerals args = true -> numeral_match w = true))
         ss ts
    /\ (numerals args = false ->
        length ss = size (list_to_set (C:=gset string) src_words
                            ∩ list_to_set trg_words)).
Proof.
  intros args src_words trg_words.
  apply (seed_without_dictionary_file demo_env args src_words trg_words).
  reflexivity.
Defined.





Lemma loop_without_self_learning_witness :
  let s2i := word2ind ["un"; "deux"; "trois"] in
  let t2i := word2ind ["one"; "two"; "three"] in
  (ge_float F0 (threshold demo_args) = false ->
   forall fuel,
     training_loop demo_backend (S fuel) demo_args s2i t2i None x_demo z_demo
       (initial_state [0; 1] [0; 1])
     = let* st := iteration demo_backend demo_args s2i t2i None x_demo z_demo
                    (initial_state [0; 1] [0; 1]) in
       Ok (Converged st))
  /\ (ge_float F0 (threshold demo_args) = false ->
      forall fuel st,
        training_loop demo_backend fuel demo_args s2i t2i None x_demo z_demo
          (initial_state [0; 1] [0; 1]) = Ok (Converged st) ->
        it st = 2%nat /\ src_indices st = [0; 1] /\ trg_indices st = [0; 1])
  /\ (ge_float F0 (threshold demo_args) = true ->
      forall fuel st,
        training_loop demo_backend fuel demo_args s2i t2i None x_demo z_demo
          (initial_state [0; 1] [0; 1]) <> Ok (Converged st)).
Proof.
  intros s2i t2i.
  apply (loop_without_self_learning demo_backend demo_args s2i t2i None
           x_demo z_demo [0; 1] [0; 1]).
  reflexivity.
Defined.

Lemma dewhitening_reads_unbound_local_witness :
  match advanced_mapping demo_backend (set_src_dewhiten demo_args (Some dewhiten_src))
          x_demo z_demo [0; 1] [0; 1] with
  | Ok _ => False
  | Raise e => e = IndexError \/ e = ValueError
               \/ e = UnboundLocalError "wx1" \/ e = UnboundLocalError "wz1"
  end.
Proof.
  apply (dewhitening_reads_unbound_local demo_backend
           (set_src_dewhiten demo_args (Some dewhiten_src)) x_demo z_demo [0; 1] [0; 1]).
  - reflexivity.
  - left. discriminate.
Defined.

Lemma whitening_transformation_symmetric_witness :
  exists w,
    whitening_transformation (fixed_svd_backend u_demo s_demo rotation_demo) r_demo = Ok w
    /\ wf w /\ nrows w = ncols r_demo /\ ncols w = ncols r_demo
    /\ transpose w = w.
Proof.
  apply (whitening_transformation_symmetric
           (fixed_svd_backend u_demo s_demo rotation_demo) r_demo).
  exact svd_thin_contract_demo.
Defined.


(** ** Reference dictionaries as files, and the log *)

Lemma unpack_pair_ok (line : list string) (entry : string * string) :
  unpack_pair line = Ok entry -> line = [fst entry; snd entry].
Proof.
  destruct line as [|a [|b [|c l]]]; cbn [unpack_pair]; intros H;
    try discriminate H; injection H as <-; reflexivity.
Qed.

Lemma read_reference_lines_pairs (s2i t2i : gmap string nat)
    (pairs : list (string * string)) :
  read_reference_lines s2i t2i (map (fun p => [fst p; snd p]) pairs)
  = Ok (read_reference s2i t2i pairs).
Proof.
  unfold read_reference_lines, read_reference. generalize empty_reference.
  induction pairs as [|[src trg] pairs IH]; intros r; [reflexivity|].
  cbn [map foldM unpack_pair fst snd bind fold_left]. apply IH.
Qed.

Lemma read_reference_lines_malformed (s2i t2i : gmap string nat)
    (lines : list (list string)) :
  Exists (fun line => length line <> 2%nat) lines ->
  read_reference_lines s2i t2i lines = Raise ValueError.
Proof.
  unfold read_reference_lines. generalize empty_reference.
  induction lines as [|line lines IH]; intros r H; [inversion H|].
  cbn [foldM]. destruct (unpack_pair line) as [entry|e] eqn:Eu; cbn [bind].
  - apply IH. apply Exists_cons in H. destruct H as [H|H]; [|exact H].
    apply unpack_pair_ok in Eu. rewrite Eu in H. contradiction H. reflexivity.
  - apply unpack_pair_raises in Eu. destruct Eu as [-> _]. reflexivity.
Qed.

Section ReferenceFiles.
Context {K : Scalar}.
Variable xp : Backend.

(** X22.  The coverage of a validation or test dictionary read from its
    file: when every line holds two words it is the coverage of the pairs
    of the file; a line that does not hold exactly two words raises
    [ValueError], whatever the other lines; and the only other exception
    is the division by zero. *)
Theorem coverage_of_a_file (src_word2ind trg_word2ind : gmap string nat) :
  (forall pairs,
     coverage_lines src_word2ind trg_word2ind (map (fun p => [fst p; snd p]) pairs)
     = coverage src_word2ind trg_word2ind pairs)
  /\ (forall lines,
        Exists (fun line => length line <> 2%nat) lines ->
        coverage_lines src_word2ind trg_word2ind lines = Raise ValueError)
  /\ (forall lines e,
        coverage_lines src_word2ind trg_word2ind lines = Raise e ->
        (e = ValueError /\ Exists (fun line => length line <> 2%nat) lines)
        \/ (e = ZeroDivisionError /\ Forall (fun line => length line = 2%nat) lines)).
Proof.
  split; [|split].
  - intros pairs. unfold coverage_lines, coverage.
    rewrite read_reference_lines_pairs. reflexivity.
  - intros lines H. unfold coverage_lines.
    rewrite (read_reference_lines_malformed _ _ _ H). reflexivity.
  - intros lines e. unfold coverage_lines.
    destruct (read_reference_lines src_word2ind trg_word2ind lines) as [r|e0] eqn:Er;
      cbn [bind].
    + intros H. right. split.
      * unfold coverage_of in H. destruct (Nat.eqb _ 0); congruence.
      * apply Forall_forall. intros line Hin.
        destruct (decide (length line = 2%nat)) as [Hl|Hl]; [exact Hl|].
        exfalso. rewrite read_reference_lines_malformed in Er; [discriminate|].
        apply Exists_exists. exists line. split; assumption.
    + intros H. injection H as <-. left.
      apply (read_reference_lines_raises _ _ _ _ Er).
Qed.


End ReferenceFiles.


(** The demonstration run with [--self_learning --log ''] ends in its first
    iteration. *)
Example empty_log_name_demo :
  training_loop demo_backend 5
    (set_log (set_self_learning demo_args true) (Some EmptyString))
    (word2ind ["un"; "deux"; "trois"]) (word2ind ["one"; "two"; "three"])
    None x_demo z_demo (initial_state [0; 1] [0; 1])
  = Raise (UnboundLocalError "log").
Proof. vm_compute. reflexivity. Qed.

(** With [--lap-rank 4611686018427387904] the allocation of line 266 fails
    before [args.n_similar] is read. *)
Example lapmod_huge_rank_is_a_memory_error :
  induce_dictionary demo_backend
    (set_lap_rank (set_lapmod (set_self_learning demo_args true) true)
       (Some 4611686018427387904%Z))
    x_demo z_demo z_demo z_demo
  = Raise MemoryError.
Proof. reflexivity. Qed.

(** A training dictionary of three lines, one of them out of the
    vocabulary, and one with a line of a single word. *)
Example seed_of_lines_demo :
  seed_of_lines (word2ind ["un"; "deux"; "trois"]) (word2ind ["one"; "two"; "three"])
    [["un"; "one"]; ["quatre"; "four"]; ["deux"; "two"]]
  = ([Stderr "WARNING: OOV dictionary entry"], Ok ([0; 1], [0; 1]))
  /\ seed_of_lines (word2ind ["un"; "deux"; "trois"]) (word2ind ["one"; "two"; "three"])
       [["quatre"; "four"]; ["deux"]; ["un"; "one"]]
     = ([Stderr "WARNING: OOV dictionary entry"], Raise ValueError).
Proof. split; vm_compute; reflexivity. Qed.
